(** * Script-and-prosody engine of siksamitra: a shallow embedding

    The engine lives in two source files:
    - [src/js/sanskrit_rules.js]: the classes [SanskritRules] and
      [SanskritProcessor] (normalizer, holding locator, pause locator);
    - [src/editor-quill.js]: the two transliteration methods
      [devanagariToIAST] and [iastToDevanagari].

    A JavaScript string is a sequence of UTF-16 code units.  Every literal of
    the two files lies in the Basic Multilingual Plane, so one code unit is one
    character of the tables; a text is a [list Z] of code units and an index
    into it is a [nat].  Loops are written with the index variable of the
    source and a fuel argument that bounds the number of iterations.  *)

From Stdlib Require Import ZArith List Bool Lia Arith.
Import ListNotations.

(** ** JavaScript strings *)

Module JS.

Local Open Scope Z_scope.

Definition str := list Z.

(** [a === b] on strings. *)
Fixpoint str_eqb (a b : str) : bool :=
  match a, b with
  | [], [] => true
  | x :: a', y :: b' => (x =? y) && str_eqb a' b'
  | _, _ => false
  end.

(** [set.has(s)] and [array.includes(s)] on a collection of strings. *)
Definition has (set : list str) (s : str) : bool :=
  existsb (str_eqb s) set.

(** [text.substring(a, b)] for [a <= b]; indices past the end are clamped. *)
Definition substring (text : str) (a b : nat) : str :=
  firstn (b - a)%nat (skipn a text).

(** The character class [\s] of an ECMAScript regular expression. *)
Definition is_space (c : Z) : bool :=
  ((9 <=? c) && (c <=? 13)) || (c =? 32) || (c =? 0xA0) || (c =? 0x1680)
  || ((0x2000 <=? c) && (c <=? 0x200A)) || (c =? 0x2028) || (c =? 0x2029)
  || (c =? 0x202F) || (c =? 0x205F) || (c =? 0x3000) || (c =? 0xFEFF).

(** [text.replace(/c/g, r)] for a one-unit pattern [c]. *)
Definition replaceChar (c : Z) (r : str) (text : str) : str :=
  flat_map (fun x => if x =? c then r else [x]) text.

(** [text[i] === c] *)
Definition at_is (text : str) (i : nat) (c : Z) : bool :=
  match nth_error text i with
  | Some x => x =? c
  | None => false
  end.

(** A JavaScript object used as a table from strings to strings. *)
Definition table := list (str * str).

Fixpoint lookup (tbl : table) (key : str) : option str :=
  match tbl with
  | [] => None
  | (k, v) :: tbl' => if str_eqb key k then Some v else lookup tbl' key
  end.

(** Truthiness of [tbl[key]]: every value of the tables is a non-empty
    string, so the test succeeds exactly on the keys. *)
Definition known (tbl : table) (key : str) : bool :=
  match lookup tbl key with Some _ => true | None => false end.

Definition starts_with (pat text : str) : bool :=
  str_eqb (firstn (length pat) text) pat.

(** [text.replace(/pat/g, r)] for a literal, non-empty pattern: matches are
    taken left to right and do not overlap. *)
Fixpoint replaceAll_go (fuel : nat) (pat r text : str) : str :=
  match fuel with
  | O => text
  | S fuel' =>
      match text with
      | [] => []
      | x :: rest =>
          if starts_with pat text
          then r ++ replaceAll_go fuel' pat r (skipn (length pat) text)
          else x :: replaceAll_go fuel' pat r rest
      end
  end%nat.

Definition replaceAll (pat r text : str) : str :=
  replaceAll_go (length text) pat r text.

End JS.

Import JS.

(** ** Code units named in the sources *)

Module Ch.
Local Open Scope Z_scope.
(* Latin side *)
Definition a := 0x61.
Definition i := 0x69.
Definition u := 0x75.
Definition e := 0x65.
Definition o := 0x6F.
Definition aa := 0x101.
Definition ii := 0x12B.
Definition uu := 0x16B.
Definition rv := 0x1E5B.
Definition rrv := 0x1E5D.
Definition lv := 0x1E37.
Definition llv := 0x1E39.
Definition k := 0x6B.
Definition g := 0x67.
Definition ng := 0x1E45.
Definition c := 0x63.
Definition j := 0x6A.
Definition ny := 0xF1.
Definition tt := 0x1E6D.
Definition dd := 0x1E0D.
Definition nn := 0x1E47.
Definition t := 0x74.
Definition d := 0x64.
Definition n := 0x6E.
Definition p := 0x70.
Definition b := 0x62.
Definition m := 0x6D.
Definition y := 0x79.
Definition r := 0x72.
Definition l := 0x6C.
Definition v := 0x76.
Definition sh := 0x15B.
Definition ss := 0x1E63.
Definition s := 0x73.
Definition h := 0x68.
Definition visarga := 0x1E25. (* h with dot below *)
Definition anusvara := 0x1E41. (* m with dot above *)
Definition anusvara_below := 0x1E43. (* m with dot below *)
Definition omacron := 0x14D.
Definition emacron := 0x113.
Definition pipe := 0x7C.
Definition space := 0x20.
Definition newline := 0x0A.
Definition apostrophe := 0x27.
Definition lparen := 0x28.
Definition rparen := 0x29.
(* combining tone marks *)
Definition svarita := 0x30D.
Definition anudatta := 0x331.
Definition udatta := 0x30E.
Definition tick := 0x2CE.
(* Devanagari side *)
Definition virama := 0x94D.
Definition om := 0x950.
End Ch.

(** ** [class SanskritRules] *)

Module Rules.

Definition SKIP_CONSONANTS : list str :=
  [[Ch.ng]; [Ch.ny]; [Ch.nn]; [Ch.n]; [Ch.m]; [Ch.r]; [Ch.sh]; [Ch.ss]; [Ch.s]].

Definition ALL_CONSONANTS : list str :=
  [[Ch.k]; [Ch.k; Ch.h]; [Ch.g]; [Ch.g; Ch.h]; [Ch.ng];
   [Ch.c]; [Ch.c; Ch.h]; [Ch.j]; [Ch.j; Ch.h]; [Ch.ny];
   [Ch.tt]; [Ch.tt; Ch.h]; [Ch.dd]; [Ch.dd; Ch.h]; [Ch.nn];
   [Ch.t]; [Ch.t; Ch.h]; [Ch.d]; [Ch.d; Ch.h]; [Ch.n];
   [Ch.p]; [Ch.p; Ch.h]; [Ch.b]; [Ch.b; Ch.h]; [Ch.m];
   [Ch.y]; [Ch.r]; [Ch.l]; [Ch.v];
   [Ch.sh]; [Ch.ss]; [Ch.s]; [Ch.h];
   [Ch.visarga]; [Ch.anusvara]; [Ch.anusvara_below]].

Definition SHORT_VOWELS : list str :=
  [[Ch.a]; [Ch.i]; [Ch.u]; [Ch.rv]; [Ch.lv]].

Definition LONG_VOWELS : list str :=
  [[Ch.aa]; [Ch.ii]; [Ch.uu]; [Ch.rrv]; [Ch.llv]; [Ch.e]; [Ch.a; Ch.i];
   [Ch.o]; [Ch.a; Ch.u]].

Definition VOWELS : list str := SHORT_VOWELS ++ LONG_VOWELS.

Definition SVARA_MARKS : list str :=
  [[Ch.anudatta]; [Ch.svarita]; [Ch.udatta]; [Ch.tick]].

Definition TWO_CHAR_CONSONANTS : list str :=
  [[Ch.k; Ch.h]; [Ch.g; Ch.h]; [Ch.c; Ch.h]; [Ch.j; Ch.h]; [Ch.tt; Ch.h];
   [Ch.dd; Ch.h]; [Ch.t; Ch.h]; [Ch.d; Ch.h]; [Ch.p; Ch.h]; [Ch.b; Ch.h]].

(** [isConsonant(text, pos)]: the consonant unit at [pos], two-unit
    consonants first.  The source answers [false] or [null] when there is
    none; both are falsy and every caller only tests truthiness. *)
Definition isConsonant (text : str) (pos : nat) : option str :=
  if (length text <=? pos)%nat then None
  else
    let twoChar := substring text pos (pos + 2) in
    if (pos + 1 <? length text)%nat && has TWO_CHAR_CONSONANTS twoChar
    then Some twoChar
    else
      match nth_error text pos with
      | Some c => if has ALL_CONSONANTS [c] then Some [c] else None
      | None => None
      end.

(** [isVowel(text, pos)]: the vowel unit at [pos], two-unit vowels first. *)
Definition isVowel (text : str) (pos : nat) : option str :=
  if (length text <=? pos)%nat then None
  else
    let twoChar := substring text pos (pos + 2) in
    if (pos + 1 <? length text)%nat && has VOWELS twoChar
    then Some twoChar
    else
      match nth_error text pos with
      | Some c => if has VOWELS [c] then Some [c] else None
      | None => None
      end.

Definition isSvaraMark (c : Z) : bool := has SVARA_MARKS [c].

End Rules.

(** ** [class SanskritProcessor] *)

Module Processor.

Import Rules.

(** The [type] field of holdings and pauses: [''], ['short'] or ['long']. *)
Inductive kind := NoKind | Short | Long.

Definition kind_eqb (x y : kind) : bool :=
  match x, y with
  | NoKind, NoKind | Short, Short | Long, Long => true
  | _, _ => false
  end.

(** *** [preProcessRawText] *)

Definition preProcessRawText (text : str) : str :=
  let text := replaceChar 0x951 [Ch.svarita] text in
  let text := replaceChar 0x952 [Ch.anudatta] text in
  let text := replaceChar 0x332 [Ch.anudatta] text in
  let text := replaceChar 0x320 [Ch.anudatta] text in
  let text := replaceChar 0x321 [Ch.anudatta] text in
  let text := replaceChar 0x1CDA [Ch.udatta] text in
  let text := replaceChar 0x341 [Ch.udatta] text in
  let text := replaceChar Ch.anusvara_below [Ch.anusvara] text in
  let text := replaceChar Ch.omacron [Ch.o] text in
  let text := replaceChar Ch.emacron [Ch.e] text in
  let text := replaceAll [Ch.lparen; Ch.g; Ch.rparen; Ch.m] [Ch.anusvara] text in
  let text := replaceAll [Ch.lparen; Ch.g; Ch.rparen; Ch.anusvara] [Ch.anusvara] text in
  let text := replaceAll [Ch.lparen; Ch.g; Ch.anudatta; Ch.rparen; Ch.anusvara]
                         [Ch.anusvara] text in
  let text := replaceAll [Ch.lparen; Ch.g; Ch.anudatta; Ch.rparen; Ch.m]
                         [Ch.anusvara] text in
  text.

(** *** [findPreviousVowel] *)

Record prevVowel := PrevVowel {
  vowel : str;
  blocked : bool;
  pv_position : Z
}.

(** The loop [while (i >= 0)], with [n = i + 1]. *)
Fixpoint findPreviousVowel_loop (text : str) (blockAtSpace : bool) (n : nat)
  : prevVowel :=
  match n with
  | O => PrevVowel [] false (-1)%Z
  | S i =>
      match nth_error text i with
      | None => PrevVowel [] false (-1)%Z   (* not reached: i < text.length *)
      | Some c =>
          if (c =? Ch.pipe)%Z then findPreviousVowel_loop text blockAtSpace i
          else if isSvaraMark c then findPreviousVowel_loop text blockAtSpace i
          else if is_space c && blockAtSpace then PrevVowel [] true (-1)%Z
          else if (c =? Ch.anusvara)%Z || (c =? Ch.anusvara_below)%Z
                  || (c =? Ch.visarga)%Z
               then PrevVowel [c] false (Z.of_nat i)
          else
            match isVowel text i with
            | Some v => PrevVowel v false (Z.of_nat i)
            | None => findPreviousVowel_loop text blockAtSpace i
            end
      end
  end.

Definition findPreviousVowel (text : str) (pos : nat) (blockAtSpace : bool)
  : prevVowel :=
  findPreviousVowel_loop text blockAtSpace pos.

(** *** [findSamyuktaLength] *)

Fixpoint findSamyuktaLength_loop (fuel : nat) (text : str) (countMarks : bool)
  (i : nat) (length : nat) : nat :=
  match fuel with
  | O => length
  | S fuel' =>
      match nth_error text i with
      | None => length
      | Some c =>
          if is_space c || (c =? Ch.newline)%Z
          then findSamyuktaLength_loop fuel' text countMarks (i + 1) length
          else if (c =? Ch.pipe)%Z
          then findSamyuktaLength_loop fuel' text countMarks (i + 1) length
          else if countMarks && isSvaraMark c
          then findSamyuktaLength_loop fuel' text countMarks (i + 1) length
          else
            match isConsonant text i with
            | Some consonant =>
                findSamyuktaLength_loop fuel' text countMarks
                  (i + List.length consonant) (length + 1)
            | None => length
            end
      end
  end.

Definition findSamyuktaLength (text : str) (pos : nat) (countMarks : bool)
  : nat :=
  findSamyuktaLength_loop (length text - pos) text countMarks pos 0.

(** *** [findHoldingPosition] *)

Record holding := Holding {
  position : nat;
  length : nat;
  type : kind;
  endPos : option nat
}.

Definition noHolding : holding := Holding 0 0 NoKind None.

(** The inner loop that runs to the end of the samyukta after a consonant
    that follows a space; only tone marks are skipped there. *)
Fixpoint scanToEnd (fuel : nat) (text : str) (i : nat) : nat :=
  match fuel with
  | O => i
  | S fuel' =>
      match nth_error text i with
      | None => i
      | Some c =>
          if isSvaraMark c then scanToEnd fuel' text (i + 1)
          else
            match isConsonant text i with
            | Some nextCons => scanToEnd fuel' text (i + List.length nextCons)
            | None => i
            end
      end
  end.

(** The loop "Traverse the samyukta".  [Some h] is a [return] from inside the
    loop; [None] means the loop ended (by [break] or at the end of the text)
    and the code after it runs.  [last] pairs [lastConsonantBeforeSpace] with
    [lastConsonantBeforeSpacePos]; they are assigned together and the
    position is read only when the consonant is set. *)
Fixpoint traverse (fuel : nat) (text : str) (holdingType : kind)
  (holdingPosition : nat) (i : nat) (passedOverSpace : bool)
  (last : option (str * nat)) : option holding :=
  match fuel with
  | O => None
  | S fuel' =>
      match nth_error text i with
      | None => None
      | Some c =>
          if is_space c || (c =? Ch.newline)%Z then
            let last' :=
              if negb passedOverSpace then
                match isConsonant text holdingPosition with
                | Some cons_ => Some (cons_, holdingPosition)
                | None => last
                end
              else last in
            traverse fuel' text holdingType holdingPosition (i + 1) true last'
          else if (c =? Ch.pipe)%Z then
            traverse fuel' text holdingType holdingPosition (i + 1)
              passedOverSpace last
          else if isSvaraMark c then
            traverse fuel' text holdingType holdingPosition (i + 1)
              passedOverSpace last
          else
            match isConsonant text i with
            | None => None
            | Some cons_ =>
                if passedOverSpace then
                  match last with
                  | Some (lastCons, lastPos) =>
                      if str_eqb cons_ lastCons then
                        Some (Holding lastPos (List.length lastCons) holdingType
                                (Some (scanToEnd (List.length text) text (i + List.length cons_))))
                      else
                        Some (Holding i (List.length cons_) holdingType
                                (Some (scanToEnd (List.length text) text (i + List.length cons_))))
                  | None =>
                      Some (Holding i (List.length cons_) holdingType
                              (Some (scanToEnd (List.length text) text (i + List.length cons_))))
                  end
                else
                  traverse fuel' text holdingType holdingPosition
                    (i + List.length cons_) passedOverSpace last
            end
      end
  end.

(** The loop "Skip over SKIP_CONSONANTS": the final [holdingPosition]. *)
Fixpoint skipSkipConsonants (fuel : nat) (text : str) (holdingPosition : nat)
  : nat :=
  match fuel with
  | O => holdingPosition
  | S fuel' =>
      match isConsonant text holdingPosition with
      | Some currentCons =>
          if has SKIP_CONSONANTS currentCons then
            let holdingPosition' := (holdingPosition + List.length currentCons)%nat in
            if (List.length text <=? holdingPosition')%nat then holdingPosition'
            else skipSkipConsonants fuel' text holdingPosition'
          else holdingPosition
      | None => holdingPosition
      end
  end.

Definition findHoldingPosition (text : str) (pos : nat) : holding :=
  match isConsonant text pos with
  | None => noHolding
  | Some consonant =>
      let samyuktaLength := findSamyuktaLength text pos false in
      if (samyuktaLength <=? 1)%nat then noHolding
      else
        let pv := findPreviousVowel text pos true in
        if str_eqb (vowel pv) [] then
          if blocked pv
          then Holding pos (List.length consonant) Short None
          else noHolding
        else
          let holdingType := if has LONG_VOWELS (vowel pv) then Long else Short in
          match traverse (List.length text - pos) text holdingType pos pos false None with
          | Some h => h
          | None =>
              let holdingPosition :=
                skipSkipConsonants (List.length text - pos) text pos in
              match isConsonant text holdingPosition with
              | Some currentCons =>
                  Holding holdingPosition (List.length currentCons) holdingType None
              | None => noHolding
              end
          end
  end.

(** *** [findAllHoldings] *)

(** Where the outer loop continues after a holding: [holding.endPos] when it
    is defined, otherwise [holding.position + holding.length]. *)
Definition resumeAt (h : holding) : nat :=
  match endPos h with
  | Some e => e
  | None => position h + length h
  end.

Fixpoint findAllHoldings_loop (fuel : nat) (text : str) (i : nat)
  : list holding :=
  match fuel with
  | O => []
  | S fuel' =>
      match nth_error text i with
      | None => []
      | Some c =>
          if (c =? Ch.pipe)%Z then findAllHoldings_loop fuel' text (i + 1)
          else
            match isConsonant text i with
            | Some consonant =>
                let h := findHoldingPosition text i in
                if (0 <? position h)%nat && (0 <? length h)%nat then
                  h :: findAllHoldings_loop fuel' text (resumeAt h)
                else findAllHoldings_loop fuel' text (i + List.length consonant)
            | None =>
                if isSvaraMark c then findAllHoldings_loop fuel' text (i + 1)
                else findAllHoldings_loop fuel' text (i + 1)
            end
      end
  end.

Definition findAllHoldings (text : str) : list holding :=
  findAllHoldings_loop (List.length text) text 0.

(** *** [findAllPauses] *)

Record pause := Pause {
  p_position : nat;
  p_type : kind
}.

(** [while (nextPos < text.length && isSvaraMark(text[nextPos])) nextPos++] *)
Fixpoint skipSvara (fuel : nat) (text : str) (nextPos : nat) : nat :=
  match fuel with
  | O => nextPos
  | S fuel' =>
      match nth_error text nextPos with
      | Some c => if isSvaraMark c then skipSvara fuel' text (nextPos + 1)
                  else nextPos
      | None => nextPos
      end
  end.

(** What one visit of a vowel unit at [i] pushes. *)
Definition pauseAfterVowel (text : str) (i : nat) (vowel : str) : list pause :=
  let nextPos := skipSvara (List.length text) text (i + List.length vowel) in
  match nth_error text nextPos with
  | Some c =>
      if (c =? Ch.space)%Z then
        let nextPos := skipSvara (List.length text) text (nextPos + 1) in
        match isVowel text nextPos with
        | Some nextVowel =>
            let isCurrentLong := has LONG_VOWELS vowel in
            let isNextShort := has SHORT_VOWELS nextVowel in
            if isCurrentLong && isNextShort
            then [Pause nextPos Long]
            else [Pause nextPos Short]
        | None => []
        end
      else []
  | None => []
  end.

Fixpoint findAllPauses_loop (fuel : nat) (text : str) (i : nat) : list pause :=
  match fuel with
  | O => []
  | S fuel' =>
      match nth_error text i with
      | None => []
      | Some c =>
          if isSvaraMark c then findAllPauses_loop fuel' text (i + 1)
          else if (i + 2 <? List.length text)%nat
                  && (c =? Ch.o)%Z
                  && at_is text (i + 1) Ch.anusvara
                  && at_is text (i + 2) Ch.space
          then Pause (i + 3) Short :: findAllPauses_loop fuel' text (i + 3)
          else
            match isVowel text i with
            | Some vowel =>
                pauseAfterVowel text i vowel
                ++ findAllPauses_loop fuel' text (i + List.length vowel)
            | None => findAllPauses_loop fuel' text (i + 1)
            end
      end
  end.

Definition findAllPauses (text : str) : list pause :=
  findAllPauses_loop (List.length text) text 0.

End Processor.

Import Rules Processor.

(** ** The transliteration methods of [src/editor-quill.js] *)

Module Translit.

(** Both loops only ever append to [result]; each is written as the function
    that gives what is appended from index [i] on. *)

(** *** [devanagariToIAST] *)

Module D2I.

Local Open Scope Z_scope.

Definition vowels : table :=
  [([0x905], [Ch.a]); ([0x906], [Ch.aa]); ([0x907], [Ch.i]); ([0x908], [Ch.ii]);
   ([0x909], [Ch.u]); ([0x90A], [Ch.uu]);
   ([0x90B], [Ch.rv]); ([0x960], [Ch.rrv]); ([0x90C], [Ch.lv]); ([0x961], [Ch.llv]);
   ([0x90F], [Ch.e]); ([0x910], [Ch.a; Ch.i]); ([0x913], [Ch.o]);
   ([0x914], [Ch.a; Ch.u]);
   ([Ch.om], [Ch.o; Ch.anusvara])].

Definition vowelSigns : table :=
  [([0x93E], [Ch.aa]); ([0x93F], [Ch.i]); ([0x940], [Ch.ii]); ([0x941], [Ch.u]);
   ([0x942], [Ch.uu]);
   ([0x943], [Ch.rv]); ([0x944], [Ch.rrv]); ([0x962], [Ch.lv]); ([0x963], [Ch.llv]);
   ([0x947], [Ch.e]); ([0x948], [Ch.a; Ch.i]); ([0x94B], [Ch.o]);
   ([0x94C], [Ch.a; Ch.u])].

Definition consonants : table :=
  [([0x915], [Ch.k]); ([0x916], [Ch.k; Ch.h]); ([0x917], [Ch.g]);
   ([0x918], [Ch.g; Ch.h]); ([0x919], [Ch.ng]);
   ([0x91A], [Ch.c]); ([0x91B], [Ch.c; Ch.h]); ([0x91C], [Ch.j]);
   ([0x91D], [Ch.j; Ch.h]); ([0x91E], [Ch.ny]);
   ([0x91F], [Ch.tt]); ([0x920], [Ch.tt; Ch.h]); ([0x921], [Ch.dd]);
   ([0x922], [Ch.dd; Ch.h]); ([0x923], [Ch.nn]);
   ([0x924], [Ch.t]); ([0x925], [Ch.t; Ch.h]); ([0x926], [Ch.d]);
   ([0x927], [Ch.d; Ch.h]); ([0x928], [Ch.n]);
   ([0x92A], [Ch.p]); ([0x92B], [Ch.p; Ch.h]); ([0x92C], [Ch.b]);
   ([0x92D], [Ch.b; Ch.h]); ([0x92E], [Ch.m]);
   ([0x92F], [Ch.y]); ([0x930], [Ch.r]); ([0x932], [Ch.l]); ([0x935], [Ch.v]);
   ([0x936], [Ch.sh]); ([0x937], [Ch.ss]); ([0x938], [Ch.s]); ([0x939], [Ch.h]);
   ([0x933], [Ch.lv]);
   ([0x915; Ch.virama; 0x937], [Ch.k; Ch.ss]);
   ([0x91C; Ch.virama; 0x91E], [Ch.j; Ch.ny])].

Definition special : table :=
  [([0x902], [Ch.anusvara]);
   ([0x903], [Ch.visarga]);
   ([0x901], [Ch.m; 0x310]);
   ([0x93D], [Ch.apostrophe]);
   ([0x964], [Ch.pipe]);
   ([0x965], [Ch.pipe; Ch.pipe])].

Definition get (tbl : table) (key : str) : str :=
  match lookup tbl key with Some v => v | None => [] end.

Fixpoint devanagariToIAST_loop (fuel : nat) (text : str) (i : nat) : str :=
  match fuel with
  | O => []
  | S fuel' =>
      match nth_error text i with
      | None => []
      | Some char =>
          if char =? Ch.om then
            [Ch.o; Ch.anusvara] ++ devanagariToIAST_loop fuel' text (i + 1)
          else
            let twoChar :=
              match nth_error text (i + 1) with
              | Some next => [char; next]
              | None => [char]
              end in
            if (i + 1 <? List.length text)%nat && known consonants twoChar then
              (* the two-unit combinations *)
              let i := (i + 2)%nat in
              get consonants twoChar ++
              match nth_error text i with
              | Some nextChar =>
                  if known vowelSigns [nextChar] then
                    get vowelSigns [nextChar]
                    ++ devanagariToIAST_loop fuel' text (i + 1)
                  else if negb (nextChar =? Ch.virama) then
                    [Ch.a] ++ devanagariToIAST_loop fuel' text i
                  else devanagariToIAST_loop fuel' text i
              | None => [Ch.a] ++ devanagariToIAST_loop fuel' text i
              end
            else if known vowels [char] then
              get vowels [char] ++ devanagariToIAST_loop fuel' text (i + 1)
            else if known consonants [char] then
              get consonants [char] ++
              match nth_error text (i + 1) with
              | Some nextChar =>
                  if known vowelSigns [nextChar] then
                    get vowelSigns [nextChar]
                    ++ devanagariToIAST_loop fuel' text (i + 1 + 1)
                  else if nextChar =? Ch.virama then
                    if (i + 2 <? List.length text)%nat
                       && match nth_error text (i + 2) with
                          | Some c2 => known consonants [c2]
                          | None => false
                          end
                    then devanagariToIAST_loop fuel' text (i + 1 + 1)
                    else devanagariToIAST_loop fuel' text (i + 1 + 1)
                  else [Ch.a] ++ devanagariToIAST_loop fuel' text (i + 1)
              | None => devanagariToIAST_loop fuel' text (i + 1)
              end
            else if known vowelSigns [char] then
              get vowelSigns [char] ++ devanagariToIAST_loop fuel' text (i + 1)
            else if negb (char =? Ch.virama) && known special [char] then
              get special [char] ++ devanagariToIAST_loop fuel' text (i + 1)
            else if char =? Ch.virama then
              devanagariToIAST_loop fuel' text (i + 1)
            else [char] ++ devanagariToIAST_loop fuel' text (i + 1)
      end
  end.

End D2I.

Definition devanagariToIAST (text : str) : str :=
  D2I.devanagariToIAST_loop (List.length text) text 0.

(** *** [iastToDevanagari] *)

Module I2D.

Local Open Scope Z_scope.

Definition vowels : table :=
  [([Ch.a], [0x905]); ([Ch.aa], [0x906]); ([Ch.i], [0x907]); ([Ch.ii], [0x908]);
   ([Ch.u], [0x909]); ([Ch.uu], [0x90A]);
   ([Ch.rv], [0x90B]); ([Ch.rrv], [0x960]); ([Ch.lv], [0x90C]); ([Ch.llv], [0x961]);
   ([Ch.e], [0x90F]); ([Ch.a; Ch.i], [0x910]); ([Ch.o], [0x913]);
   ([Ch.a; Ch.u], [0x914]);
   ([Ch.o; Ch.anusvara], [Ch.om]);
   ([Ch.anusvara], [0x902])].

Definition vowelSigns : table :=
  [([Ch.aa], [0x93E]); ([Ch.i], [0x93F]); ([Ch.ii], [0x940]); ([Ch.u], [0x941]);
   ([Ch.uu], [0x942]);
   ([Ch.rv], [0x943]); ([Ch.rrv], [0x944]); ([Ch.lv], [0x962]); ([Ch.llv], [0x963]);
   ([Ch.e], [0x947]); ([Ch.a; Ch.i], [0x948]); ([Ch.o], [0x94B]);
   ([Ch.a; Ch.u], [0x94C])].

Definition consonants : table :=
  [([Ch.k], [0x915]); ([Ch.k; Ch.h], [0x916]); ([Ch.g], [0x917]);
   ([Ch.g; Ch.h], [0x918]); ([Ch.ng], [0x919]);
   ([Ch.c], [0x91A]); ([Ch.c; Ch.h], [0x91B]); ([Ch.j], [0x91C]);
   ([Ch.j; Ch.h], [0x91D]); ([Ch.ny], [0x91E]);
   ([Ch.tt], [0x91F]); ([Ch.tt; Ch.h], [0x920]); ([Ch.dd], [0x921]);
   ([Ch.dd; Ch.h], [0x922]); ([Ch.nn], [0x923]);
   ([Ch.t], [0x924]); ([Ch.t; Ch.h], [0x925]); ([Ch.d], [0x926]);
   ([Ch.d; Ch.h], [0x927]); ([Ch.n], [0x928]);
   ([Ch.p], [0x92A]); ([Ch.p; Ch.h], [0x92B]); ([Ch.b], [0x92C]);
   ([Ch.b; Ch.h], [0x92D]); ([Ch.m], [0x92E]);
   ([Ch.y], [0x92F]); ([Ch.r], [0x930]); ([Ch.l], [0x932]); ([Ch.v], [0x935]);
   ([Ch.sh], [0x936]); ([Ch.ss], [0x937]); ([Ch.s], [0x938]); ([Ch.h], [0x939])].

Definition special : table :=
  [([Ch.anusvara], [0x902]); ([Ch.anusvara_below], [0x902]);
   ([Ch.visarga], [0x903]); ([Ch.apostrophe], [0x93D]);
   ([0x30], [0x966]); ([0x31], [0x967]); ([0x32], [0x968]); ([0x33], [0x969]);
   ([0x34], [0x96A]); ([0x35], [0x96B]); ([0x36], [0x96C]); ([0x37], [0x96D]);
   ([0x38], [0x96E]); ([0x39], [0x96F])].

(** The ten spellings tested in the three-unit branch. *)
Definition aspiratedWithA : list str :=
  [[Ch.k; Ch.h; Ch.a]; [Ch.g; Ch.h; Ch.a]; [Ch.c; Ch.h; Ch.a];
   [Ch.j; Ch.h; Ch.a]; [Ch.tt; Ch.h; Ch.a]; [Ch.dd; Ch.h; Ch.a];
   [Ch.t; Ch.h; Ch.a]; [Ch.d; Ch.h; Ch.a]; [Ch.p; Ch.h; Ch.a];
   [Ch.b; Ch.h; Ch.a]].

Definition get (tbl : table) (key : str) : str :=
  match lookup tbl key with Some v => v | None => [] end.

(** The helper [isConsonantAhead(pos)]. *)
Definition isConsonantAhead (text : str) (pos : nat) : bool :=
  if (List.length text <=? pos)%nat then false
  else if known consonants (substring text pos (pos + 2)) then true
  else
    match nth_error text pos with
    | Some c => known consonants [c]
    | None => false
    end.

(** The helper [isWordBoundary(char)]; [None] is [undefined]. *)
Definition isWordBoundary (char : option Z) : bool :=
  match char with
  | None => true
  | Some c =>
      if is_space c || (c =? 0xA0) || (c =? 0x202F) || (c =? 0x2009) then true
      else if (c =? 0x2E) || (c =? 0x2C) || (c =? 0x3B) || (c =? 0x3A)
              || (c =? 0x21) || (c =? 0x3F) || (c =? 0x2D) || (c =? 0x2014)
              || (c =? 0x28) || (c =? 0x29) || (c =? 0x7C) || (c =? 0x964)
              || (c =? 0x965)
      then true
      else false
  end.

(** "Check what comes after the consonant": the block that follows a
    matched consonant, which the source repeats for two-unit and one-unit
    consonants.  [i] is the index after the consonant; the answer is what is
    appended and the new index. *)
Definition afterConsonant (text : str) (i : nat) : str * nat :=
  if (i <? List.length text)%nat then
    let nextTwo := substring text i (i + 2) in
    if (i + 1 <? List.length text)%nat && known vowelSigns nextTwo then
      (get vowelSigns nextTwo, (i + 2)%nat)
    else
      match nth_error text i with
      | Some c =>
          if known vowelSigns [c] then (get vowelSigns [c], (i + 1)%nat)
          else if c =? Ch.a then ([], (i + 1)%nat)
          else
            let needsVirama :=
              isConsonantAhead text i || isWordBoundary (Some c) in
            if needsVirama then ([Ch.virama], i) else ([], i)
      | None => ([], i)
      end
  else ([Ch.virama], i).

Fixpoint iastToDevanagari_loop (fuel : nat) (text : str) (i : nat) : str :=
  match fuel with
  | O => []
  | S fuel' =>
      if (List.length text <=? i)%nat then []
      else if (i + 2 <=? List.length text)%nat
              && str_eqb (substring text i (i + 2)) [Ch.o; Ch.anusvara]
      then [Ch.om] ++ iastToDevanagari_loop fuel' text (i + 2)
      else if (i + 2 <? List.length text)%nat
              && has aspiratedWithA (substring text i (i + 3))
      then
        let cons_ := substring (substring text i (i + 3)) 0 2 in
        get consonants cons_ ++ iastToDevanagari_loop fuel' text (i + 3)
      else
        let twoChar := substring text i (i + 2) in
        if (i + 1 <? List.length text)%nat && known consonants twoChar then
          let (out, i') := afterConsonant text (i + 2) in
          get consonants twoChar ++ out ++ iastToDevanagari_loop fuel' text i'
        else if (i + 1 <? List.length text)%nat && known vowels twoChar then
          get vowels twoChar ++ iastToDevanagari_loop fuel' text (i + 2)
        else
          match nth_error text i with
          | None => []
          | Some char =>
              if known consonants [char] then
                let (out, i') := afterConsonant text (i + 1) in
                get consonants [char] ++ out
                ++ iastToDevanagari_loop fuel' text i'
              else if known vowels [char] then
                get vowels [char] ++ iastToDevanagari_loop fuel' text (i + 1)
              else if known special [char] then
                get special [char] ++ iastToDevanagari_loop fuel' text (i + 1)
              else [char] ++ iastToDevanagari_loop fuel' text (i + 1)
          end
  end.

End I2D.

Definition iastToDevanagari (text : str) : str :=
  I2D.iastToDevanagari_loop (List.length text) text 0.

End Translit.

Import Translit.

(** ** Vocabulary of the statements and proofs *)

(** One iteration of the loop of [iastToDevanagari] on the text [s] that is
    left, with [K k] standing for the result of the loop after [k] more code
    units. *)
Definition i2d_body (s : str) (K : nat -> str) : str :=
  match s with
  | [] => []
  | char :: _ =>
      if (2 <=? List.length s) && str_eqb (firstn 2 s) [Ch.o; Ch.anusvara]
      then [Ch.om] ++ K 2
      else if (2 <? List.length s) && has I2D.aspiratedWithA (firstn 3 s)
      then I2D.get I2D.consonants (firstn 2 s) ++ K 3
      else if (1 <? List.length s) && known I2D.consonants (firstn 2 s)
      then I2D.get I2D.consonants (firstn 2 s)
           ++ fst (I2D.afterConsonant s 2) ++ K (snd (I2D.afterConsonant s 2))
      else if (1 <? List.length s) && known I2D.vowels (firstn 2 s)
      then I2D.get I2D.vowels (firstn 2 s) ++ K 2
      else if known I2D.consonants [char]
      then I2D.get I2D.consonants [char]
           ++ fst (I2D.afterConsonant s 1) ++ K (snd (I2D.afterConsonant s 1))
      else if known I2D.vowels [char]
      then I2D.get I2D.vowels [char] ++ K 1
      else if known I2D.special [char]
      then I2D.get I2D.special [char] ++ K 1
      else [char] ++ K 1
  end.

(** The code units that occur in the keys of a table. *)
Definition keyUnits (tbl : table) : list Z := concat (map fst tbl).

Definition memZ (c : Z) (l : list Z) : bool := existsb (Z.eqb c) l.

(** A code unit that [devanagariToIAST] recognizes: a unit of a key of one
    of its four tables, or the virama. *)
Definition recognizedD2I (c : Z) : bool :=
  memZ c (keyUnits D2I.vowels ++ keyUnits D2I.vowelSigns
          ++ keyUnits D2I.consonants ++ keyUnits D2I.special ++ [Ch.virama]).

(** A code unit that [iastToDevanagari] recognizes: a unit of a key of one
    of its four tables. *)
Definition recognizedI2D (c : Z) : bool :=
  memZ c (keyUnits I2D.vowels ++ keyUnits I2D.vowelSigns
          ++ keyUnits I2D.consonants ++ keyUnits I2D.special).

(** The variant encodings that [preProcessRawText] rewrites unit by unit. *)
Definition variantUnits : list Z :=
  [0x951; 0x952; 0x332; 0x320; 0x321; 0x1CDA; 0x341;
   Ch.anusvara_below; Ch.omacron; Ch.emacron]%Z.

(** The four parenthesized nasalization idioms that it collapses, in the
    order of the source. *)
Definition idioms : list str :=
  [[Ch.lparen; Ch.g; Ch.rparen; Ch.m];
   [Ch.lparen; Ch.g; Ch.rparen; Ch.anusvara];
   [Ch.lparen; Ch.g; Ch.anudatta; Ch.rparen; Ch.anusvara];
   [Ch.lparen; Ch.g; Ch.anudatta; Ch.rparen; Ch.m]].

(** [pat] occurs somewhere in [text]. *)
Fixpoint occursb (pat text : str) : bool :=
  match text with
  | [] => false
  | _ :: rest => starts_with pat text || occursb pat rest
  end.

Definition hasIdiom (text : str) : bool :=
  existsb (fun pat => occursb pat text) idioms.

(** An index of a text after a code unit has been inserted at index [n]:
    indices from [n] on move by one. *)
Definition shiftAfter (n p : nat) : nat := if p <? n then p else p + 1.

(** Cutting a text between [a] and [b] splits a two-unit consonant. *)
Definition splitsUnit (a b : str) : bool :=
  match b with
  | y :: _ => has TWO_CHAR_CONSONANTS [last a 0%Z; y]
  | [] => false
  end.

(** Two holdings with the same kind and length, on the same site up to
    the shift of the indices. *)
Definition sameSite (n : nat) (h1 h2 : holding) : Prop :=
  type h2 = type h1 /\ length h2 = length h1
  /\ position h2 = shiftAfter n (position h1).

Definition sameOutcome (n : nat) (o1 o2 : option holding) : Prop :=
  match o1, o2 with
  | None, None => True
  | Some h1, Some h2 => sameSite n h1 h2
  | _, _ => False
  end.

(** The consonant glyphs that [iastToDevanagari] writes. *)
Definition consonantGlyphs : list Z := concat (map snd I2D.consonants).

(** The Latin spelling that [devanagariToIAST] gives a consonant glyph. *)
Definition latin (C : Z) : str := D2I.get D2I.consonants [C].

(** The spellings of two consonants, written side by side, read as one
    aspirated consonant of [iastToDevanagari] (as k followed by h). *)
Definition spellsAspirate (C1 C2 : Z) : bool :=
  known I2D.consonants (latin C1 ++ latin C2).

(** What [devanagariToIAST] gives back for the first code unit of a Latin
    text converted by [iastToDevanagari]: the anusvara with a dot below comes
    back with the dot above, and an ASCII digit comes back as the Devanagari
    digit, which [devanagariToIAST] leaves alone. *)
Definition canon (x : Z) : Z :=
  if (x =? Ch.anusvara_below)%Z then Ch.anusvara
  else if ((0x30 <=? x) && (x <=? 0x39))%Z then (x - 0x30 + 0x966)%Z
  else x.

(** The text ends in a consonant glyph that carries its inherent vowel:
    no vowel sign and no virama follows it. *)
Definition endsBare (u : str) : bool := known D2I.consonants [last u 0%Z].

(** The independent vowel o directly followed by the anusvara sign. *)
Definition hasOAnusvara (u : str) : bool := occursb [0x913; 0x902]%Z u.

(** [iastToDevanagari] writes a virama after a consonant that is followed by
    the text [Y]. *)
Definition needsVirama (Y : str) : bool :=
  match Y with
  | [] => true
  | y0 :: _ => I2D.isConsonantAhead Y 0 || I2D.isWordBoundary (Some y0)
  end.

(** A Latin text: none of its code units is one that [devanagariToIAST]
    recognizes. *)
Definition latinText (t : str) : Prop :=
  Forall (fun c => recognizedD2I c = false) t.

(** [Token t out r]: [iastToDevanagari] reads the first token of the Latin
    text [t], writes [out] for it and goes on with the rest [r].  One
    constructor for each way through the body of its loop. *)
Inductive Token : str -> str -> str -> Prop :=
| TkOm r : Token (Ch.o :: Ch.anusvara :: r) [Ch.om] r
| TkAspA x y r :
    known I2D.consonants [x; y] = true ->
    Token (x :: y :: Ch.a :: r) (I2D.get I2D.consonants [x; y]) r
| TkCons2Sign x y v r :
    known I2D.consonants [x; y] = true -> known I2D.vowelSigns [v] = true ->
    Token (x :: y :: v :: r)
      (I2D.get I2D.consonants [x; y] ++ I2D.get I2D.vowelSigns [v]) r
| TkCons2 x y r :
    known I2D.consonants [x; y] = true ->
    match r with
    | [] => True
    | r0 :: _ => (r0 =? Ch.a)%Z = false /\ known I2D.vowelSigns [r0] = false
    end ->
    Token (x :: y :: r)
      (I2D.get I2D.consonants [x; y]
       ++ (if needsVirama r then [Ch.virama] else [])) r
| TkCons1Sign2 c w r :
    known I2D.consonants [c] = true ->
    known I2D.vowelSigns [Ch.a; w] = true ->
    Token (c :: Ch.a :: w :: r)
      (I2D.get I2D.consonants [c] ++ I2D.get I2D.vowelSigns [Ch.a; w]) r
| TkCons1Sign c v r :
    known I2D.consonants [c] = true -> known I2D.vowelSigns [v] = true ->
    Token (c :: v :: r)
      (I2D.get I2D.consonants [c] ++ I2D.get I2D.vowelSigns [v]) r
| TkCons1A c r :
    known I2D.consonants [c] = true ->
    match r with
    | [] => True
    | r0 :: _ => (r0 =? Ch.i)%Z = false /\ (r0 =? Ch.u)%Z = false
    end ->
    Token (c :: Ch.a :: r) (I2D.get I2D.consonants [c]) r
| TkCons1 c r :
    known I2D.consonants [c] = true ->
    match r with
    | [] => True
    | r0 :: _ => (r0 =? Ch.a)%Z = false /\ known I2D.vowelSigns [r0] = false
                 /\ known I2D.consonants [c; r0] = false
    end ->
    Token (c :: r)
      (I2D.get I2D.consonants [c]
       ++ (if needsVirama r then [Ch.virama] else [])) r
| TkVowel2 w r :
    known I2D.vowelSigns [Ch.a; w] = true ->
    Token (Ch.a :: w :: r) (I2D.get I2D.vowels [Ch.a; w]) r
| TkVowel1 v r :
    known I2D.vowels [v] = true ->
    match r with
    | [] => True
    | r0 :: _ => known I2D.vowels [v; r0] = false
    end ->
    Token (v :: r) (I2D.get I2D.vowels [v]) r
| TkSpecial x r :
    known I2D.special [x] = true -> known I2D.vowels [x] = false ->
    Token (x :: r) (I2D.get I2D.special [x]) r
| TkOther x r :
    recognizedI2D x = false -> Token (x :: r) [x] r.

(** [Y] starts the way [devanagariToIAST] gives back the start of [r]. *)
Definition sameHead (r Y : str) : Prop :=
  match r, Y with
  | [], [] => True
  | r0 :: _, y0 :: _ => y0 = canon r0
  | _, _ => False
  end.

(** ** Example texts *)

Module Ex.
Local Open Scope Z_scope.

Definition akta : str := [Ch.a; Ch.k; Ch.t; Ch.a].
Definition ak_mark_ta : str := [Ch.a; Ch.k; Ch.anudatta; Ch.t; Ch.a].
Definition anka : str := [Ch.a; Ch.n; Ch.k; Ch.a].
Definition an_pipe_ka : str := [Ch.a; Ch.n; Ch.pipe; Ch.k; Ch.a].
(** "atk ka": the first word ends in the cluster t-k, the second starts
    with k. *)
Definition atk_ka : str := [Ch.a; Ch.t; Ch.k; Ch.space; Ch.k; Ch.a].
Definition rama_iti : str :=
  [Ch.r; Ch.aa; Ch.m; Ch.a; Ch.space; Ch.i; Ch.t; Ch.i].
Definition ramaa_iti : str :=
  [Ch.r; Ch.aa; Ch.m; Ch.aa; Ch.space; Ch.i; Ch.t; Ch.i].
Definition nara_iti : str :=
  [Ch.n; Ch.a; Ch.r; Ch.a; Ch.space; Ch.i; Ch.t; Ch.i].
Definition a_tab_i : str := [Ch.a; 0x09; Ch.i].
Definition a_space_mark_i : str := [Ch.a; Ch.space; Ch.anudatta; Ch.i].
(** "(g)(g)" followed by the anusvara: a nasalization idiom behind the
    opening of another one. *)
Definition g_g_anusvara : str :=
  [Ch.lparen; Ch.g; Ch.rparen; Ch.lparen; Ch.g; Ch.rparen; Ch.anusvara].
Definition ka : str := [Ch.k; Ch.a].
(** The conjunct k-t: ka, virama, ta. *)
Definition kta_conjunct : str := [0x915; Ch.virama; 0x924].

End Ex.


(** ** Vocabulary of the further properties *)

From Stdlib Require Import Sorted.

(** No code unit of [text] from index [lo] up to index [hi] stops the
    backward scan of [findPreviousVowel]: none is whitespace (when the scan
    blocks at whitespace), an anusvara, a visarga or the start of a vowel. *)
Definition passedOver (text : str) (blockAtSpace : bool) (lo hi : nat) : Prop :=
  forall j y, lo <= j < hi -> nth_error text j = Some y ->
    is_space y && blockAtSpace = false
    /\ y <> Ch.anusvara /\ y <> Ch.anusvara_below /\ y <> Ch.visarga
    /\ isVowel text j = None.

(** The inherent vowel that [devanagariToIAST] writes between a text [s]
    that ends in a consonant glyph and the text [t] that follows it: an a,
    unless [t] is empty or starts with a vowel sign or the virama. *)
Definition inherentBetween (s t : str) : str :=
  if endsBare s then
    match t with
    | [] => []
    | n :: _ =>
        if known D2I.vowelSigns [n] || (n =? Ch.virama)%Z then [] else [Ch.a]
    end
  else [].

(** A text in which nothing is left for [iastToDevanagari] to convert:
    none of its code units is one that the function recognizes. *)
Definition convertedText (t : str) : Prop :=
  Forall (fun c => recognizedI2D c = false) t.

(** ** The automatic commands of [src/editor-quill.js] *)

Module Editor.

(** The Quill document, as far as the two commands read and write it: its
    text, a sequence of code units.  [getText], [deleteText] and
    [insertText] are Quill's methods of those names on that text; the
    formats that the calls carry are left out of the text. *)
Definition getText (doc : str) (index len : nat) : str :=
  firstn len (skipn index doc).

Definition deleteText (doc : str) (index len : nat) : str :=
  firstn index doc ++ skipn (index + len) doc.

Definition insertText (doc : str) (index : nat) (text : str) : str :=
  firstn index doc ++ text ++ skipn index doc.

(** [array.sort((a, b) => b.position - a.position)]: a stable sort into
    descending order of the key [position]. *)
Section Sort.

Context {A : Type} (key : A -> nat).

Fixpoint insertDesc (x : A) (l : list A) : list A :=
  match l with
  | [] => [x]
  | y :: l' => if key x <? key y then y :: insertDesc x l' else x :: y :: l'
  end.

Definition sortDesc (l : list A) : list A := fold_right insertDesc [] l.

End Sort.

(** "Step 1" of both commands: the selected text is read and normalized,
    and written back when the normalizer changed it. *)
Definition standardize (doc : str) (startIndex textLength : nat) : str * str :=
  let text := getText doc startIndex textLength in
  let processedText := preProcessRawText text in
  if negb (str_eqb text processedText)
  then (insertText (deleteText doc startIndex textLength) startIndex
          processedText,
        processedText)
  else (doc, text).

(** [applyAutomaticPauses], with the selection [range] as its input; the
    result is the text of the document afterwards. *)
Definition applyAutomaticPauses (doc : str) (range : option (nat * nat)) : str :=
  match range with
  | None => doc
  | Some (startIndex, textLength) =>
      if (textLength =? 0)%nat then doc
      else
        let (doc, text) := standardize doc startIndex textLength in
        let pauses := sortDesc p_position (findAllPauses text) in
        fold_left
          (fun doc pause =>
             let actualPosition := startIndex + p_position pause in
             insertText doc actualPosition [Ch.pipe; Ch.space])
          pauses doc
  end.

(** One call [formatText(index, length, 'holding', value)]. *)
Record formatCall := FormatCall {
  f_index : nat;
  f_length : nat;
  f_value : kind
}.

(** [applyAutomaticHoldings]: the text of the document afterwards, and the
    calls of [formatText] in the order in which they are made. *)
Definition applyAutomaticHoldings (doc : str) (selection : option (nat * nat))
  : str * list formatCall :=
  match selection with
  | None => (doc, [])
  | Some (startIndex, textLength) =>
      if (textLength =? 0)%nat then (doc, [])
      else
        let (doc, text) := standardize doc startIndex textLength in
        let holdings := sortDesc position (findAllHoldings text) in
        (doc,
         map (fun holding =>
                FormatCall (startIndex + position holding) (length holding)
                  (type holding))
             holdings)
  end.

End Editor.

(** The text cut at the indices [cuts], read from index [from] on, with the
    pause glyph and a space put in at each cut. *)
Fixpoint withMarks (text : str) (from : nat) (cuts : list nat) : str :=
  match cuts with
  | [] => skipn from text
  | p :: cuts' =>
      substring text from p ++ [Ch.pipe; Ch.space] ++ withMarks text p cuts'
  end.

(** The text is empty or ends in a code unit that [iastToDevanagari] takes
    for a word boundary (whitespace or punctuation). *)
Definition endsAtBoundary (s : str) : Prop :=
  match s with
  | [] => True
  | _ :: _ => I2D.isWordBoundary (Some (last s 0%Z)) = true
  end.

(** ** The transliteration commands of [src/editor-quill.js] *)

Module Delta.

Section Ops.

(** The formatting attributes of an op and the embeds are kept as they are;
    their types do not matter here. *)
Context {attributes embed : Type}.

(** One op of the Delta of the selection: an insert of a string with its
    attributes, or an insert of something else (an embed). *)
Inductive op :=
| InsertString (insert : str) (attrs : attributes)
| InsertEmbed (insert : embed) (attrs : attributes).

(** The loop [delta.ops.forEach] of [transliterateDevanagariToIAST] and
    [transliterateIASTToDevanagari], with the converter [convert]. *)
Definition transliterateOps (convert : str -> str) (ops : list op) : list op :=
  map (fun o =>
         match o with
         | InsertString insert attrs => InsertString (convert insert) attrs
         | InsertEmbed _ _ => o
         end) ops.

(** The text of a list of ops: its strings, one after the other. *)
Definition textOf (ops : list op) : str :=
  flat_map (fun o =>
              match o with
              | InsertString insert _ => insert
              | InsertEmbed _ _ => []
              end) ops.

(** No string of the ops ends in a consonant glyph that carries its
    inherent vowel. *)
Definition noRunEndsBare (ops : list op) : Prop :=
  Forall (fun o =>
            match o with
            | InsertString insert _ => endsBare insert = false
            | InsertEmbed _ _ => True
            end) ops.

(** Every string of the ops is empty or ends in a word boundary. *)
Definition runsEndAtBoundary (ops : list op) : Prop :=
  Forall (fun o =>
            match o with
            | InsertString insert _ => endsAtBoundary insert
            | InsertEmbed _ _ => True
            end) ops.

End Ops.

End Delta.
(** * Properties *)

(** ** Strings and tables *)

Lemma str_eqb_eq a b : str_eqb a b = true <-> a = b.
Proof.
  revert b. induction a as [|x a IH]; intros [|y b]; cbn; split; try congruence.
  - intros H. apply andb_true_iff in H. destruct H as [Hx Hr].
    apply Z.eqb_eq in Hx. apply IH in Hr. congruence.
  - intros [= -> ->]. rewrite Z.eqb_refl. cbn. now apply IH.
Qed.

Lemma str_eqb_refl a : str_eqb a a = true.
Proof. now apply str_eqb_eq. Qed.

Lemma lookup_In tbl key v : lookup tbl key = Some v -> In (key, v) tbl.
Proof.
  induction tbl as [|[k w] tbl IH]; cbn; [discriminate|].
  destruct (str_eqb key k) eqn:E.
  - intros [= <-]. apply str_eqb_eq in E. subst. now left.
  - intros H. right. now apply IH.
Qed.

Lemma known_In tbl key :
  known tbl key = true -> exists v, In (key, v) tbl /\ lookup tbl key = Some v.
Proof.
  unfold known. destruct (lookup tbl key) as [v|] eqn:E; [|discriminate].
  intros _. exists v. split; [now apply lookup_In|reflexivity].
Qed.

Lemma has_In set s : has set s = true <-> In s set.
Proof.
  unfold has. rewrite existsb_exists. split.
  - intros (x & Hin & E). apply str_eqb_eq in E. now subst.
  - intros Hin. exists s. split; [assumption|apply str_eqb_refl].
Qed.


Lemma memZ_In c l : memZ c l = true <-> In c l.
Proof.
  unfold memZ. rewrite existsb_exists. split.
  - intros (x & Hin & E). apply Z.eqb_eq in E. now subst.
  - intros Hin. exists c. split; [assumption|apply Z.eqb_refl].
Qed.

(** ** Indices into the rest of a text *)

Lemma ltb_skipn (text : str) i k :
  (i + k <? List.length text) = (k <? List.length (skipn i text)).
Proof.
  rewrite length_skipn.
  destruct (Nat.ltb_spec (i + k) (List.length text));
    destruct (Nat.ltb_spec k (List.length text - i)); auto; lia.
Qed.

Lemma leb_skipn (text : str) i k :
  (List.length text <=? i + k) = (List.length (skipn i text) <=? k).
Proof.
  rewrite length_skipn.
  destruct (Nat.leb_spec (List.length text) (i + k));
    destruct (Nat.leb_spec (List.length text - i) k); auto; lia.
Qed.

Lemma leb_skipn' (text : str) i k :
  i <= List.length text ->
  (i + k <=? List.length text) = (k <=? List.length (skipn i text)).
Proof.
  intros Hi. rewrite length_skipn.
  destruct (Nat.leb_spec (i + k) (List.length text));
    destruct (Nat.leb_spec k (List.length text - i)); auto; lia.
Qed.

Lemma substring_skipn (text : str) i j k :
  substring text (i + j) (i + j + k) = substring (skipn i text) j (j + k).
Proof.
  unfold substring. rewrite skipn_skipn.
  replace (i + j + k - (i + j)) with k by lia.
  replace (j + k - j) with k by lia.
  now rewrite (Nat.add_comm j i).
Qed.

Lemma skipn_app_length (p s : str) : skipn (List.length p) (p ++ s) = s.
Proof.
  rewrite skipn_app, skipn_all, Nat.sub_diag. reflexivity.
Qed.

Lemma nth_error_app_length (p s : str) k :
  nth_error (p ++ s) (List.length p + k) = nth_error s k.
Proof.
  rewrite nth_error_app2 by lia. f_equal. lia.
Qed.


(** ** The classifier *)

Lemma isConsonant_bounds text pos c :
  isConsonant text pos = Some c ->
  1 <= List.length c <= 2 /\ pos + List.length c <= List.length text.
Proof.
  unfold isConsonant, substring.
  destruct (Nat.leb_spec (List.length text) pos) as [|Hlt]; [discriminate|].
  destruct (Nat.ltb_spec (pos + 1) (List.length text)) as [H2|H2]; cbn [andb].
  - destruct (has TWO_CHAR_CONSONANTS _).
    + intros [= <-]. rewrite length_firstn, length_skipn. lia.
    + destruct (nth_error text pos); [|discriminate].
      destruct (has ALL_CONSONANTS _); [|discriminate].
      intros [= <-]. cbn. lia.
  - destruct (nth_error text pos); [|discriminate].
    destruct (has ALL_CONSONANTS _); [|discriminate].
    intros [= <-]. cbn. lia.
Qed.

(** ** Termination of the loops: the fuel given by the callers is enough *)

Lemma scanToEnd_ge fuel text i : i <= scanToEnd fuel text i.
Proof.
  revert i. induction fuel as [|fuel IH]; intros i; cbn [scanToEnd]; [lia|].
  destruct (nth_error text i); [|lia].
  destruct (isSvaraMark z).
  - specialize (IH (i + 1)). lia.
  - destruct (isConsonant text i); [|lia].
    specialize (IH (i + List.length s)). lia.
Qed.

Lemma skipSkipConsonants_ge fuel text hp :
  hp <= skipSkipConsonants fuel text hp.
Proof.
  revert hp. induction fuel as [|fuel IH]; intros hp; cbn [skipSkipConsonants]; [lia|].
  destruct (isConsonant text hp); [|lia].
  destruct (has SKIP_CONSONANTS s); [|lia].
  destruct (_ <=? _); [lia|].
  specialize (IH (hp + List.length s)). lia.
Qed.

Lemma traverse_endPos fuel text ty hp i passed last h :
  traverse fuel text ty hp i passed last = Some h ->
  exists e, endPos h = Some e /\ i < e.
Proof.
  revert i passed last.
  induction fuel as [|fuel IH]; intros i passed last; cbn [traverse]; [discriminate|].
  destruct (nth_error text i) as [c|]; [|discriminate].
  destruct (is_space c || (c =? Ch.newline)%Z).
  { intros H. apply IH in H. destruct H as (e & ? & ?). exists e. split; [assumption|lia]. }
  destruct (c =? Ch.pipe)%Z.
  { intros H. apply IH in H. destruct H as (e & ? & ?). exists e. split; [assumption|lia]. }
  destruct (isSvaraMark c).
  { intros H. apply IH in H. destruct H as (e & ? & ?). exists e. split; [assumption|lia]. }
  destruct (isConsonant text i) as [cns|] eqn:Hc; [|discriminate].
  apply isConsonant_bounds in Hc.
  pose proof (scanToEnd_ge (List.length text) text (i + List.length cns)).
  destruct passed.
  - destruct last as [[lc lp]|]; [destruct (str_eqb cns lc)|];
      intros [= <-]; cbn; eexists; (split; [reflexivity|lia]).
  - intros H'. apply IH in H'. destruct H' as (e & ? & ?). exists e. split; [assumption|lia].
Qed.

Lemma findHoldingPosition_progress text i :
  isConsonant text i <> None ->
  0 < position (findHoldingPosition text i) ->
  i < resumeAt (findHoldingPosition text i).
Proof.
  unfold findHoldingPosition, resumeAt.
  destruct (isConsonant text i) as [c|] eqn:Hc; [|congruence].
  intros _. destruct (isConsonant_bounds _ _ _ Hc) as [Hlen _].
  destruct (_ <=? 1); cbn; [lia|].
  destruct (str_eqb _ []).
  { destruct (blocked _); cbn; lia. }
  destruct (traverse _ _ _ _ _ _ _) as [h|] eqn:Ht.
  - intros _. destruct (traverse_endPos _ _ _ _ _ _ _ _ Ht) as (e & -> & ?). lia.
  - pose proof (skipSkipConsonants_ge (List.length text - i) text i) as Hge.
    destruct (isConsonant text (skipSkipConsonants _ _ _)) as [c2|] eqn:Hc2; cbn; [|lia].
    apply isConsonant_bounds in Hc2. lia.
Qed.

Lemma findAllHoldings_loop_fuel text fuel1 fuel2 i :
  List.length text - i <= fuel1 -> List.length text - i <= fuel2 ->
  findAllHoldings_loop fuel1 text i = findAllHoldings_loop fuel2 text i.
Proof.
  revert fuel2 i.
  induction fuel1 as [|fuel1 IH]; intros fuel2 i H1 H2.
  - assert (Hn : nth_error text i = None) by (apply nth_error_None; lia).
    destruct fuel2; cbn [findAllHoldings_loop]; [reflexivity|]. now rewrite Hn.
  - destruct fuel2 as [|fuel2].
    + assert (Hn : nth_error text i = None) by (apply nth_error_None; lia).
      cbn [findAllHoldings_loop]. now rewrite Hn.
    + cbn [findAllHoldings_loop]. destruct (nth_error text i) as [c|] eqn:Hn; [|reflexivity].
      assert (i < List.length text) by (apply nth_error_Some; congruence).
      destruct (c =? Ch.pipe)%Z; [apply IH; lia|].
      destruct (isConsonant text i) as [cns|] eqn:Hc.
      * destruct (Nat.ltb_spec 0 (position (findHoldingPosition text i))) as [Hp|Hp];
          cbn [andb].
        -- destruct (0 <? length _).
           ++ f_equal.
              assert (Hr : i < resumeAt (findHoldingPosition text i))
                by (apply findHoldingPosition_progress; congruence).
              apply IH; lia.
           ++ apply isConsonant_bounds in Hc. apply IH; lia.
        -- apply isConsonant_bounds in Hc. apply IH; lia.
      * destruct (isSvaraMark c); apply IH; lia.
Qed.

(** ** Holding locator *)

Lemma findHoldingPosition_threshold text pos :
  findSamyuktaLength text pos false <= 1 ->
  findHoldingPosition text pos = noHolding.
Proof.
  intros H. unfold findHoldingPosition.
  destruct (isConsonant text pos); [|reflexivity].
  destruct (Nat.leb_spec (findSamyuktaLength text pos false) 1); [reflexivity|lia].
Qed.

Lemma findAllHoldings_loop_origin fuel text i h :
  In h (findAllHoldings_loop fuel text i) ->
  exists j, i <= j < List.length text /\ isConsonant text j <> None
            /\ findHoldingPosition text j = h
            /\ 0 < position h /\ 0 < length h.
Proof.
  revert i. induction fuel as [|fuel IH]; intros i; cbn [findAllHoldings_loop]; [cbn; tauto|].
  destruct (nth_error text i) as [c|] eqn:Hn; [|cbn; tauto].
  assert (Hi : i < List.length text) by (apply nth_error_Some; congruence).
  assert (Hstep : forall k, i < k -> In h (findAllHoldings_loop fuel text k) ->
            exists j, i <= j < List.length text /\ isConsonant text j <> None
              /\ findHoldingPosition text j = h
              /\ 0 < position h /\ 0 < length h).
  { intros k Hk Hin. destruct (IH _ Hin) as (j & ? & ?). exists j. split; [lia|assumption]. }
  destruct (c =? Ch.pipe)%Z; [apply Hstep; lia|].
  destruct (isConsonant text i) as [cns|] eqn:Hc.
  - destruct (Nat.ltb_spec 0 (position (findHoldingPosition text i))) as [Hp|Hp];
      cbn [andb].
    + destruct (Nat.ltb_spec 0 (length (findHoldingPosition text i))) as [Hl|Hl].
      * intros [<-|Hin].
        -- exists i. repeat split; try lia; congruence.
        -- assert (Hr : i < resumeAt (findHoldingPosition text i))
             by (apply findHoldingPosition_progress; congruence).
           apply (Hstep _ Hr Hin).
      * apply isConsonant_bounds in Hc. apply Hstep; lia.
    + apply isConsonant_bounds in Hc. apply Hstep; lia.
  - destruct (isSvaraMark c); apply Hstep; lia.
Qed.

(** C7.  Cluster threshold.  A scan position whose cluster counts at most one
    consonant unit yields no holding, and every span that [findAllHoldings]
    returns was computed at a consonant whose cluster counts at least two
    consonant units. *)
Theorem cluster_threshold text :
  (forall pos, findSamyuktaLength text pos false <= 1 ->
               findHoldingPosition text pos = noHolding)
  /\ (forall h, In h (findAllHoldings text) ->
        exists i, i < List.length text
                  /\ isConsonant text i <> None
                  /\ findHoldingPosition text i = h
                  /\ 2 <= findSamyuktaLength text i false).
Proof.
  split; [intros pos; apply findHoldingPosition_threshold|].
  intros h Hin. unfold findAllHoldings in Hin.
  destruct (findAllHoldings_loop_origin _ _ _ _ Hin) as (j & Hj & Hc & Hh & Hp & _).
  exists j. repeat split; try lia; try assumption.
  destruct (Nat.le_gt_cases (findSamyuktaLength text j false) 1) as [Hle|Hgt]; [|lia].
  rewrite (findHoldingPosition_threshold _ _ Hle) in Hh. subst h. cbn in Hp. lia.
Qed.

Lemma cluster_threshold_witness :
  In (Holding 1 1 Short None) (findAllHoldings Ex.akta)
  /\ exists i, i < List.length Ex.akta
               /\ isConsonant Ex.akta i <> None
               /\ findHoldingPosition Ex.akta i = Holding 1 1 Short None
               /\ 2 <= findSamyuktaLength Ex.akta i false.
Proof.
  split.
  - vm_compute. left. reflexivity.
  - apply (proj2 (cluster_threshold Ex.akta)). vm_compute. left. reflexivity.
Defined.

Lemma findPreviousVowel_start text :
  findPreviousVowel text 0 true = PrevVowel [] false (-1).
Proof. reflexivity. Qed.

Lemma findHoldingPosition_start text :
  findHoldingPosition text 0 = noHolding.
Proof.
  unfold findHoldingPosition.
  destruct (isConsonant text 0); [|reflexivity].
  destruct (_ <=? 1); [reflexivity|].
  rewrite findPreviousVowel_start. reflexivity.
Qed.

(** C10.  Every span returned by [findAllHoldings] has [position >= 1] and
    [length >= 1]; and the scan position 0 never yields a span, because
    [findPreviousVowel] at the start of the text reports neither a vowel nor
    a word boundary. *)
Theorem holdings_never_at_start text :
  (forall h, In h (findAllHoldings text) -> 1 <= position h /\ 1 <= length h)
  /\ findHoldingPosition text 0 = noHolding.
Proof.
  split; [|apply findHoldingPosition_start].
  intros h Hin. unfold findAllHoldings in Hin.
  destruct (findAllHoldings_loop_origin _ _ _ _ Hin) as (j & _ & _ & _ & Hp & Hl).
  lia.
Qed.

Lemma holdings_never_at_start_witness :
  In (Holding 2 1 Short None) (findAllHoldings Ex.anka)
  /\ 1 <= position (Holding 2 1 Short None)
  /\ 1 <= length (Holding 2 1 Short None).
Proof.
  split.
  - vm_compute. left. reflexivity.
  - apply (proj1 (holdings_never_at_start Ex.anka)). vm_compute. left. reflexivity.
Defined.

(** C3.  Dvirvacana placement, on "atk ka".  The consonant after the space
    (k, index 4) is the last consonant before the space (k, index 2), so the
    span belongs on index 2; the code compares with the consonant at
    [holdingPosition], the first one of the cluster (t, index 1), finds them
    different and places the span on index 4. *)
Theorem dvirvacana_compares_first_consonant :
  isConsonant Ex.atk_ka 1 = Some [Ch.t]
  /\ isConsonant Ex.atk_ka 2 = Some [Ch.k]
  /\ nth_error Ex.atk_ka 3 = Some Ch.space
  /\ isConsonant Ex.atk_ka 4 = Some [Ch.k]
  /\ findHoldingPosition Ex.atk_ka 1 = Holding 4 1 Short (Some 5)
  /\ findAllHoldings Ex.atk_ka = [Holding 4 1 Short (Some 5)].
Proof. vm_compute. repeat split. Qed.

(** ** Pause locator *)

(** C4, as stated, fails: the vowel before the space of "rama iti" (with a
    long first a) is the short final a, and the pause is short. *)
Lemma rama_iti_pause_not_long :
  findAllPauses Ex.rama_iti <> [Pause 5 Long].
Proof. vm_compute. discriminate. Qed.

(** C4, amended.  Both examples yield exactly one pause, of kind short, at
    index 5, right after the space; with a long final vowel, as in
    "ramaa iti", the one pause at index 5 is long. *)
Theorem sandhi_pause_examples :
  findAllPauses Ex.rama_iti = [Pause 5 Short]
  /\ findAllPauses Ex.nara_iti = [Pause 5 Short]
  /\ findAllPauses Ex.ramaa_iti = [Pause 5 Long].
Proof. vm_compute. repeat split. Qed.
(** ** [devanagariToIAST]: the loop seen from the rest of the text *)


Lemma d2i_two_unit_key x y : known D2I.consonants [x; y] = false.
Proof.
  destruct (known D2I.consonants [x; y]) eqn:E; [|reflexivity].
  apply known_In in E. destruct E as (v & Hin & _).
  cbn in Hin. repeat (destruct Hin as [Hin|Hin]; [discriminate Hin|]).
  destruct Hin.
Qed.

Lemma d2i_loop_skipn fuel text i :
  D2I.devanagariToIAST_loop fuel text i
  = D2I.devanagariToIAST_loop fuel (skipn i text) 0.
Proof.
  revert text i. induction fuel as [|fuel IH]; intros text i; [reflexivity|].
  cbn [D2I.devanagariToIAST_loop].
  rewrite !nth_error_skipn, !Nat.add_0_r.
  rewrite <- !(ltb_skipn text i).
  destruct (nth_error text i) as [c|]; [|reflexivity].
  assert (R : forall k, D2I.devanagariToIAST_loop fuel (skipn i text) k
                        = D2I.devanagariToIAST_loop fuel text (i + k)).
  { intros k. rewrite (IH (skipn i text) k), (IH text (i + k)), skipn_skipn.
    f_equal. f_equal. lia. }
  cbn [Nat.add]. rewrite !R.
  replace (i + 1 + 1) with (i + 2) by lia.
  replace (i + 2 + 1) with (i + 3) by lia.
  reflexivity.
Qed.

Lemma d2i_loop_fuel text fuel1 fuel2 i :
  List.length text - i <= fuel1 -> List.length text - i <= fuel2 ->
  D2I.devanagariToIAST_loop fuel1 text i = D2I.devanagariToIAST_loop fuel2 text i.
Proof.
  revert fuel2 i.
  induction fuel1 as [|fuel1 IH]; intros fuel2 i H1 H2.
  - assert (Hn : nth_error text i = None) by (apply nth_error_None; lia).
    destruct fuel2; cbn [D2I.devanagariToIAST_loop]; [reflexivity|]. now rewrite Hn.
  - destruct fuel2 as [|fuel2].
    + assert (Hn : nth_error text i = None) by (apply nth_error_None; lia).
      cbn [D2I.devanagariToIAST_loop]. now rewrite Hn.
    + cbn [D2I.devanagariToIAST_loop].
      destruct (nth_error text i) as [c|] eqn:Hn; [|reflexivity].
      assert (i < List.length text) by (apply nth_error_Some; congruence).
      assert (R : forall k, 0 < k -> D2I.devanagariToIAST_loop fuel1 text (i + k)
                        = D2I.devanagariToIAST_loop fuel2 text (i + k)).
      { intros k Hk. apply IH; lia. }
      replace (i + 1 + 1) with (i + 2) by lia.
      replace (i + 2 + 1) with (i + 3) by lia.
      rewrite !R by lia. reflexivity.
Qed.

Lemma d2i_at text fuel i :
  List.length text - i <= fuel ->
  D2I.devanagariToIAST_loop fuel text i = devanagariToIAST (skipn i text).
Proof.
  intros H. unfold devanagariToIAST. rewrite d2i_loop_skipn.
  apply d2i_loop_fuel; rewrite length_skipn; lia.
Qed.

(** One iteration of [devanagariToIAST], as an equation on the text. *)
Lemma d2i_unfold c rest :
  devanagariToIAST (c :: rest) =
  if (c =? Ch.om)%Z then [Ch.o; Ch.anusvara] ++ devanagariToIAST rest
  else if known D2I.vowels [c] then
    D2I.get D2I.vowels [c] ++ devanagariToIAST rest
  else if known D2I.consonants [c] then
    D2I.get D2I.consonants [c] ++
    match rest with
    | [] => []
    | n :: rest' =>
        if known D2I.vowelSigns [n] then
          D2I.get D2I.vowelSigns [n] ++ devanagariToIAST rest'
        else if (n =? Ch.virama)%Z then devanagariToIAST rest'
        else [Ch.a] ++ devanagariToIAST rest
    end
  else if known D2I.vowelSigns [c] then
    D2I.get D2I.vowelSigns [c] ++ devanagariToIAST rest
  else if negb (c =? Ch.virama)%Z && known D2I.special [c] then
    D2I.get D2I.special [c] ++ devanagariToIAST rest
  else if (c =? Ch.virama)%Z then devanagariToIAST rest
  else [c] ++ devanagariToIAST rest.
Proof.
  unfold devanagariToIAST at 1.
  cbn [List.length D2I.devanagariToIAST_loop nth_error Nat.add].
  assert (R1 : D2I.devanagariToIAST_loop (List.length rest) (c :: rest) 1
               = devanagariToIAST rest).
  { rewrite d2i_at by (cbn; lia). reflexivity. }
  assert (R2 : D2I.devanagariToIAST_loop (List.length rest) (c :: rest) 2
               = devanagariToIAST (skipn 1 rest)).
  { rewrite d2i_at by (cbn; lia). reflexivity. }
  rewrite R1, R2.
  destruct (c =? Ch.om)%Z; [reflexivity|].
  destruct rest as [|n rest'].
  - cbn [nth_error andb Nat.ltb Nat.leb List.length].
    destruct (known D2I.vowels [c]); [reflexivity|].
    destruct (known D2I.consonants [c]); reflexivity.
  - cbn [nth_error]. rewrite d2i_two_unit_key, andb_false_r.
    destruct (known D2I.vowels [c]); [reflexivity|].
    destruct (known D2I.consonants [c]); [|reflexivity].
    destruct (known D2I.vowelSigns [n]); [reflexivity|].
    destruct (n =? Ch.virama)%Z; [|reflexivity].
    destruct (_ && _); reflexivity.
Qed.

(** ** [iastToDevanagari]: the loop seen from the rest of the text *)




Lemma isConsonantAhead_skipn text i j :
  I2D.isConsonantAhead text (i + j) = I2D.isConsonantAhead (skipn i text) j.
Proof.
  unfold I2D.isConsonantAhead.
  rewrite leb_skipn, substring_skipn, nth_error_skipn. reflexivity.
Qed.

Lemma afterConsonant_skipn text i j :
  I2D.afterConsonant text (i + j)
  = (fst (I2D.afterConsonant (skipn i text) j),
     i + snd (I2D.afterConsonant (skipn i text) j)).
Proof.
  unfold I2D.afterConsonant.
  rewrite <- !Nat.add_assoc, !ltb_skipn, !Nat.add_assoc.
  rewrite substring_skipn, nth_error_skipn, isConsonantAhead_skipn.
  destruct (j <? _); [|cbn; f_equal].
  destruct (_ && _); [cbn; f_equal; lia|].
  destruct (nth_error _ _) as [c|]; [|reflexivity].
  destruct (known I2D.vowelSigns [c]); [cbn; f_equal; lia|].
  destruct (c =? Ch.a)%Z; [cbn; f_equal; lia|].
  destruct (_ || _); reflexivity.
Qed.

Lemma afterConsonant_ge text i : i <= snd (I2D.afterConsonant text i).
Proof.
  unfold I2D.afterConsonant.
  destruct (i <? _); [|cbn; lia].
  destruct (_ && _); [cbn; lia|].
  destruct (nth_error text i) as [c|]; [|cbn; lia].
  destruct (known I2D.vowelSigns [c]); [cbn; lia|].
  destruct (c =? Ch.a)%Z; [cbn; lia|].
  destruct (_ || _); cbn; lia.
Qed.

Lemma i2d_loop_skipn fuel text i :
  I2D.iastToDevanagari_loop fuel text i
  = I2D.iastToDevanagari_loop fuel (skipn i text) 0.
Proof.
  revert text i. induction fuel as [|fuel IH]; intros text i; [reflexivity|].
  cbn [I2D.iastToDevanagari_loop].
  assert (R : forall k, I2D.iastToDevanagari_loop fuel (skipn i text) k
                        = I2D.iastToDevanagari_loop fuel text (i + k)).
  { intros k. rewrite (IH (skipn i text) k), (IH text (i + k)), skipn_skipn.
    f_equal. f_equal. lia. }
  pose proof (substring_skipn text i 0 2) as S2.
  pose proof (substring_skipn text i 0 3) as S3.
  pose proof (afterConsonant_skipn text i 1) as A1.
  pose proof (afterConsonant_skipn text i 2) as A2.
  pose proof (ltb_skipn text i 1) as L1.
  pose proof (ltb_skipn text i 2) as L2.
  pose proof (leb_skipn text i 0) as L0.
  rewrite !Nat.add_0_r in *. cbn [Nat.add] in *.
  rewrite S2, S3, A1, A2, L1, L2, L0. rewrite nth_error_skipn, Nat.add_0_r.
  destruct (Nat.leb_spec (List.length (skipn i text)) 0) as [H0|H0]; [reflexivity|].
  rewrite (leb_skipn' text i 2) by (rewrite length_skipn in H0; lia).
  destruct (I2D.afterConsonant (skipn i text) 1) as [o1 k1].
  destruct (I2D.afterConsonant (skipn i text) 2) as [o2 k2].
  cbn [fst snd]. rewrite !R. reflexivity.
Qed.

Lemma i2d_loop_fuel text fuel1 fuel2 i :
  List.length text - i <= fuel1 -> List.length text - i <= fuel2 ->
  I2D.iastToDevanagari_loop fuel1 text i = I2D.iastToDevanagari_loop fuel2 text i.
Proof.
  revert fuel2 i.
  induction fuel1 as [|fuel1 IH]; intros fuel2 i H1 H2.
  - assert (Hn : (List.length text <=? i) = true) by (apply Nat.leb_le; lia).
    destruct fuel2; cbn [I2D.iastToDevanagari_loop]; [reflexivity|]. now rewrite Hn.
  - destruct fuel2 as [|fuel2].
    + assert (Hn : (List.length text <=? i) = true) by (apply Nat.leb_le; lia).
      cbn [I2D.iastToDevanagari_loop]. now rewrite Hn.
    + cbn [I2D.iastToDevanagari_loop].
      destruct (Nat.leb_spec (List.length text) i) as [|Hi]; [reflexivity|].
      assert (R : forall k, i < k -> I2D.iastToDevanagari_loop fuel1 text k
                        = I2D.iastToDevanagari_loop fuel2 text k).
      { intros k Hk. apply IH; lia. }
      pose proof (afterConsonant_ge text (i + 1)) as G1.
      pose proof (afterConsonant_ge text (i + 2)) as G2.
      destruct (I2D.afterConsonant text (i + 1)) as [o1 k1].
      destruct (I2D.afterConsonant text (i + 2)) as [o2 k2].
      cbn [snd] in G1, G2.
      rewrite !R by lia. reflexivity.
Qed.

Lemma i2d_at text fuel i :
  List.length text - i <= fuel ->
  I2D.iastToDevanagari_loop fuel text i = iastToDevanagari (skipn i text).
Proof.
  intros H. unfold iastToDevanagari. rewrite i2d_loop_skipn.
  apply i2d_loop_fuel; rewrite length_skipn; lia.
Qed.

(** One iteration of [iastToDevanagari], as an equation on the text. *)
Lemma i2d_unfold s :
  iastToDevanagari s = i2d_body s (fun k => iastToDevanagari (skipn k s)).
Proof.
  destruct s as [|char rest]; [reflexivity|].
  unfold iastToDevanagari at 1, i2d_body.
  set (s := char :: rest).
  change (List.length s) with (S (List.length rest)).
  cbn [I2D.iastToDevanagari_loop].
  change (S (List.length rest)) with (List.length s).
  assert (R : forall k, 0 < k ->
            I2D.iastToDevanagari_loop (List.length rest) s k
            = iastToDevanagari (skipn k s)).
  { intros k Hk. apply i2d_at. subst s. cbn [List.length]. lia. }
  pose proof (afterConsonant_ge s 1) as G1.
  pose proof (afterConsonant_ge s 2) as G2.
  cbn [Nat.add].
  destruct (I2D.afterConsonant s 1) as [o1 k1].
  destruct (I2D.afterConsonant s 2) as [o2 k2].
  cbn [fst snd] in *.
  rewrite !R by lia.
  replace (List.length s <=? 0) with false by (subst s; reflexivity).
  assert (F2 : substring s 0 2 = firstn 2 s) by reflexivity.
  assert (F3 : substring s 0 3 = firstn 3 s) by reflexivity.
  rewrite F2, F3.
  assert (F23 : substring (firstn 3 s) 0 2 = firstn 2 s).
  { subst s. destruct rest as [|? [|? ?]]; reflexivity. }
  rewrite F23.
  replace (nth_error s 0) with (Some char) by reflexivity.
  reflexivity.
Qed.

(** ** Unrecognized code units *)


Lemma keyUnits_In tbl key v c :
  In (key, v) tbl -> In c key -> In c (keyUnits tbl).
Proof.
  intros Hin Hc. unfold keyUnits. apply in_concat.
  exists key. split; [|assumption].
  apply in_map_iff. exists (key, v). split; [reflexivity|assumption].
Qed.

Lemma unknown_key tbl key c :
  ~ In c (keyUnits tbl) -> In c key -> known tbl key = false.
Proof.
  intros Hn Hc. destruct (known tbl key) eqn:E; [|reflexivity].
  apply known_In in E. destruct E as (v & Hin & _).
  exfalso. apply Hn. eapply keyUnits_In; eassumption.
Qed.

Lemma recognizedD2I_false c :
  recognizedD2I c = false ->
  ~ In c (keyUnits D2I.vowels) /\ ~ In c (keyUnits D2I.vowelSigns)
  /\ ~ In c (keyUnits D2I.consonants) /\ ~ In c (keyUnits D2I.special)
  /\ c <> Ch.virama.
Proof.
  intros H.
  assert (Hn : ~ In c (keyUnits D2I.vowels ++ keyUnits D2I.vowelSigns
          ++ keyUnits D2I.consonants ++ keyUnits D2I.special ++ [Ch.virama])).
  { intros Hin. apply memZ_In in Hin. unfold recognizedD2I in H. congruence. }
  rewrite !in_app_iff in Hn. cbn [In] in Hn. intuition congruence.
Qed.

Lemma d2i_copies_unrecognized c :
  recognizedD2I c = false ->
  forall post, devanagariToIAST (c :: post) = c :: devanagariToIAST post.
Proof.
  intros H post. apply recognizedD2I_false in H.
  destruct H as (Hv & Hs & Hc & Hp & Hvir).
  rewrite d2i_unfold.
  assert (Hom : (c =? Ch.om)%Z = false).
  { apply Z.eqb_neq. intros ->. apply Hv. vm_compute. tauto. }
  rewrite Hom.
  rewrite (unknown_key D2I.vowels [c] c Hv), (unknown_key D2I.consonants [c] c Hc),
    (unknown_key D2I.vowelSigns [c] c Hs), (unknown_key D2I.special [c] c Hp)
    by (now left).
  rewrite andb_false_r.
  apply Z.eqb_neq in Hvir. rewrite Hvir. reflexivity.
Qed.

Lemma d2i_passthrough_len c n :
  recognizedD2I c = false ->
  forall pre post, List.length pre <= n ->
  exists o, devanagariToIAST (pre ++ [c]) = o ++ [c]
            /\ devanagariToIAST (pre ++ c :: post) = o ++ c :: devanagariToIAST post.
Proof.
  intros H. pose proof (d2i_copies_unrecognized c H) as Hcopy.
  pose proof (recognizedD2I_false c H) as (Hv & Hs & Hc & Hp & Hvir).
  apply Z.eqb_neq in Hvir.
  induction n as [|n IH]; intros pre post Hlen.
  - destruct pre; [|cbn in Hlen; lia]. exists []. cbn [app].
    rewrite !Hcopy. split; reflexivity.
  - destruct pre as [|x pre].
    { exists []. cbn [app]. rewrite !Hcopy. split; reflexivity. }
    cbn [List.length] in Hlen.
    assert (Hk : forall out, exists o,
      out ++ devanagariToIAST (pre ++ [c]) = o ++ [c]
      /\ out ++ devanagariToIAST (pre ++ c :: post)
         = o ++ c :: devanagariToIAST post).
    { intros out. destruct (IH pre post ltac:(lia)) as (o & E1 & E2).
      exists (out ++ o). rewrite E1, E2, <- !app_assoc. split; reflexivity. }
    cbn [app]. rewrite (d2i_unfold x (pre ++ [c])), (d2i_unfold x (pre ++ c :: post)).
    destruct (x =? Ch.om)%Z; [apply Hk|].
    destruct (known D2I.vowels [x]); [apply Hk|].
    destruct (known D2I.consonants [x]).
    + destruct pre as [|y pre'].
      * cbn [app].
        rewrite (unknown_key D2I.vowelSigns [c] c Hs) by (now left).
        rewrite Hvir.
        specialize (Hk (D2I.get D2I.consonants [x] ++ [Ch.a])).
        cbn [app] in Hk. rewrite <- !app_assoc in Hk. exact Hk.
      * cbn [app].
        assert (Hk' : forall out, exists o,
          out ++ devanagariToIAST (pre' ++ [c]) = o ++ [c]
          /\ out ++ devanagariToIAST (pre' ++ c :: post)
             = o ++ c :: devanagariToIAST post).
        { intros out. cbn [List.length] in Hlen.
          destruct (IH pre' post ltac:(lia)) as (o & E1 & E2).
          exists (out ++ o). rewrite E1, E2, <- !app_assoc. split; reflexivity. }
        destruct (known D2I.vowelSigns [y]).
        { specialize (Hk' (D2I.get D2I.consonants [x] ++ D2I.get D2I.vowelSigns [y])).
          rewrite <- !app_assoc in Hk'. exact Hk'. }
        destruct (y =? Ch.virama)%Z; [apply Hk'|].
        specialize (Hk (D2I.get D2I.consonants [x] ++ [Ch.a])).
        cbn [app] in Hk. rewrite <- !app_assoc in Hk. exact Hk.
    + destruct (known D2I.vowelSigns [x]); [apply Hk|].
      destruct (_ && _); [apply Hk|].
      destruct (x =? Ch.virama)%Z; [apply (Hk [])|apply Hk].
Qed.

Lemma recognizedI2D_false c :
  recognizedI2D c = false ->
  ~ In c (keyUnits I2D.vowels) /\ ~ In c (keyUnits I2D.vowelSigns)
  /\ ~ In c (keyUnits I2D.consonants) /\ ~ In c (keyUnits I2D.special).
Proof.
  intros H.
  assert (Hn : ~ In c (keyUnits I2D.vowels ++ keyUnits I2D.vowelSigns
          ++ keyUnits I2D.consonants ++ keyUnits I2D.special)).
  { intros Hin. apply memZ_In in Hin. unfold recognizedI2D in H. congruence. }
  rewrite !in_app_iff in Hn. intuition congruence.
Qed.

Lemma aspiratedWithA_units key x :
  has I2D.aspiratedWithA key = true -> In x key ->
  In x (keyUnits I2D.consonants) \/ x = Ch.a.
Proof.
  intros H Hx. apply has_In in H. cbn in H.
  repeat (destruct H as [<-|H];
    [cbn in Hx; destruct Hx as [<-|[<-|[<-|[]]]];
     ((right; reflexivity) || (left; vm_compute; tauto))|]).
  destruct H.
Qed.

Section Unrecognized.

Variable c : Z.
Hypothesis Hc : recognizedI2D c = false.

Lemma unrec_vowels key : In c key -> known I2D.vowels key = false.
Proof. apply unknown_key, (recognizedI2D_false c Hc). Qed.

Lemma unrec_vowelSigns key : In c key -> known I2D.vowelSigns key = false.
Proof. apply unknown_key, (recognizedI2D_false c Hc). Qed.

Lemma unrec_consonants key : In c key -> known I2D.consonants key = false.
Proof. apply unknown_key, (recognizedI2D_false c Hc). Qed.

Lemma unrec_special key : In c key -> known I2D.special key = false.
Proof. apply unknown_key, (recognizedI2D_false c Hc). Qed.

Lemma unrec_not_a : (c =? Ch.a)%Z = false.
Proof.
  apply Z.eqb_neq. intros E.
  apply (proj1 (recognizedI2D_false _ Hc)). rewrite E. vm_compute. tauto.
Qed.

Lemma unrec_aspirated key : In c key -> has I2D.aspiratedWithA key = false.
Proof.
  intros Hin. destruct (has I2D.aspiratedWithA key) eqn:E; [|reflexivity].
  destruct (aspiratedWithA_units _ _ E Hin) as [H|Ha].
  - destruct (recognizedI2D_false c Hc) as (_ & _ & Hk & _). contradiction.
  - pose proof unrec_not_a as Hna. apply Z.eqb_neq in Hna. contradiction.
Qed.

Lemma unrec_om key : In c key -> str_eqb key [Ch.o; Ch.anusvara] = false.
Proof.
  intros Hin. destruct (str_eqb key _) eqn:E; [|reflexivity].
  apply str_eqb_eq in E. rewrite E in Hin. exfalso.
  apply (proj1 (recognizedI2D_false c Hc)).
  cbn in Hin. destruct Hin as [Hin|[Hin|[]]]; rewrite <- Hin; vm_compute; tauto.
Qed.

End Unrecognized.

Section PassThrough.

Local Arguments known : simpl never.
Local Arguments has : simpl never.
Local Arguments str_eqb : simpl never.
Local Arguments I2D.get : simpl never.
Local Arguments I2D.isWordBoundary : simpl never.

Ltac unrec Hc :=
  repeat match goal with
  | |- context [known I2D.vowels ?key] =>
      rewrite (unrec_vowels _ Hc key) by (cbn [In]; auto 6)
  | |- context [known I2D.vowelSigns ?key] =>
      rewrite (unrec_vowelSigns _ Hc key) by (cbn [In]; auto 6)
  | |- context [known I2D.consonants ?key] =>
      rewrite (unrec_consonants _ Hc key) by (cbn [In]; auto 6)
  | |- context [known I2D.special ?key] =>
      rewrite (unrec_special _ Hc key) by (cbn [In]; auto 6)
  | |- context [has I2D.aspiratedWithA ?key] =>
      rewrite (unrec_aspirated _ Hc key) by (cbn [In]; auto 6)
  | |- context [str_eqb ?key [Ch.o; Ch.anusvara]] =>
      rewrite (unrec_om _ Hc key) by (cbn [In]; auto 6)
  | |- _ => rewrite (unrec_not_a _ Hc)
  | |- _ => rewrite andb_false_r
  | |- _ => rewrite andb_true_r
  | |- _ => rewrite orb_false_l
  end.

Ltac split_ifs :=
  repeat match goal with
  | |- context [if ?b then _ else _] => destruct b
  end.

Ltac close_step K1 :=
  cbn [fst snd];
  match goal with
  | |- exists out k, _ /\ ?A ++ ?B ++ K1 ?k0 = _ /\ _ => exists (A ++ B), k0
  | |- exists out k, _ /\ ?A ++ K1 ?k0 = _ /\ _ => exists A, k0
  | |- exists out k, _ /\ ?x :: K1 ?k0 = _ /\ _ => exists [x], k0
  end;
  cbn [List.length]; (split; [lia|split; rewrite ?app_assoc; reflexivity]).

Lemma i2d_barrier c pre post K1 K2 :
  recognizedI2D c = false -> pre <> [] ->
  exists out k, 0 < k <= List.length pre
    /\ i2d_body (pre ++ [c]) K1 = out ++ K1 k
    /\ i2d_body (pre ++ c :: post) K2 = out ++ K2 k.
Proof.
  intros Hc Hne.
  destruct pre as [|x [|y [|z [|w pre]]]]; [congruence| | | |];
    unfold i2d_body, I2D.afterConsonant, I2D.isConsonantAhead, substring;
    cbn [app List.length firstn skipn nth_error Nat.sub Nat.add Nat.leb Nat.ltb];
    unrec Hc.
  all: split_ifs.
  all: try close_step K1.
Qed.

Lemma i2d_copies_unrecognized c :
  recognizedI2D c = false ->
  forall post, iastToDevanagari (c :: post) = c :: iastToDevanagari post.
Proof.
  intros Hc post. rewrite i2d_unfold.
  unfold i2d_body. cbn [firstn]. unrec Hc. reflexivity.
Qed.

Lemma i2d_passthrough_len c n :
  recognizedI2D c = false ->
  forall pre post, List.length pre <= n ->
  exists o, iastToDevanagari (pre ++ [c]) = o ++ [c]
            /\ iastToDevanagari (pre ++ c :: post) = o ++ c :: iastToDevanagari post.
Proof.
  intros Hc. pose proof (i2d_copies_unrecognized c Hc) as Hcopy.
  induction n as [|n IH]; intros pre post Hlen.
  - destruct pre; [|cbn in Hlen; lia]. exists []. cbn [app].
    rewrite !Hcopy. split; reflexivity.
  - destruct pre as [|x pre'] eqn:Epre.
    { exists []. cbn [app]. rewrite !Hcopy. split; reflexivity. }
    rewrite <- Epre in *.
    assert (Hne : pre <> []) by (rewrite Epre; discriminate).
    rewrite (i2d_unfold (pre ++ [c])), (i2d_unfold (pre ++ c :: post)).
    destruct (i2d_barrier c pre post
                (fun k => iastToDevanagari (skipn k (pre ++ [c])))
                (fun k => iastToDevanagari (skipn k (pre ++ c :: post)))
                Hc Hne) as (out & k & Hk & E1 & E2).
    rewrite E1, E2. cbn beta.
    rewrite !skipn_app. replace (k - List.length pre) with 0 by lia.
    cbn [skipn].
    destruct (IH (skipn k pre) post) as (o & F1 & F2).
    { rewrite length_skipn. rewrite Epre in *. cbn [List.length] in *. lia. }
    exists (out ++ o). rewrite F1, F2, <- !app_assoc. split; reflexivity.
Qed.

End PassThrough.

(** C9.  A code unit that occurs in no key of a converter's tables (and, for
    [devanagariToIAST], is not the virama) is copied to the output in place:
    whatever precedes and follows it, the output is the conversion of what
    precedes, then the unit itself, then the conversion of what follows. *)
Theorem unrecognized_passthrough c pre post :
  (recognizedD2I c = false ->
   exists o, devanagariToIAST (pre ++ [c]) = o ++ [c]
             /\ devanagariToIAST (pre ++ c :: post)
                = o ++ c :: devanagariToIAST post)
  /\ (recognizedI2D c = false ->
      exists o, iastToDevanagari (pre ++ [c]) = o ++ [c]
                /\ iastToDevanagari (pre ++ c :: post)
                   = o ++ c :: iastToDevanagari post).
Proof.
  split; intros H.
  - now apply (d2i_passthrough_len c (List.length pre)).
  - now apply (i2d_passthrough_len c (List.length pre)).
Qed.

Lemma unrecognized_passthrough_witness :
  recognizedD2I 0x78 = false /\ recognizedI2D 0x78 = false
  /\ (exists o, devanagariToIAST ([0x915] ++ [0x78]) = o ++ [0x78]
        /\ devanagariToIAST ([0x915] ++ 0x78 :: [0x915])
           = o ++ 0x78 :: devanagariToIAST [0x915])%Z
  /\ (exists o, iastToDevanagari ([Ch.k] ++ [0x78]) = o ++ [0x78]
        /\ iastToDevanagari ([Ch.k] ++ 0x78 :: [Ch.k])
           = o ++ 0x78 :: iastToDevanagari [Ch.k])%Z.
Proof.
  split; [reflexivity|]. split; [reflexivity|]. split.
  - apply (proj1 (unrecognized_passthrough 0x78 [0x915%Z] [0x915%Z])). reflexivity.
  - apply (proj2 (unrecognized_passthrough 0x78 [Ch.k] [Ch.k])). reflexivity.
Defined.

(** ** Conjuncts *)

(** C2, as stated, fails: the conjunct k-t comes back with a virama on its
    last consonant. *)
Lemma conjunct_kta_not_reproduced :
  iastToDevanagari (devanagariToIAST Ex.kta_conjunct) <> Ex.kta_conjunct.
Proof. vm_compute. discriminate. Qed.

Lemma conjunct_table :
  forallb (fun C1 => forallb (fun C2 =>
    implb (negb (spellsAspirate C1 C2))
      (str_eqb (devanagariToIAST [C1; Ch.virama; C2]) (latin C1 ++ latin C2)
       && str_eqb (iastToDevanagari (devanagariToIAST [C1; Ch.virama; C2]))
            [C1; Ch.virama; C2; Ch.virama]
       && str_eqb (iastToDevanagari
                     (devanagariToIAST [C1; Ch.virama; C2; Ch.virama]))
            [C1; Ch.virama; C2; Ch.virama]))
    consonantGlyphs) consonantGlyphs = true.
Proof. vm_compute. reflexivity. Qed.

(** C2, amended.  For two consonant glyphs of the table of
    [iastToDevanagari] whose Latin spellings, side by side, do not read as an
    aspirated consonant: the conjunct becomes the two bare Latin consonants,
    with no inherent a; converting back gives the conjunct with a virama on
    its last consonant; and the conjunct written with that final virama is
    reproduced exactly. *)
Theorem conjunct_roundtrip C1 C2 :
  In C1 consonantGlyphs -> In C2 consonantGlyphs ->
  spellsAspirate C1 C2 = false ->
  devanagariToIAST [C1; Ch.virama; C2] = latin C1 ++ latin C2
  /\ iastToDevanagari (devanagariToIAST [C1; Ch.virama; C2])
     = [C1; Ch.virama; C2; Ch.virama]
  /\ iastToDevanagari (devanagariToIAST [C1; Ch.virama; C2; Ch.virama])
     = [C1; Ch.virama; C2; Ch.virama].
Proof.
  intros H1 H2 Hs.
  pose proof conjunct_table as T.
  rewrite forallb_forall in T. specialize (T C1 H1).
  rewrite forallb_forall in T. specialize (T C2 H2).
  rewrite Hs in T. cbn [negb implb] in T.
  apply andb_true_iff in T. destruct T as [T T3].
  apply andb_true_iff in T. destruct T as [T1 T2].
  apply str_eqb_eq in T1, T2, T3. auto.
Qed.

Lemma conjunct_roundtrip_witness :
  devanagariToIAST Ex.kta_conjunct = [Ch.k; Ch.t]
  /\ iastToDevanagari (devanagariToIAST Ex.kta_conjunct)
     = Ex.kta_conjunct ++ [Ch.virama]
  /\ iastToDevanagari (devanagariToIAST (Ex.kta_conjunct ++ [Ch.virama]))
     = Ex.kta_conjunct ++ [Ch.virama].
Proof.
  apply (conjunct_roundtrip 0x915 0x924); vm_compute; tauto.
Defined.

(** ** The pause rule *)

Lemma isVowel_skipn text i k :
  isVowel text (i + k) = isVowel (skipn i text) k.
Proof.
  unfold isVowel.
  rewrite leb_skipn, <- Nat.add_assoc, ltb_skipn, substring_skipn, nth_error_skipn.
  reflexivity.
Qed.

Lemma isVowel_shape text i v :
  isVowel text i = Some v ->
  In v VOWELS
  /\ (List.length v = 1
      \/ (List.length v = 2 /\ nth_error text i = Some Ch.a
          /\ (nth_error text (i + 1) = Some Ch.i
              \/ nth_error text (i + 1) = Some Ch.u))).
Proof.
  unfold isVowel.
  destruct (_ <=? _); [discriminate|].
  destruct (_ && _) eqn:E.
  - intros [= <-]. apply andb_true_iff in E. destruct E as [El E].
    apply Nat.ltb_lt in El.
    apply has_In in E. split; [assumption|].
    unfold substring in *. replace (i + 2 - i) with 2 in * by lia.
    rewrite <- (Nat.add_0_r i) at 3. rewrite <- Nat.add_0_r at 1.
    rewrite <- !nth_error_skipn.
    pose proof (length_skipn i text) as Hl.
    destruct (skipn i text) as [|x [|y r]]; cbn [List.length] in Hl; try lia.
    cbn [firstn] in *. cbn in E.
    repeat (destruct E as [E|E]; try discriminate E); try contradiction;
      injection E as <- <-; right; cbn; auto.
  - destruct (nth_error text i) as [c|]; [|discriminate].
    destruct (has VOWELS [c]) eqn:Eh; [|discriminate].
    intros [= <-]. apply has_In in Eh. auto.
Qed.

Lemma skipSvara_skipn fuel text i k :
  skipSvara fuel text (i + k) = i + skipSvara fuel (skipn i text) k.
Proof.
  revert k. induction fuel as [|fuel IH]; intros k; cbn [skipSvara]; [reflexivity|].
  rewrite nth_error_skipn.
  destruct (nth_error text (i + k)) as [c|]; [|reflexivity].
  destruct (isSvaraMark c); [|reflexivity].
  rewrite <- Nat.add_assoc. apply IH.
Qed.

Lemma skipSvara_marks fuel m r :
  Forall (fun c => isSvaraMark c = true) m ->
  match r with [] => True | x :: _ => isSvaraMark x = false end ->
  List.length m <= fuel ->
  skipSvara fuel (m ++ r) 0 = List.length m.
Proof.
  intros Hm Hr. revert fuel.
  induction Hm as [|x m Hx Hm IH]; intros fuel Hf.
  - destruct fuel; [reflexivity|]. cbn [skipSvara app List.length].
    destruct r as [|y r]; [reflexivity|]. cbn [nth_error]. now rewrite Hr.
  - destruct fuel as [|fuel]; [cbn in Hf; lia|].
    cbn [skipSvara app nth_error List.length]. rewrite Hx.
    change (0 + 1) with (1 + 0). rewrite skipSvara_skipn. cbn [skipn].
    rewrite IH by (cbn in Hf; lia). reflexivity.
Qed.

Lemma skipSvara_app fuel a m r :
  Forall (fun c => isSvaraMark c = true) m ->
  match r with [] => True | x :: _ => isSvaraMark x = false end ->
  List.length m <= fuel ->
  skipSvara fuel (a ++ m ++ r) (List.length a) = List.length a + List.length m.
Proof.
  intros Hm Hr Hf.
  rewrite <- (Nat.add_0_r (List.length a)) at 1.
  rewrite skipSvara_skipn, skipn_app_length. f_equal.
  now apply skipSvara_marks.
Qed.

Lemma vowel_first_unit v :
  In v VOWELS ->
  exists x r, v = x :: r /\ isSvaraMark x = false
              /\ x <> Ch.anusvara /\ x <> Ch.space
              /\ (r = [] \/ (x = Ch.a /\ (r = [Ch.i] \/ r = [Ch.u]))).
Proof.
  intros H. cbn in H.
  repeat (destruct H as [<-|H];
    [eexists; eexists; split; [reflexivity|];
     repeat split; try reflexivity; try discriminate; auto|]).
  destruct H.
Qed.

(** Starting anywhere before the index [p], the scan of [findAllPauses]
    comes to [p], provided the unit at [p] is not the second half of a
    two-unit vowel nor inside the "om" pattern. *)
Lemma findAllPauses_loop_reach text p x P :
  nth_error text p = Some x ->
  x <> Ch.anusvara -> x <> Ch.space ->
  (x = Ch.i \/ x = Ch.u -> forall q, p = S q -> nth_error text q <> Some Ch.a) ->
  (forall fuel, List.length text - p <= fuel ->
                In P (findAllPauses_loop fuel text p)) ->
  forall n i fuel, p - i <= n -> i <= p -> List.length text - i <= fuel ->
  In P (findAllPauses_loop fuel text i).
Proof.
  intros Hx Hna Hns Hal Hp.
  assert (Hplen : p < List.length text) by (apply nth_error_Some; congruence).
  induction n as [|n IH]; intros i fuel Hn Hi Hf.
  - assert (i = p) by lia. subst i. now apply Hp.
  - destruct (Nat.eq_dec i p) as [->|Hne]; [now apply Hp|].
    destruct fuel as [|fuel]; [lia|].
    cbn [findAllPauses_loop].
    destruct (nth_error text i) as [c|] eqn:Hc; [|apply nth_error_None in Hc; lia].
    destruct (isSvaraMark c); [apply IH; lia|].
    destruct (_ && _) eqn:Eom.
    + right.
      apply andb_true_iff in Eom. destruct Eom as [Eom E2].
      apply andb_true_iff in Eom. destruct Eom as [_ E1].
      unfold at_is in E1, E2.
      destruct (nth_error text (i + 1)) as [c1|] eqn:H1; [|discriminate].
      destruct (nth_error text (i + 2)) as [c2|] eqn:H2; [|discriminate].
      apply Z.eqb_eq in E1, E2. subst c1 c2.
      assert (i + 1 <> p) by (intros <-; congruence).
      assert (i + 2 <> p) by (intros <-; congruence).
      apply IH; lia.
    + destruct (isVowel text i) as [v|] eqn:Hv; [|apply IH; lia].
      apply in_or_app. right.
      destruct (isVowel_shape _ _ _ Hv) as (_ & [Hl|(Hl & Ha & Hiu)]);
        rewrite Hl; [apply IH; lia|].
      assert (i + 1 <> p).
      { intros <-. rewrite Hx in Hiu.
        apply (Hal ltac:(destruct Hiu; [left|right]; congruence) i); [lia|assumption]. }
      apply IH; lia.
Qed.

(** C5, as stated, fails in two ways: a tab is a whitespace character but
    makes no pause, and the pause is put after the tone marks that follow
    the space, not right after the space. *)
Lemma pause_rule_space_and_position :
  isVowel Ex.a_tab_i 0 = Some [Ch.a] /\ is_space 0x09 = true
  /\ isVowel Ex.a_tab_i 2 = Some [Ch.i]
  /\ findAllPauses Ex.a_tab_i = []
  /\ findAllPauses Ex.a_space_mark_i = [Pause 3 Short].
Proof. vm_compute. repeat split. Qed.

(** C5, amended.  A vowel unit [v1] read by the scan, followed by tone marks
    [m1], one space U+0020, tone marks [m2] and a text that starts with a
    vowel unit [v2], yields a pause at the index of [v2], of kind long
    exactly when [v1] is long and [v2] is short.  The scan reads [v1] as a
    unit unless it is an i or u right after an a, which it reads together
    with that a as ai or au. *)
Theorem sandhi_pause_rule pre v1 m1 m2 rest v2 :
  In v1 VOWELS ->
  Forall (fun c => isSvaraMark c = true) m1 ->
  Forall (fun c => isSvaraMark c = true) m2 ->
  isVowel rest 0 = Some v2 ->
  (last pre 0%Z = Ch.a -> hd 0%Z v1 <> Ch.i /\ hd 0%Z v1 <> Ch.u) ->
  In (Pause (List.length pre + List.length v1 + List.length m1 + 1
             + List.length m2)
            (if has LONG_VOWELS v1 && has SHORT_VOWELS v2 then Long else Short))
     (findAllPauses (pre ++ v1 ++ m1 ++ [Ch.space] ++ m2 ++ rest)).
Proof.
  intros Hv1 Hm1 Hm2 Hv2 Hal.
  destruct (vowel_first_unit v1 Hv1) as (x & r & -> & Hxs & Hxa & Hxsp & Hr).
  set (text := pre ++ (x :: r) ++ m1 ++ [Ch.space] ++ m2 ++ rest).
  set (p := List.length pre).
  set (P := Pause _ _).
  assert (Hv2' : exists y rest', rest = y :: rest' /\ isSvaraMark y = false).
  { destruct rest as [|y rest']; [discriminate|]. exists y, rest'. split; [reflexivity|].
    destruct (isVowel_shape _ _ _ Hv2) as (Hin & _).
    destruct (vowel_first_unit v2 Hin) as (y' & r' & -> & Hy & _).
    unfold isVowel in Hv2. cbn [List.length Nat.leb substring Nat.sub Nat.add skipn nth_error] in Hv2.
    destruct (_ && _) in Hv2.
    - destruct rest'; cbn [firstn] in Hv2; injection Hv2 as <- _; assumption.
    - destruct (has VOWELS [y]); [|discriminate]. injection Hv2 as <- _. assumption. }
  destruct Hv2' as (y & rest' & Erest & Hy).
  assert (Hxp : nth_error text p = Some x).
  { subst text p. rewrite <- (Nat.add_0_r (List.length pre)), nth_error_app_length.
    reflexivity. }
  unfold findAllPauses.
  apply (findAllPauses_loop_reach text p x P Hxp Hxa Hxsp) with (n := p); try lia.
  - (* alignment *)
    intros Hiu q Hq Hqa.
    destruct Hal as [H1 H2].
    + subst text p. rewrite nth_error_app1 in Hqa by lia.
      destruct (@exists_last _ pre) as (pre' & z & E).
      { intros ->. cbn in Hq. lia. }
      rewrite E in *. rewrite last_last.
      rewrite length_app in Hq. cbn in Hq.
      rewrite nth_error_app2 in Hqa by lia.
      replace (q - List.length pre') with 0 in Hqa by lia.
      cbn in Hqa. congruence.
    + cbn [hd] in *. destruct Hiu; contradiction.
  - (* the visit of v1 *)
    intros fuel Hf.
    assert (Hlen : p < List.length text) by (apply nth_error_Some; congruence).
    destruct fuel as [|fuel]; [lia|].
    cbn [findAllPauses_loop]. rewrite Hxp, Hxs.
    assert (Eom : at_is text (p + 1) Ch.anusvara = false).
    { unfold at_is. subst text p. rewrite nth_error_app_length.
      destruct Hr as [->|(_ & [->| ->])]; cbn [app nth_error]; try reflexivity.
      destruct m1 as [|z m1']; [reflexivity|]. cbn [app nth_error].
      inversion Hm1; subst. apply Z.eqb_neq. intros ->. discriminate. }
    rewrite Eom, andb_false_r, andb_false_l.
    assert (Ev : isVowel text p = Some (x :: r)).
    { subst text p. rewrite <- (Nat.add_0_r (List.length pre)), isVowel_skipn.
      rewrite skipn_app_length.
      apply has_In in Hv1.
      destruct Hr as [->|(-> & [->| ->])].
      - unfold isVowel, substring.
        cbn [List.length app Nat.leb nth_error Nat.add skipn Nat.sub firstn].
        rewrite Hv1.
        replace (_ && _) with false; [reflexivity|].
        symmetry. apply andb_false_iff. right.
        destruct m1 as [|z m1']; cbn [app firstn].
        + destruct (has VOWELS [x; Ch.space]) eqn:E; [|reflexivity].
          apply has_In in E. cbn in E.
          repeat (destruct E as [E|E]; try discriminate E). destruct E.
        + inversion Hm1; subst.
          destruct (has VOWELS [x; z]) eqn:E; [|reflexivity].
          apply has_In in E. cbn in E.
          repeat (destruct E as [E|E]; try discriminate E); try contradiction;
          injection E as <- <-; discriminate.
      - reflexivity.
      - reflexivity. }
    rewrite Ev. apply in_or_app. left.
    unfold pauseAfterVowel.
    set (s1 := pre ++ x :: r).
    set (s2 := s1 ++ m1 ++ [Ch.space]).
    assert (T1 : text = s1 ++ m1 ++ (Ch.space :: m2 ++ rest)).
    { subst text s1. rewrite <- !app_assoc. reflexivity. }
    assert (T2 : text = s2 ++ m2 ++ rest).
    { subst text s2 s1. rewrite <- !app_assoc. reflexivity. }
    assert (T3 : text = (s2 ++ m2) ++ rest).
    { rewrite T2. apply app_assoc. }
    assert (I1 : p + List.length (x :: r) = List.length s1).
    { subst p s1. now rewrite length_app. }
    assert (I2 : List.length s1 + List.length m1 + 1 = List.length s2).
    { subst s2. rewrite !length_app. cbn. lia. }
    assert (I3 : List.length s2 + List.length m2 = List.length (s2 ++ m2)).
    { now rewrite length_app. }
    assert (Lt : List.length m1 <= List.length text
                 /\ List.length m2 <= List.length text).
    { rewrite T1 at 1. rewrite T2. rewrite !length_app. lia. }
    rewrite I1.
    assert (S1 : skipSvara (List.length text) text (List.length s1)
                 = List.length s1 + List.length m1).
    { rewrite T1 at 2. apply skipSvara_app; [assumption|reflexivity|lia]. }
    rewrite S1.
    assert (N1 : nth_error text (List.length s1 + List.length m1)
                 = Some Ch.space).
    { rewrite T1, nth_error_app_length.
      rewrite <- (Nat.add_0_r (List.length m1)), nth_error_app_length.
      reflexivity. }
    rewrite N1. cbn [Z.eqb Ch.space Pos.eqb]. rewrite I2.
    assert (S2 : skipSvara (List.length text) text (List.length s2)
                 = List.length s2 + List.length m2).
    { rewrite T2 at 2. apply skipSvara_app; [assumption|now rewrite Erest|lia]. }
    rewrite S2, I3.
    assert (V2 : isVowel text (List.length (s2 ++ m2)) = Some v2).
    { rewrite T3, <- (Nat.add_0_r (List.length (s2 ++ m2))), isVowel_skipn,
        skipn_app_length. assumption. }
    rewrite V2.
    assert (EP : P = Pause (List.length (s2 ++ m2))
                   (if has LONG_VOWELS (x :: r) && has SHORT_VOWELS v2
                    then Long else Short)).
    { subst P. f_equal. lia. }
    rewrite EP. destruct (_ && _); left; reflexivity.
Qed.

Lemma sandhi_pause_rule_witness :
  In [Ch.aa] VOWELS
  /\ isVowel [Ch.i; Ch.t; Ch.i] 0 = Some [Ch.i]
  /\ In (Pause 5 Long) (findAllPauses Ex.ramaa_iti).
Proof.
  split; [apply has_In; reflexivity|]. split; [reflexivity|].
  apply (sandhi_pause_rule [Ch.r; Ch.aa; Ch.m] [Ch.aa] [] []
           [Ch.i; Ch.t; Ch.i] [Ch.i]).
  - apply has_In. reflexivity.
  - constructor.
  - constructor.
  - reflexivity.
  - intros H. vm_compute in H. discriminate H.
Defined.

(** ** The normalizer *)

Lemma replaceChar_absent c r text :
  ~ In c text -> replaceChar c r text = text.
Proof.
  unfold replaceChar. induction text as [|x text IH]; intros H; [reflexivity|].
  cbn [flat_map]. destruct (Z.eqb_spec x c) as [->|Hne].
  - exfalso. apply H. now left.
  - cbn [app]. f_equal. apply IH. intros Hin. apply H. now right.
Qed.

Lemma replaceChar_units c r text x :
  In x (replaceChar c [r] text) -> x = r \/ (In x text /\ x <> c).
Proof.
  unfold replaceChar. induction text as [|y text IH]; cbn [flat_map]; [intros []|].
  rewrite in_app_iff. intros [H|H].
  - destruct (Z.eqb_spec y c) as [->|Hne]; cbn in H; destruct H as [<-|[]].
    + now left.
    + right. split; [now left|assumption].
  - destruct (IH H) as [->|[Hin Hne]]; [now left|].
    right. split; [now right|assumption].
Qed.

Lemma replaceChar_length c r text :
  List.length (replaceChar c [r] text) = List.length text.
Proof.
  unfold replaceChar. induction text as [|y text IH]; [reflexivity|].
  cbn [flat_map]. rewrite length_app, IH. destruct (y =? c)%Z; reflexivity.
Qed.

Lemma starts_with_length pat text :
  starts_with pat text = true -> List.length pat <= List.length text.
Proof.
  unfold starts_with. intros H. apply str_eqb_eq in H.
  rewrite <- H at 1. rewrite length_firstn. lia.
Qed.

Lemma In_firstn_str n (l : str) x : In x (firstn n l) -> In x l.
Proof.
  revert l. induction n as [|n IH]; intros [|z l]; cbn; try tauto.
  intros [->|H]; auto.
Qed.

Lemma In_skipn_str n (l : str) x : In x (skipn n l) -> In x l.
Proof.
  revert l. induction n as [|n IH]; intros [|z l]; cbn; try tauto.
  intros H. right. now apply IH.
Qed.

Lemma replaceAll_go_fuel pat r text fuel1 fuel2 :
  pat <> [] -> List.length text <= fuel1 -> List.length text <= fuel2 ->
  replaceAll_go fuel1 pat r text = replaceAll_go fuel2 pat r text.
Proof.
  intros Hp. revert fuel2 text.
  induction fuel1 as [|fuel1 IH]; intros fuel2 text H1 H2.
  - destruct text; [|cbn in H1; lia]. destruct fuel2; reflexivity.
  - destruct fuel2 as [|fuel2].
    + destruct text; [reflexivity|cbn in H2; lia].
    + destruct text as [|x rest]; [reflexivity|].
      cbn [replaceAll_go]. cbn [List.length] in H1, H2.
      destruct (starts_with pat (x :: rest)).
      * f_equal. apply IH; rewrite length_skipn; cbn [List.length];
          destruct pat; [congruence| |congruence|]; cbn [List.length]; lia.
      * f_equal. apply IH; lia.
Qed.

Lemma replaceAll_go_absent fuel pat r text :
  occursb pat text = false -> replaceAll_go fuel pat r text = text.
Proof.
  revert text. induction fuel as [|fuel IH]; intros text H; [reflexivity|].
  destruct text as [|x rest]; [reflexivity|].
  cbn [replaceAll_go]. cbn [occursb] in H.
  apply orb_false_iff in H. destruct H as [H1 H2].
  rewrite H1. f_equal. now apply IH.
Qed.

Lemma replaceAll_go_units fuel pat r text x :
  In x (replaceAll_go fuel pat r text) -> In x r \/ In x text.
Proof.
  revert text. induction fuel as [|fuel IH]; intros text; [now right|].
  destruct text as [|y rest]; [intros []|].
  cbn [replaceAll_go]. destruct (starts_with pat (y :: rest)).
  - rewrite in_app_iff. intros [H|H]; [now left|].
    destruct (IH _ H) as [H'|H']; [now left|].
    right. eapply In_skipn_str. eassumption.
  - intros [<-|H]; [right; now left|].
    destruct (IH _ H) as [H'|H']; [now left|]. right. now right.
Qed.

Lemma replaceAll_go_length fuel pat r text :
  List.length r <= List.length pat ->
  List.length (replaceAll_go fuel pat r text) <= List.length text.
Proof.
  intros Hr. revert text. induction fuel as [|fuel IH]; intros text; [reflexivity|].
  destruct text as [|y rest]; [reflexivity|].
  cbn [replaceAll_go]. destruct (starts_with pat (y :: rest)) eqn:E.
  - apply starts_with_length in E. rewrite length_app.
    specialize (IH (skipn (List.length pat) (y :: rest))).
    rewrite length_skipn in IH. lia.
  - cbn [List.length]. specialize (IH rest). lia.
Qed.

Lemma replaceAll_go_shorter fuel pat r text :
  List.length r < List.length pat ->
  occursb pat text = true -> List.length text <= fuel ->
  List.length (replaceAll_go fuel pat r text) < List.length text.
Proof.
  intros Hr. revert text. induction fuel as [|fuel IH]; intros text Ho Hf.
  - destruct text; [discriminate|cbn in Hf; lia].
  - destruct text as [|y rest]; [discriminate|].
    cbn [replaceAll_go]. cbn [occursb] in Ho.
    destruct (starts_with pat (y :: rest)) eqn:E.
    + apply starts_with_length in E. rewrite length_app.
      pose proof (replaceAll_go_length fuel pat r
                    (skipn (List.length pat) (y :: rest)) ltac:(lia)) as Hl.
      rewrite length_skipn in Hl. lia.
    + cbn [orb] in Ho. cbn [List.length] in *.
      specialize (IH rest Ho ltac:(lia)). lia.
Qed.

Lemma occursb_units pat text x :
  occursb pat text = true -> In x pat -> In x text.
Proof.
  induction text as [|y rest IH]; [discriminate|].
  cbn [occursb]. intros H Hx. apply orb_true_iff in H. destruct H as [H|H].
  - unfold starts_with in H. apply str_eqb_eq in H. rewrite <- H in Hx.
    eapply In_firstn_str. eassumption.
  - right. now apply IH.
Qed.

(** A unit that no step writes stays absent once it is absent: the steps
    are peeled off an occurrence, outermost first. *)
Ltac peel H close :=
  repeat first
    [ apply replaceAll_go_units in H;
      destruct H as [[H|[]]|H]; [solve [close H]|]
    | apply replaceChar_units in H;
      let Hne := fresh in
      destruct H as [H|[H Hne]];
      [solve [close H]|try (exfalso; apply Hne; reflexivity)] ].

Lemma preProcessRawText_no_variant text v :
  In v variantUnits -> ~ In v (preProcessRawText text).
Proof.
  intros Hv H. unfold preProcessRawText, replaceAll in H. cbn in Hv.
  repeat (destruct Hv as [<-|Hv];
          [peel H ltac:(fun E => cbv in E; discriminate E)|]).
  destruct Hv.
Qed.

Lemma preProcessRawText_keeps_absent text v :
  ~ In v text ->
  v <> Ch.svarita -> v <> Ch.anudatta -> v <> Ch.udatta ->
  v <> Ch.anusvara -> v <> Ch.o -> v <> Ch.e ->
  ~ In v (preProcessRawText text).
Proof.
  intros Hv H1 H2 H3 H4 H5 H6 H. unfold preProcessRawText, replaceAll in H.
  peel H ltac:(fun E => first [symmetry in E; contradiction | contradiction]).
  contradiction.
Qed.

Lemma preProcessRawText_fixed u :
  (forall v, In v variantUnits -> ~ In v u) -> hasIdiom u = false ->
  preProcessRawText u = u.
Proof.
  intros Hv Hi. unfold preProcessRawText.
  unfold hasIdiom in Hi. cbn [existsb idioms] in Hi.
  repeat (apply orb_false_iff in Hi; destruct Hi as [? Hi]).
  do 10 (rewrite (replaceChar_absent _ _ u) by (apply Hv; apply memZ_In; reflexivity)).
  unfold replaceAll.
  do 4 (rewrite (replaceAll_go_absent _ _ _ u) by assumption).
  reflexivity.
Qed.

Lemma replaceAll_length pat r u :
  List.length r <= List.length pat ->
  List.length (replaceAll pat r u) <= List.length u.
Proof. apply replaceAll_go_length. Qed.

Lemma replaceAll_cases pat r u :
  List.length r < List.length pat ->
  (occursb pat u = false /\ replaceAll pat r u = u)
  \/ (occursb pat u = true
      /\ List.length (replaceAll pat r u) < List.length u).
Proof.
  intros Hr. destruct (occursb pat u) eqn:E.
  - right. split; [reflexivity|]. now apply replaceAll_go_shorter.
  - left. split; [reflexivity|]. now apply replaceAll_go_absent.
Qed.

Lemma preProcessRawText_shrinks u :
  (forall v, In v variantUnits -> ~ In v u) -> hasIdiom u = true ->
  List.length (preProcessRawText u) < List.length u.
Proof.
  intros Hv Hi. unfold preProcessRawText.
  do 10 (rewrite (replaceChar_absent _ _ u)
           by (apply Hv; apply memZ_In; reflexivity)).
  unfold hasIdiom in Hi. cbn [existsb idioms] in Hi.
  set (p1 := [Ch.lparen; Ch.g; Ch.rparen; Ch.m]) in *.
  set (p2 := [Ch.lparen; Ch.g; Ch.rparen; Ch.anusvara]) in *.
  set (p3 := [Ch.lparen; Ch.g; Ch.anudatta; Ch.rparen; Ch.anusvara]) in *.
  set (p4 := [Ch.lparen; Ch.g; Ch.anudatta; Ch.rparen; Ch.m]) in *.
  set (r := [Ch.anusvara]) in *.
  assert (L1 : List.length r < List.length p1) by (cbn; lia).
  assert (L2 : List.length r < List.length p2) by (cbn; lia).
  assert (L3 : List.length r < List.length p3) by (cbn; lia).
  assert (L4 : List.length r < List.length p4) by (cbn; lia).
  pose proof (fun t => replaceAll_length p2 r t (Nat.lt_le_incl _ _ L2)) as G2.
  pose proof (fun t => replaceAll_length p3 r t (Nat.lt_le_incl _ _ L3)) as G3.
  pose proof (fun t => replaceAll_length p4 r t (Nat.lt_le_incl _ _ L4)) as G4.
  destruct (replaceAll_cases p1 r u L1) as [[O1 E1]|[O1 S1]].
  - rewrite E1.
    destruct (replaceAll_cases p2 r u L2) as [[O2 E2]|[O2 S2]].
    + rewrite E2.
      destruct (replaceAll_cases p3 r u L3) as [[O3 E3]|[O3 S3]].
      * rewrite E3.
        destruct (replaceAll_cases p4 r u L4) as [[O4 E4]|[O4 S4]]; [|exact S4].
        rewrite O1, O2, O3, O4 in Hi. discriminate Hi.
      * specialize (G4 (replaceAll p3 r u)). lia.
    + specialize (G3 (replaceAll p2 r u)).
      specialize (G4 (replaceAll p3 r (replaceAll p2 r u))). lia.
  - specialize (G2 (replaceAll p1 r u)).
    specialize (G3 (replaceAll p2 r (replaceAll p1 r u))).
    specialize (G4 (replaceAll p3 r (replaceAll p2 r (replaceAll p1 r u)))). lia.
Qed.

(** C8, as stated, fails: after one pass "(g)(g)" followed by the anusvara
    still holds the idiom "(g)" followed by the anusvara, which a second
    pass collapses. *)
Lemma normalize_not_idempotent :
  preProcessRawText (preProcessRawText Ex.g_g_anusvara)
  <> preProcessRawText Ex.g_g_anusvara.
Proof. vm_compute. discriminate. Qed.

(** C8, amended.  A second pass changes nothing exactly when the first pass
    left none of the four parenthesized idioms behind; a text without an
    opening parenthesis is such a text. *)
Theorem normalize_idempotent_iff t :
  (preProcessRawText (preProcessRawText t) = preProcessRawText t
   <-> hasIdiom (preProcessRawText t) = false)
  /\ (~ In Ch.lparen t ->
      preProcessRawText (preProcessRawText t) = preProcessRawText t).
Proof.
  assert (Hv : forall v, In v variantUnits -> ~ In v (preProcessRawText t))
    by (intros v; apply preProcessRawText_no_variant).
  assert (Hiff : preProcessRawText (preProcessRawText t) = preProcessRawText t
                 <-> hasIdiom (preProcessRawText t) = false).
  { split.
    - intros E. destruct (hasIdiom (preProcessRawText t)) eqn:Hi; [|reflexivity].
      pose proof (preProcessRawText_shrinks _ Hv Hi) as Hl.
      rewrite E in Hl. lia.
    - intros Hi. now apply preProcessRawText_fixed. }
  split; [exact Hiff|].
  intros Hp. apply Hiff.
  assert (Hp' : ~ In Ch.lparen (preProcessRawText t))
    by (apply preProcessRawText_keeps_absent; [assumption|discriminate..]).
  unfold hasIdiom. cbn [existsb idioms].
  repeat match goal with
  | |- context [occursb ?pat ?u] =>
      destruct (occursb pat u) eqn:?;
      [ exfalso; apply Hp'; apply (occursb_units pat u); [assumption|now left] | ]
  end.
  reflexivity.
Qed.

Lemma normalize_idempotent_iff_witness :
  ~ In Ch.lparen Ex.rama_iti
  /\ preProcessRawText (preProcessRawText Ex.rama_iti)
     = preProcessRawText Ex.rama_iti.
Proof.
  split.
  - vm_compute. intuition discriminate.
  - apply (proj2 (normalize_idempotent_iff Ex.rama_iti)).
    vm_compute. intuition discriminate.
Defined.

(** ** Transparency of the pause glyph and the tone marks *)

Lemma isConsonant_skipn text i k :
  isConsonant text (i + k) = isConsonant (skipn i text) k.
Proof.
  unfold isConsonant.
  rewrite leb_skipn, <- Nat.add_assoc, ltb_skipn, substring_skipn, nth_error_skipn.
  reflexivity.
Qed.

Lemma isConsonant_two x y r :
  isConsonant (x :: y :: r) 0 =
  if has TWO_CHAR_CONSONANTS [x; y] then Some [x; y]
  else if has ALL_CONSONANTS [x] then Some [x] else None.
Proof. reflexivity. Qed.

Lemma isConsonant_one x :
  isConsonant [x] 0 = if has ALL_CONSONANTS [x] then Some [x] else None.
Proof. reflexivity. Qed.

Lemma isVowel_two x y r :
  isVowel (x :: y :: r) 0 =
  if has VOWELS [x; y] then Some [x; y]
  else if has VOWELS [x] then Some [x] else None.
Proof. reflexivity. Qed.

Lemma two_char_second_h x y :
  has TWO_CHAR_CONSONANTS [x; y] = true -> y = Ch.h.
Proof.
  intros H. apply has_In in H. cbn in H.
  repeat (destruct H as [H|H]; [injection H as _ <-; reflexivity|]).
  destruct H.
Qed.

Section Insertion.

Variables (a b : str) (g : Z).
Hypothesis Hg : g = Ch.pipe \/ isSvaraMark g = true.
Hypothesis Hsplit : splitsUnit a b = false.

Let T1 := a ++ b.
Let T2 := a ++ g :: b.
Let n := List.length a.

Lemma inserted_unit :
  g = Ch.pipe \/ g = Ch.anudatta \/ g = Ch.svarita \/ g = Ch.udatta
  \/ g = Ch.tick.
Proof.
  destruct Hg as [H|H]; [now left|].
  apply has_In in H. cbn in H.
  destruct H as [H|[H|[H|[H|[]]]]]; injection H as <-; auto.
Qed.

Lemma inserted_not_space : is_space g || (g =? Ch.newline)%Z = false.
Proof.
  destruct inserted_unit as [E|[E|[E|[E|E]]]]; rewrite E; reflexivity.
Qed.

Lemma inserted_transparent :
  (g =? Ch.pipe)%Z = false -> isSvaraMark g = true.
Proof.
  intros H. destruct Hg as [E|E]; [|assumption].
  rewrite E in H. discriminate H.
Qed.

Lemma inserted_not_second x : has TWO_CHAR_CONSONANTS [x; g] = false.
Proof.
  destruct (has TWO_CHAR_CONSONANTS [x; g]) eqn:E; [|reflexivity].
  apply two_char_second_h in E.
  destruct inserted_unit as [F|[F|[F|[F|F]]]]; rewrite F in E; discriminate E.
Qed.

Lemma nth_error_before i :
  i < n -> nth_error T1 i = nth_error a i /\ nth_error T2 i = nth_error a i.
Proof.
  intros H. subst T1 T2 n. now rewrite !nth_error_app1.
Qed.

Lemma nth_error_after k :
  nth_error T1 (n + k) = nth_error b k
  /\ nth_error T2 (n + 1 + k) = nth_error b k.
Proof.
  subst T1 T2 n. split.
  - apply nth_error_app_length.
  - rewrite <- Nat.add_assoc, nth_error_app_length. reflexivity.
Qed.

Lemma nth_error_inserted : nth_error T2 n = Some g.
Proof.
  subst T2 n. rewrite <- (Nat.add_0_r (List.length a)), nth_error_app_length.
  reflexivity.
Qed.

Lemma isConsonant_after k :
  isConsonant T1 (n + k) = isConsonant b k
  /\ isConsonant T2 (n + 1 + k) = isConsonant b k.
Proof.
  subst T1 T2 n. split.
  - now rewrite isConsonant_skipn, skipn_app_length.
  - replace (a ++ g :: b) with ((a ++ [g]) ++ b) by (now rewrite <- app_assoc).
    replace (List.length a + 1) with (List.length (a ++ [g]))
      by (rewrite length_app; reflexivity).
    now rewrite isConsonant_skipn, skipn_app_length.
Qed.

(** Before the insertion point the classifier sees the same units, and no
    unit reaches across the point. *)
Lemma isConsonant_before i :
  i < n ->
  isConsonant T2 i = isConsonant T1 i
  /\ forall c, isConsonant T1 i = Some c -> i + List.length c <= n.
Proof.
  intros Hi. subst n.
  destruct (nth_error a i) as [x|] eqn:Hx;
    [|apply nth_error_None in Hx; lia].
  destruct (nth_error_split a i Hx) as (a1 & a2 & Ea & Hl).
  subst T1 T2. rewrite Ea, <- !app_assoc, <- Hl.
  rewrite <- (Nat.add_0_r (List.length a1)), !isConsonant_skipn, !skipn_app_length.
  rewrite length_app. cbn [app List.length].
  destruct a2 as [|y a3]; cbn [app].
  - rewrite isConsonant_two, inserted_not_second.
    assert (E : isConsonant (x :: b) 0
                = if has ALL_CONSONANTS [x] then Some [x] else None).
    { destruct b as [|y b']; [reflexivity|].
      rewrite isConsonant_two.
      unfold splitsUnit in Hsplit. rewrite Ea, last_last in Hsplit.
      now rewrite Hsplit. }
    rewrite E. split; [reflexivity|].
    intros c. destruct (has ALL_CONSONANTS [x]); [|discriminate].
    intros [= <-]. cbn. lia.
  - rewrite !isConsonant_two. split; [reflexivity|].
    intros c.
    destruct (has TWO_CHAR_CONSONANTS [x; y]).
    + intros [= <-]. cbn. lia.
    + destruct (has ALL_CONSONANTS [x]); [|discriminate].
      intros [= <-]. cbn. lia.
Qed.

Lemma isVowel_before i :
  i + 1 < n -> isVowel T2 i = isVowel T1 i.
Proof.
  intros Hi. subst n.
  destruct (nth_error a i) as [x|] eqn:Hx;
    [|apply nth_error_None in Hx; lia].
  destruct (nth_error_split a i Hx) as (a1 & a2 & Ea & Hl).
  subst T1 T2. rewrite Ea, <- !app_assoc, <- Hl.
  rewrite <- (Nat.add_0_r (List.length a1)), !isVowel_skipn, !skipn_app_length.
  destruct a2 as [|y a3].
  - rewrite Ea, length_app in Hi. cbn in Hi. lia.
  - cbn [app]. now rewrite !isVowel_two.
Qed.

Lemma findPreviousVowel_before bl m :
  m < n ->
  findPreviousVowel_loop T2 bl m = findPreviousVowel_loop T1 bl m.
Proof.
  induction m as [|i IH]; intros Hm; [reflexivity|].
  cbn [findPreviousVowel_loop].
  destruct (nth_error_before i ltac:(lia)) as [-> ->].
  rewrite IH by lia. rewrite isVowel_before by lia. reflexivity.
Qed.

Lemma shiftAfter_before p : p < n -> shiftAfter n p = p.
Proof.
  intros H. unfold shiftAfter.
  destruct (Nat.ltb_spec p n); [reflexivity|lia].
Qed.

Lemma shiftAfter_after k : shiftAfter n (n + k) = n + 1 + k.
Proof.
  unfold shiftAfter. destruct (Nat.ltb_spec (n + k) n); lia.
Qed.

Section Traverse.

Variables (ty : kind) (hp : nat).
Hypothesis Hhp : hp < n.

Lemma traverse_after fuel1 :
  forall fuel2 k passed last,
  List.length b - k <= fuel1 -> List.length b - k <= fuel2 ->
  (forall lc lp, last = Some (lc, lp) -> lp < n) ->
  sameOutcome n (traverse fuel1 T1 ty hp (n + k) passed last)
              (traverse fuel2 T2 ty hp (n + 1 + k) passed last).
Proof.
  induction fuel1 as [|fuel1 IH]; intros fuel2 k passed last H1 H2 Hlast.
  - destruct fuel2; cbn [traverse]; [exact I|].
    destruct (nth_error_after k) as [_ ->].
    assert (E : nth_error b k = None) by (apply nth_error_None; lia).
    rewrite E. exact I.
  - destruct fuel2 as [|fuel2].
    + cbn [traverse]. destruct (nth_error_after k) as [-> _].
      assert (E : nth_error b k = None) by (apply nth_error_None; lia).
      rewrite E. exact I.
    + cbn [traverse].
      destruct (nth_error_after k) as [-> ->].
      destruct (nth_error b k) as [c|] eqn:Hc; [|exact I].
      assert (Hk : k < List.length b) by (apply nth_error_Some; congruence).
      destruct (isConsonant_before hp Hhp) as [Ehp _].
      destruct (isConsonant_after k) as [-> ->].
      replace (n + k + 1) with (n + (k + 1)) by lia.
      replace (n + 1 + k + 1) with (n + 1 + (k + 1)) by lia.
      destruct (is_space c || (c =? Ch.newline)%Z).
      { rewrite Ehp. apply IH; try lia.
        intros lc lp. destruct (negb passed); [|apply Hlast].
        destruct (isConsonant T1 hp); [|apply Hlast].
        intros [= <- <-]. exact Hhp. }
      destruct (c =? Ch.pipe)%Z; [apply IH; (lia || assumption)|].
      destruct (isSvaraMark c); [apply IH; (lia || assumption)|].
      destruct (isConsonant b k) as [cns|] eqn:Hcns; [|exact I].
      destruct (isConsonant_bounds _ _ _ Hcns) as [Hb _].
      destruct passed.
      * destruct last as [[lc lp]|].
        -- destruct (str_eqb cns lc); cbn [sameOutcome]; unfold sameSite;
             cbn [type length position];
             [rewrite shiftAfter_before by (eapply Hlast; reflexivity)
             |rewrite shiftAfter_after]; auto.
        -- cbn [sameOutcome]. unfold sameSite. cbn [type length position].
           rewrite shiftAfter_after. auto.
      * replace (n + k + List.length cns) with (n + (k + List.length cns)) by lia.
        replace (n + 1 + k + List.length cns)
          with (n + 1 + (k + List.length cns)) by lia.
        apply IH; (lia || assumption).
Qed.

Lemma traverse_before m :
  forall fuel1 fuel2 i passed last,
  n - i <= m -> i <= n ->
  List.length T1 - i <= fuel1 -> List.length T2 - i <= fuel2 ->
  (forall lc lp, last = Some (lc, lp) -> lp < n) ->
  sameOutcome n (traverse fuel1 T1 ty hp i passed last)
              (traverse fuel2 T2 ty hp i passed last).
Proof.
  assert (L1 : List.length T1 = n + List.length b)
    by (subst T1 n; apply length_app).
  assert (L2 : List.length T2 = n + 1 + List.length b)
    by (subst T2 n; rewrite length_app; cbn [List.length]; lia).
  induction m as [|m IH]; intros fuel1 fuel2 i passed last Hm Hi H1 H2 Hlast.
  - assert (i = n) by lia. subst i.
    destruct fuel2 as [|fuel2]; [lia|].
    cbn [traverse]. rewrite nth_error_inserted, inserted_not_space.
    pose proof (traverse_after fuel1 fuel2 0 passed last
                  ltac:(lia) ltac:(lia) Hlast) as Ha.
    rewrite !Nat.add_0_r in Ha.
    destruct (g =? Ch.pipe)%Z eqn:Ep; [exact Ha|].
    rewrite (inserted_transparent Ep). exact Ha.
  - destruct (Nat.eq_dec i n) as [->|Hne]; [apply (IH fuel1 fuel2 n); (lia || assumption)|].
    assert (Hlt : i < n) by lia.
    destruct fuel1 as [|fuel1]; [lia|].
    destruct fuel2 as [|fuel2]; [lia|].
    cbn [traverse].
    destruct (nth_error_before i Hlt) as [-> ->].
    destruct (nth_error a i) as [c|] eqn:Hc;
      [|apply nth_error_None in Hc; unfold n in Hlt; lia].
    destruct (isConsonant_before hp Hhp) as [Ehp _].
    destruct (isConsonant_before i Hlt) as [Ei Hstay].
    rewrite Ehp, Ei.
    destruct (is_space c || (c =? Ch.newline)%Z).
    { apply IH; try lia.
      intros lc lp. destruct (negb passed); [|apply Hlast].
      destruct (isConsonant T1 hp); [|apply Hlast].
      intros [= <- <-]. exact Hhp. }
    destruct (c =? Ch.pipe)%Z; [apply IH; (lia || assumption)|].
    destruct (isSvaraMark c); [apply IH; (lia || assumption)|].
    destruct (isConsonant T1 i) as [cns|] eqn:Hcns; [|exact I].
    destruct (isConsonant_bounds _ _ _ Hcns) as [Hb _].
    specialize (Hstay cns eq_refl).
    destruct passed.
    + destruct last as [[lc lp]|].
      * destruct (str_eqb cns lc); cbn [sameOutcome]; unfold sameSite;
          cbn [type length position];
          [rewrite shiftAfter_before by (eapply Hlast; reflexivity)
          |rewrite shiftAfter_before by assumption]; auto.
      * cbn [sameOutcome]. unfold sameSite. cbn [type length position].
        rewrite shiftAfter_before by assumption. auto.
    + apply IH; (lia || assumption).
Qed.

End Traverse.

Lemma findHoldingPosition_inserted pos cns :
  isConsonant T1 pos = Some cns -> pos + List.length cns <= n ->
  has SKIP_CONSONANTS cns = false ->
  2 <= findSamyuktaLength T1 pos false ->
  2 <= findSamyuktaLength T2 pos false ->
  sameSite n (findHoldingPosition T1 pos) (findHoldingPosition T2 pos).
Proof.
  intros Hc Hpos Hskip Hq1 Hq2.
  destruct (isConsonant_bounds _ _ _ Hc) as [Hb _].
  assert (Hlt : pos < n) by lia.
  destruct (isConsonant_before pos Hlt) as [Ec _].
  unfold findHoldingPosition. rewrite Ec, Hc.
  destruct (Nat.leb_spec (findSamyuktaLength T1 pos false) 1); [lia|].
  destruct (Nat.leb_spec (findSamyuktaLength T2 pos false) 1); [lia|].
  unfold findPreviousVowel. rewrite (findPreviousVowel_before true pos Hlt).
  set (pv := findPreviousVowel_loop T1 true pos).
  assert (Hsame : forall ty, sameSite n (Holding pos (List.length cns) ty None)
                                      (Holding pos (List.length cns) ty None)).
  { intros ty. unfold sameSite. cbn. rewrite shiftAfter_before by assumption. auto. }
  assert (Hnone : sameSite n noHolding noHolding).
  { unfold sameSite. cbn. rewrite shiftAfter_before by lia. auto. }
  destruct (str_eqb (vowel pv) []).
  { destruct (blocked pv); [apply Hsame|apply Hnone]. }
  set (ty := if has LONG_VOWELS (vowel pv) then Long else Short).
  pose proof (traverse_before ty pos Hlt n
                (List.length T1 - pos) (List.length T2 - pos) pos false None
                ltac:(lia) ltac:(lia) ltac:(lia) ltac:(lia)
                ltac:(discriminate)) as Htr.
  destruct (traverse (List.length T1 - pos) T1 ty pos pos false None) as [h1|];
    destruct (traverse (List.length T2 - pos) T2 ty pos pos false None) as [h2|];
    cbn [sameOutcome] in Htr; try contradiction; [exact Htr|].
  assert (S1 : skipSkipConsonants (List.length T1 - pos) T1 pos = pos).
  { destruct (List.length T1 - pos); cbn [skipSkipConsonants]; [reflexivity|].
    now rewrite Hc, Hskip. }
  assert (S2 : skipSkipConsonants (List.length T2 - pos) T2 pos = pos).
  { destruct (List.length T2 - pos); cbn [skipSkipConsonants]; [reflexivity|].
    now rewrite Ec, Hc, Hskip. }
  rewrite S1, S2, Ec, Hc. apply Hsame.
Qed.

Section Count.

Variable countMarks : bool.
Hypothesis Hcount :
  (g =? Ch.pipe)%Z || (countMarks && isSvaraMark g) = true.

Lemma count_after fuel1 :
  forall fuel2 k acc,
  List.length b - k <= fuel1 -> List.length b - k <= fuel2 ->
  findSamyuktaLength_loop fuel1 T1 countMarks (n + k) acc
  = findSamyuktaLength_loop fuel2 T2 countMarks (n + 1 + k) acc.
Proof.
  induction fuel1 as [|fuel1 IH]; intros fuel2 k acc H1 H2.
  - destruct fuel2; cbn [findSamyuktaLength_loop]; [reflexivity|].
    destruct (nth_error_after k) as [_ ->].
    assert (E : nth_error b k = None) by (apply nth_error_None; lia).
    now rewrite E.
  - destruct fuel2 as [|fuel2].
    + cbn [findSamyuktaLength_loop]. destruct (nth_error_after k) as [-> _].
      assert (E : nth_error b k = None) by (apply nth_error_None; lia).
      now rewrite E.
    + cbn [findSamyuktaLength_loop].
      destruct (nth_error_after k) as [-> ->].
      destruct (nth_error b k) as [c|] eqn:Hc; [|reflexivity].
      assert (Hk : k < List.length b) by (apply nth_error_Some; congruence).
      destruct (isConsonant_after k) as [-> ->].
      replace (n + k + 1) with (n + (k + 1)) by lia.
      replace (n + 1 + k + 1) with (n + 1 + (k + 1)) by lia.
      destruct (is_space c || (c =? Ch.newline)%Z); [apply IH; lia|].
      destruct (c =? Ch.pipe)%Z; [apply IH; lia|].
      destruct (countMarks && isSvaraMark c); [apply IH; lia|].
      destruct (isConsonant b k) as [cns|] eqn:Hcns; [|reflexivity].
      destruct (isConsonant_bounds _ _ _ Hcns) as [Hb _].
      replace (n + k + List.length cns) with (n + (k + List.length cns)) by lia.
      replace (n + 1 + k + List.length cns)
        with (n + 1 + (k + List.length cns)) by lia.
      apply IH; lia.
Qed.

Lemma count_before m :
  forall fuel1 fuel2 i acc,
  n - i <= m -> i <= n ->
  List.length T1 - i <= fuel1 -> List.length T2 - i <= fuel2 ->
  findSamyuktaLength_loop fuel1 T1 countMarks i acc
  = findSamyuktaLength_loop fuel2 T2 countMarks i acc.
Proof.
  assert (L1 : List.length T1 = n + List.length b)
    by (subst T1 n; apply length_app).
  assert (L2 : List.length T2 = n + 1 + List.length b)
    by (subst T2 n; rewrite length_app; cbn [List.length]; lia).
  induction m as [|m IH]; intros fuel1 fuel2 i acc Hm Hi H1 H2.
  - assert (i = n) by lia. subst i.
    destruct fuel2 as [|fuel2]; [lia|].
    cbn [findSamyuktaLength_loop]. rewrite nth_error_inserted, inserted_not_space.
    pose proof (count_after fuel1 fuel2 0 acc ltac:(lia) ltac:(lia)) as Ha.
    rewrite !Nat.add_0_r in Ha.
    destruct (g =? Ch.pipe)%Z; [exact Ha|].
    cbn [orb] in Hcount. rewrite Hcount. exact Ha.
  - destruct (Nat.eq_dec i n) as [->|Hne]; [apply (IH fuel1 fuel2 n); lia|].
    assert (Hlt : i < n) by lia.
    destruct fuel1 as [|fuel1]; [lia|].
    destruct fuel2 as [|fuel2]; [lia|].
    cbn [findSamyuktaLength_loop].
    destruct (nth_error_before i Hlt) as [-> ->].
    destruct (nth_error a i) as [c|] eqn:Hc;
      [|apply nth_error_None in Hc; unfold n in Hlt; lia].
    destruct (isConsonant_before i Hlt) as [Ei Hstay].
    rewrite Ei.
    destruct (is_space c || (c =? Ch.newline)%Z); [apply IH; lia|].
    destruct (c =? Ch.pipe)%Z; [apply IH; lia|].
    destruct (countMarks && isSvaraMark c); [apply IH; lia|].
    destruct (isConsonant T1 i) as [cns|] eqn:Hcns; [|reflexivity].
    destruct (isConsonant_bounds _ _ _ Hcns) as [Hb _].
    specialize (Hstay cns eq_refl).
    apply IH; lia.
Qed.

Lemma findSamyuktaLength_inserted pos :
  pos <= n ->
  findSamyuktaLength T2 pos countMarks = findSamyuktaLength T1 pos countMarks.
Proof.
  intros Hp. unfold findSamyuktaLength. symmetry.
  apply (count_before (n - pos)); lia.
Qed.

End Count.

End Insertion.

(** C6, as stated, fails: a tone mark between k and t of "akta" removes the
    holding, because the cluster count of [findHoldingPosition] stops at the
    mark; and the pause glyph between n and k of "anka" removes it, because
    the walk over the skip consonants stops at the glyph. *)
Lemma transparency_fails :
  findAllHoldings Ex.akta = [Holding 1 1 Short None]
  /\ findAllHoldings Ex.ak_mark_ta = []
  /\ findAllHoldings Ex.anka = [Holding 2 1 Short None]
  /\ findAllHoldings Ex.an_pipe_ka = [].
Proof. vm_compute. repeat split. Qed.

(** C6, amended.  A code unit is inserted between [a] and [b], after the
    first consonant of the cluster at [pos] and not inside a two-unit
    consonant.  The pause glyph does not change the count of consonant units
    of the cluster.  When the first consonant is not a skip consonant and
    the cluster counts at least two units before and after the insertion,
    the pause glyph or a tone mark leaves the holding of
    [findHoldingPosition] with the same kind and length, on the same site:
    its position is unchanged before the insertion point and moved by one
    after it. *)
Theorem insertion_transparency a b g pos cns :
  splitsUnit a b = false ->
  isConsonant (a ++ b) pos = Some cns ->
  pos + List.length cns <= List.length a ->
  (forall countMarks,
     findSamyuktaLength (a ++ Ch.pipe :: b) pos countMarks
     = findSamyuktaLength (a ++ b) pos countMarks)
  /\ (g = Ch.pipe \/ isSvaraMark g = true ->
      has SKIP_CONSONANTS cns = false ->
      2 <= findSamyuktaLength (a ++ b) pos false ->
      2 <= findSamyuktaLength (a ++ g :: b) pos false ->
      sameSite (List.length a)
        (findHoldingPosition (a ++ b) pos)
        (findHoldingPosition (a ++ g :: b) pos)).
Proof.
  intros Hsplit Hc Hpos. split.
  - intros cm.
    apply (findSamyuktaLength_inserted a b Ch.pipe (or_introl eq_refl) Hsplit cm);
      [reflexivity|lia].
  - intros Hg Hskip H1 H2.
    now apply (findHoldingPosition_inserted a b g Hg Hsplit pos cns).
Qed.

Lemma insertion_transparency_witness :
  splitsUnit [Ch.a; Ch.k] [Ch.t; Ch.a] = false
  /\ isConsonant Ex.akta 1 = Some [Ch.k]
  /\ findSamyuktaLength ([Ch.a; Ch.k] ++ Ch.pipe :: [Ch.t; Ch.a]) 1 false = 2
  /\ sameSite 2 (findHoldingPosition Ex.akta 1)
       (findHoldingPosition ([Ch.a; Ch.k] ++ Ch.pipe :: [Ch.t; Ch.a]) 1).
Proof.
  split; [reflexivity|]. split; [reflexivity|].
  pose proof (insertion_transparency [Ch.a; Ch.k] [Ch.t; Ch.a] Ch.pipe 1 [Ch.k]
                eq_refl eq_refl (le_n 2)) as [H1 H2].
  split; [exact (H1 false)|].
  apply H2; [now left|reflexivity|vm_compute; lia|vm_compute; lia].
Defined.

(** ** Round trip: facts about the tables *)

Lemma known_get_I2D tbl key :
  known tbl key = true -> exists v, In (key, v) tbl /\ I2D.get tbl key = v.
Proof.
  intros H. destruct (known_In _ _ H) as (v & Hin & E).
  exists v. split; [assumption|]. unfold I2D.get. now rewrite E.
Qed.

Lemma i2d_consonant2 x y :
  known I2D.consonants [x; y] = true ->
  y = Ch.h /\ known I2D.consonants [x] = true.
Proof.
  intros H. destruct (known_In _ _ H) as (v & Hin & _).
  cbn in Hin.
  repeat (destruct Hin as [Hin|Hin];
          [first [discriminate Hin
                 |injection Hin as <- <- _; split; reflexivity]|]).
  destruct Hin.
Qed.

Lemma i2d_aspirated x y z :
  has I2D.aspiratedWithA [x; y; z]
  = known I2D.consonants [x; y] && (z =? Ch.a)%Z.
Proof.
  destruct (has I2D.aspiratedWithA [x; y; z]) eqn:E.
  - apply has_In in E. cbn in E.
    repeat (destruct E as [E|E]; [injection E as <- <- <-; reflexivity|]).
    destruct E.
  - destruct (known I2D.consonants [x; y]) eqn:K; [|reflexivity].
    destruct (Z.eqb_spec z Ch.a) as [->|]; [|reflexivity].
    exfalso. destruct (known_In _ _ K) as (v & Hin & _). cbn in Hin.
    repeat (destruct Hin as [Hin|Hin];
            [first [discriminate Hin
                   |injection Hin as <- <- _; vm_compute in E; discriminate E]|]).
    destruct Hin.
Qed.

Lemma i2d_sign2 x y :
  known I2D.vowelSigns [x; y]
  = (x =? Ch.a)%Z && ((y =? Ch.i)%Z || (y =? Ch.u)%Z).
Proof.
  destruct (known I2D.vowelSigns [x; y]) eqn:E.
  - destruct (known_In _ _ E) as (v & Hin & _). cbn in Hin.
    repeat (destruct Hin as [Hin|Hin];
            [first [discriminate Hin
                   |injection Hin as <- <- _; reflexivity]|]).
    destruct Hin.
  - destruct (Z.eqb_spec x Ch.a) as [->|]; [|reflexivity].
    destruct (Z.eqb_spec y Ch.i) as [->|]; [vm_compute in E; discriminate E|].
    destruct (Z.eqb_spec y Ch.u) as [->|]; [vm_compute in E; discriminate E|].
    reflexivity.
Qed.

Lemma i2d_vowel2 x y :
  known I2D.vowels [x; y]
  = ((x =? Ch.a)%Z && ((y =? Ch.i)%Z || (y =? Ch.u)%Z))
    || ((x =? Ch.o)%Z && (y =? Ch.anusvara)%Z).
Proof.
  destruct (known I2D.vowels [x; y]) eqn:E.
  - destruct (known_In _ _ E) as (v & Hin & _). cbn in Hin.
    repeat (destruct Hin as [Hin|Hin];
            [first [discriminate Hin
                   |injection Hin as <- <- _; reflexivity]|]).
    destruct Hin.
  - destruct (Z.eqb_spec x Ch.a) as [->|].
    + destruct (Z.eqb_spec y Ch.i) as [->|]; [vm_compute in E; discriminate E|].
      destruct (Z.eqb_spec y Ch.u) as [->|]; [vm_compute in E; discriminate E|].
      reflexivity.
    + destruct (Z.eqb_spec x Ch.o) as [->|]; [|reflexivity].
      destruct (Z.eqb_spec y Ch.anusvara) as [->|]; [vm_compute in E; discriminate E|].
      reflexivity.
Qed.

Lemma i2d_om_eqb x y :
  str_eqb [x; y] [Ch.o; Ch.anusvara] = (x =? Ch.o)%Z && (y =? Ch.anusvara)%Z.
Proof. cbn. now rewrite andb_true_r. Qed.

(** A one-unit consonant key is no vowel, no vowel sign and no special
    sign, and it is neither a nor o. *)
Lemma i2d_consonant1 c :
  known I2D.consonants [c] = true ->
  known I2D.vowels [c] = false /\ known I2D.vowelSigns [c] = false
  /\ known I2D.special [c] = false
  /\ (c =? Ch.a)%Z = false /\ (c =? Ch.o)%Z = false
  /\ canon c = c.
Proof.
  intros H. destruct (known_In _ _ H) as (v & Hin & _). cbn in Hin.
  repeat (destruct Hin as [Hin|Hin];
          [first [discriminate Hin
                 |injection Hin as <- _; repeat split; reflexivity]|]).
  destruct Hin.
Qed.

(** A one-unit vowel sign key is a vowel key, and it is neither a nor h. *)
Lemma i2d_sign1 v :
  known I2D.vowelSigns [v] = true ->
  known I2D.vowels [v] = true /\ known I2D.consonants [v] = false
  /\ (v =? Ch.a)%Z = false /\ (v =? Ch.h)%Z = false
  /\ canon v = v.
Proof.
  intros H. destruct (known_In _ _ H) as (w & Hin & _). cbn in Hin.
  repeat (destruct Hin as [Hin|Hin];
          [first [discriminate Hin
                 |injection Hin as <- _; repeat split; reflexivity]|]).
  destruct Hin.
Qed.

Lemma i2d_vowel1 v :
  known I2D.vowels [v] = true ->
  known I2D.consonants [v] = false /\ (v =? Ch.h)%Z = false
  /\ canon v = v.
Proof.
  intros H. destruct (known_In _ _ H) as (w & Hin & _). cbn in Hin.
  repeat (destruct Hin as [Hin|Hin];
          [first [discriminate Hin
                 |injection Hin as <- _; repeat split; reflexivity]|]).
  destruct Hin.
Qed.

Lemma i2d_special1 x :
  known I2D.special [x] = true ->
  known I2D.consonants [x] = false /\ known I2D.vowelSigns [x] = false
  /\ (x =? Ch.a)%Z = false /\ (x =? Ch.o)%Z = false /\ (x =? Ch.h)%Z = false.
Proof.
  intros H. destruct (known_In _ _ H) as (w & Hin & _). cbn in Hin.
  repeat (destruct Hin as [Hin|Hin];
          [first [discriminate Hin
                 |injection Hin as <- _; repeat split; reflexivity]|]).
  destruct Hin.
Qed.

(** A unit that is no one-unit key of the consonants, vowels or special
    signs occurs in no key at all. *)
Lemma i2d_unrecognized x :
  known I2D.consonants [x] = false -> known I2D.vowels [x] = false ->
  known I2D.special [x] = false -> recognizedI2D x = false.
Proof.
  intros Hc Hv Hs. destruct (recognizedI2D x) eqn:E; [|reflexivity].
  apply memZ_In in E. cbn in E.
  repeat (destruct E as [<-|E];
          [first [vm_compute in Hc; discriminate Hc
                 |vm_compute in Hv; discriminate Hv
                 |vm_compute in Hs; discriminate Hs]|]).
  destruct E.
Qed.

(** ** Round trip: [devanagariToIAST] on what [iastToDevanagari] writes *)

Lemma d2i_consonant key :
  known I2D.consonants key = true ->
  exists C, I2D.get I2D.consonants key = [C]
  /\ known D2I.consonants [C] = true
  /\ known D2I.vowelSigns [C] = false /\ (C =? Ch.virama)%Z = false
  /\ (forall Z W, devanagariToIAST (C :: Z) = W -> exists W', W = hd 0%Z key :: W')
  /\ devanagariToIAST [C] = key
  /\ (forall S Z, known D2I.vowelSigns [S] = true ->
        devanagariToIAST (C :: S :: Z)
        = key ++ D2I.get D2I.vowelSigns [S] ++ devanagariToIAST Z)
  /\ (forall Z, devanagariToIAST (C :: Ch.virama :: Z)
                = key ++ devanagariToIAST Z)
  /\ (forall U Z, known D2I.vowelSigns [U] = false ->
        (U =? Ch.virama)%Z = false ->
        devanagariToIAST (C :: U :: Z)
        = key ++ Ch.a :: devanagariToIAST (U :: Z)).
Proof.
  intros H. destruct (known_get_I2D _ _ H) as (v & Hin & ->).
  cbn in Hin.
  repeat (destruct Hin as [Hin|Hin];
    [injection Hin as <- <-; eexists; split; [reflexivity|];
     split; [reflexivity|]; split; [reflexivity|]; split; [reflexivity|];
     split; [intros Z W <-; rewrite d2i_unfold; eexists; reflexivity|];
     split; [reflexivity|];
     split; [intros S Z HS; rewrite d2i_unfold; cbv beta iota;
             rewrite HS; reflexivity|];
     split; [intros Z; rewrite d2i_unfold; reflexivity|];
     intros U Z HU HV; rewrite d2i_unfold; cbv beta iota;
     rewrite HU, HV; reflexivity|]).
  destruct Hin.
Qed.

Lemma d2i_vowel key :
  known I2D.vowels key = true ->
  exists V, I2D.get I2D.vowels key = [V]
  /\ known D2I.vowelSigns [V] = false /\ (V =? Ch.virama)%Z = false
  /\ forall Z, devanagariToIAST (V :: Z) = key ++ devanagariToIAST Z.
Proof.
  intros H. destruct (known_get_I2D _ _ H) as (v & Hin & ->).
  cbn in Hin.
  repeat (destruct Hin as [Hin|Hin];
    [injection Hin as <- <-; eexists; split; [reflexivity|];
     split; [reflexivity|]; split; [reflexivity|];
     intros Z; rewrite d2i_unfold; reflexivity|]).
  destruct Hin.
Qed.

Lemma canon_not_special x : known I2D.special [x] = false -> canon x = x.
Proof.
  intros H. unfold canon.
  destruct (Z.eqb_spec x Ch.anusvara_below) as [->|_];
    [vm_compute in H; discriminate H|].
  destruct (Z.leb_spec 0x30 x); [|reflexivity].
  destruct (Z.leb_spec x 0x39); [|reflexivity].
  exfalso.
  assert (E : (x = 0x30 \/ x = 0x31 \/ x = 0x32 \/ x = 0x33 \/ x = 0x34
               \/ x = 0x35 \/ x = 0x36 \/ x = 0x37 \/ x = 0x38 \/ x = 0x39)%Z)
    by lia.
  repeat (destruct E as [->|E]; [vm_compute in H; discriminate H|]).
  subst x. vm_compute in H. discriminate H.
Qed.

Local Arguments known : simpl never.
Local Arguments has : simpl never.
Local Arguments I2D.get : simpl never.
Local Arguments D2I.get : simpl never.
Local Arguments I2D.isWordBoundary : simpl never.
Local Arguments iastToDevanagari : simpl never.
Local Arguments devanagariToIAST : simpl never.

Ltac i2d_open :=
  rewrite i2d_unfold;
  unfold i2d_body, I2D.afterConsonant, I2D.isConsonantAhead, substring;
  cbn [firstn skipn List.length nth_error Nat.sub Nat.add Nat.leb Nat.ltb
       app str_eqb fst snd].

Lemma i2d_special x :
  known I2D.special [x] = true ->
  exists S, I2D.get I2D.special [x] = [S]
  /\ known D2I.vowelSigns [S] = false /\ (S =? Ch.virama)%Z = false
  /\ (forall Z, devanagariToIAST (S :: Z) = canon x :: devanagariToIAST Z)
  /\ (known I2D.vowels [x] = false ->
      forall Y, iastToDevanagari (canon x :: Y) = S :: iastToDevanagari Y).
Proof.
  intros H. destruct (known_get_I2D _ _ H) as (v & Hin & ->).
  cbn in Hin.
  repeat (destruct Hin as [Hin|Hin];
    [injection Hin as <- <-; eexists; split; [reflexivity|];
     split; [reflexivity|]; split; [reflexivity|];
     split; [intros Z; rewrite d2i_unfold; reflexivity|];
     intros Hv Y;
     first [discriminate Hv
           |rewrite i2d_unfold; destruct Y as [|? [|? ?]]; reflexivity]|]).
  destruct Hin.
Qed.

(** ** Round trip: one step of [iastToDevanagari] on each kind of token *)

Lemma i2d_om Y :
  iastToDevanagari (Ch.o :: Ch.anusvara :: Y) = Ch.om :: iastToDevanagari Y.
Proof. rewrite i2d_unfold. reflexivity. Qed.

Ltac i2d_shape Y :=
  destruct Y as [|? [|? ?]];
  unfold needsVirama;
  rewrite i2d_unfold;
  unfold i2d_body, I2D.afterConsonant, I2D.isConsonantAhead, substring;
  cbn [firstn skipn List.length nth_error Nat.sub Nat.add Nat.leb Nat.ltb
       app str_eqb fst snd andb].

Ltac split_ifs_refl :=
  repeat match goal with
  | |- context [if ?b then _ else _] => destruct b
  end; reflexivity.

(** Aspirated consonant followed by a: the three-unit branch. *)
Lemma i2d_aspirated_a x y Y :
  known I2D.consonants [x; y] = true ->
  iastToDevanagari (x :: y :: Ch.a :: Y)
  = I2D.get I2D.consonants [x; y] ++ iastToDevanagari Y.
Proof.
  intros H. destruct (i2d_consonant2 _ _ H) as [-> Hx].
  destruct (i2d_consonant1 _ Hx) as (_ & _ & _ & _ & Hxo & _).
  i2d_open. rewrite Hxo, i2d_aspirated, H. reflexivity.
Qed.

(** Aspirated consonant followed by a one-unit vowel sign. *)
Lemma i2d_cons2_sign x y v Y :
  known I2D.consonants [x; y] = true -> known I2D.vowelSigns [v] = true ->
  iastToDevanagari (x :: y :: v :: Y)
  = I2D.get I2D.consonants [x; y] ++ I2D.get I2D.vowelSigns [v]
    ++ iastToDevanagari Y.
Proof.
  intros H Hv. destruct (i2d_consonant2 _ _ H) as [-> Hx].
  destruct (i2d_consonant1 _ Hx) as (_ & _ & _ & _ & Hxo & _).
  destruct (i2d_sign1 _ Hv) as (_ & _ & Hva & _).
  i2d_open. rewrite Hxo, i2d_aspirated, H, Hva. cbn [andb].
  destruct Y as [|y0 Y']; cbn [firstn List.length Nat.ltb Nat.leb andb].
  - rewrite Hv. reflexivity.
  - rewrite i2d_sign2, Hva, Hv. reflexivity.
Qed.

(** Aspirated consonant followed by no vowel. *)
Lemma i2d_cons2_bare x y Y :
  known I2D.consonants [x; y] = true ->
  match Y with
  | [] => True
  | y0 :: _ => (y0 =? Ch.a)%Z = false /\ known I2D.vowelSigns [y0] = false
  end ->
  iastToDevanagari (x :: y :: Y)
  = I2D.get I2D.consonants [x; y]
    ++ (if needsVirama Y then [Ch.virama] else [])
    ++ iastToDevanagari Y.
Proof.
  intros H HY. destruct (i2d_consonant2 _ _ H) as [-> Hx].
  destruct (i2d_consonant1 _ Hx) as (_ & _ & _ & _ & Hxo & _).
  i2d_shape Y; rewrite Hxo, ?i2d_aspirated, H; cbn [andb];
    [reflexivity|destruct HY as [Ha Hs]..];
    rewrite ?i2d_sign2, Ha, Hs; cbn [andb]; split_ifs_refl.
Qed.

(** One-unit consonant followed by ai or au. *)
Lemma i2d_cons1_sign2 c w Y :
  known I2D.consonants [c] = true ->
  known I2D.vowelSigns [Ch.a; w] = true ->
  iastToDevanagari (c :: Ch.a :: w :: Y)
  = I2D.get I2D.consonants [c] ++ I2D.get I2D.vowelSigns [Ch.a; w]
    ++ iastToDevanagari Y.
Proof.
  intros Hc Hw.
  destruct (i2d_consonant1 _ Hc) as (_ & _ & _ & _ & Hco & _).
  assert (K2 : known I2D.consonants [c; Ch.a] = false).
  { destruct (known I2D.consonants [c; Ch.a]) eqn:E; [|reflexivity].
    apply i2d_consonant2 in E. destruct E as [E _]. discriminate E. }
  i2d_open. rewrite Hco, i2d_aspirated, K2, i2d_vowel2, Hco, Hc, Hw.
  assert (Hca : (c =? Ch.a)%Z = false)
    by (destruct (i2d_consonant1 _ Hc) as (_ & _ & _ & E & _); exact E).
  rewrite Hca. reflexivity.
Qed.

(** One-unit consonant followed by a one-unit vowel sign. *)
Lemma i2d_cons1_sign c v Y :
  known I2D.consonants [c] = true -> known I2D.vowelSigns [v] = true ->
  iastToDevanagari (c :: v :: Y)
  = I2D.get I2D.consonants [c] ++ I2D.get I2D.vowelSigns [v]
    ++ iastToDevanagari Y.
Proof.
  intros Hc Hv.
  destruct (i2d_consonant1 _ Hc) as (_ & _ & _ & Hca & Hco & _).
  destruct (i2d_sign1 _ Hv) as (_ & _ & Hva & Hvh & _).
  assert (K2 : known I2D.consonants [c; v] = false).
  { destruct (known I2D.consonants [c; v]) eqn:E; [|reflexivity].
    apply i2d_consonant2 in E. destruct E as [-> _]. discriminate Hvh. }
  i2d_open. rewrite Hco, K2, i2d_vowel2, Hca, Hco, Hc. cbn [andb orb].
  destruct Y as [|y0 Y']; cbn [firstn List.length Nat.ltb Nat.leb andb].
  - rewrite Hv. reflexivity.
  - rewrite i2d_aspirated, K2, i2d_sign2, Hva, Hv. reflexivity.
Qed.

(** One-unit consonant followed by the inherent a. *)
Lemma i2d_cons1_a c Y :
  known I2D.consonants [c] = true ->
  match Y with
  | [] => True
  | y0 :: _ => (y0 =? Ch.i)%Z = false /\ (y0 =? Ch.u)%Z = false
  end ->
  iastToDevanagari (c :: Ch.a :: Y)
  = I2D.get I2D.consonants [c] ++ iastToDevanagari Y.
Proof.
  intros Hc HY.
  destruct (i2d_consonant1 _ Hc) as (_ & _ & _ & Hca & Hco & _).
  assert (K2 : known I2D.consonants [c; Ch.a] = false).
  { destruct (known I2D.consonants [c; Ch.a]) eqn:E; [|reflexivity].
    apply i2d_consonant2 in E. destruct E as [E _]. discriminate E. }
  assert (Sa : known I2D.vowelSigns [Ch.a] = false) by reflexivity.
  i2d_open. rewrite Hco, K2, i2d_vowel2, Hca, Hco, Hc, Sa. cbn [andb orb].
  destruct Y as [|y0 Y']; cbn [firstn List.length Nat.ltb Nat.leb andb].
  - reflexivity.
  - destruct HY as [Hi Hu].
    rewrite i2d_aspirated, K2, i2d_sign2, Hi, Hu. reflexivity.
Qed.

(** One-unit consonant followed by no vowel. *)
Lemma i2d_cons1_bare c Y :
  known I2D.consonants [c] = true ->
  match Y with
  | [] => True
  | y0 :: _ => (y0 =? Ch.a)%Z = false /\ known I2D.vowelSigns [y0] = false
               /\ known I2D.consonants [c; y0] = false
  end ->
  iastToDevanagari (c :: Y)
  = I2D.get I2D.consonants [c]
    ++ (if needsVirama Y then [Ch.virama] else [])
    ++ iastToDevanagari Y.
Proof.
  intros Hc HY.
  destruct (i2d_consonant1 _ Hc) as (_ & _ & _ & Hca & Hco & _).
  i2d_shape Y; rewrite ?Hco, Hc; cbn [andb];
    [reflexivity|destruct HY as (Ha & Hs & K2)..];
    rewrite ?i2d_aspirated, K2, i2d_vowel2, Hca, Hco, ?i2d_sign2, Ha, Hs;
    cbn [andb orb]; split_ifs_refl.
Qed.

(** The two-unit vowels ai and au. *)
Lemma i2d_vowel2_step w Y :
  known I2D.vowelSigns [Ch.a; w] = true ->
  iastToDevanagari (Ch.a :: w :: Y)
  = I2D.get I2D.vowels [Ch.a; w] ++ iastToDevanagari Y.
Proof.
  intros Hw. rewrite i2d_sign2 in Hw. cbn [Z.eqb Ch.a Pos.eqb andb] in Hw.
  assert (K2 : known I2D.consonants [Ch.a; w] = false).
  { destruct (known I2D.consonants [Ch.a; w]) eqn:E; [|reflexivity].
    apply i2d_consonant2 in E. destruct E as [_ E]. discriminate E. }
  i2d_open. rewrite K2, i2d_vowel2, Hw.
  destruct Y as [|y0 Y']; cbn [firstn List.length Nat.ltb Nat.leb andb].
  - reflexivity.
  - rewrite i2d_aspirated, K2. reflexivity.
Qed.

(** A one-unit vowel that does not open a two-unit vowel. *)
Lemma i2d_vowel1_step v Y :
  known I2D.vowels [v] = true ->
  match Y with
  | [] => True
  | y0 :: _ => known I2D.vowels [v; y0] = false
  end ->
  iastToDevanagari (v :: Y) = I2D.get I2D.vowels [v] ++ iastToDevanagari Y.
Proof.
  intros Hv HY.
  destruct (i2d_vowel1 _ Hv) as (Hvc & _).
  assert (K2 : forall y0, known I2D.consonants [v; y0] = false).
  { intros y0. destruct (known I2D.consonants [v; y0]) eqn:E; [|reflexivity].
    apply i2d_consonant2 in E. destruct E as [_ E]. congruence. }
  i2d_shape Y; rewrite ?Hvc, Hv; [reflexivity|..];
    rewrite ?i2d_aspirated, !K2, HY; cbn [andb];
    rewrite i2d_vowel2 in HY; apply orb_false_iff in HY;
    destruct HY as [_ HY]; apply andb_false_iff in HY;
    destruct HY as [HY|HY]; rewrite HY; cbn [andb];
    rewrite ?andb_false_r; reflexivity.
Qed.

Lemma i2d_special_step x Y :
  known I2D.special [x] = true -> known I2D.vowels [x] = false ->
  iastToDevanagari (x :: Y) = I2D.get I2D.special [x] ++ iastToDevanagari Y.
Proof.
  intros H Hv. destruct (known_In _ _ H) as (v & Hin & _). cbn in Hin.
  repeat (destruct Hin as [Hin|Hin];
    [injection Hin as <- _;
     first [discriminate Hv
           |rewrite i2d_unfold; destruct Y as [|? [|? ?]]; reflexivity]|]).
  destruct Hin.
Qed.

Lemma d2i_sign key :
  known I2D.vowelSigns key = true ->
  exists S, I2D.get I2D.vowelSigns key = [S]
  /\ known D2I.vowelSigns [S] = true
  /\ D2I.get D2I.vowelSigns [S] = key.
Proof.
  intros H. destruct (known_get_I2D _ _ H) as (v & Hin & ->).
  cbn in Hin.
  repeat (destruct Hin as [Hin|Hin];
    [injection Hin as <- <-; eexists; repeat split; reflexivity|]).
  destruct Hin.
Qed.

(** ** Round trip: the tokens of a Latin text *)

Lemma tokenize x0 t1 : exists out r, Token (x0 :: t1) out r.
Proof.
  destruct (known I2D.consonants [x0]) eqn:Hc.
  - destruct t1 as [|x1 t2].
    { do 2 eexists. apply (TkCons1 x0 []); [assumption|exact I]. }
    destruct (known I2D.consonants [x0; x1]) eqn:H2.
    + destruct t2 as [|x2 t3].
      { do 2 eexists. apply (TkCons2 x0 x1 []); [assumption|exact I]. }
      destruct (Z.eqb_spec x2 Ch.a) as [->|Hna].
      { do 2 eexists. now apply TkAspA. }
      destruct (known I2D.vowelSigns [x2]) eqn:Hs.
      { do 2 eexists. now apply TkCons2Sign. }
      do 2 eexists. apply (TkCons2 x0 x1 (x2 :: t3)); [assumption|].
      split; [now apply Z.eqb_neq|assumption].
    + destruct (Z.eqb_spec x1 Ch.a) as [->|Hna].
      * destruct t2 as [|x2 t3].
        { do 2 eexists. apply (TkCons1A x0 []); [assumption|exact I]. }
        destruct (known I2D.vowelSigns [Ch.a; x2]) eqn:S2.
        { do 2 eexists. now apply TkCons1Sign2. }
        do 2 eexists. apply (TkCons1A x0 (x2 :: t3)); [assumption|].
        rewrite i2d_sign2 in S2. cbn [Z.eqb Ch.a Pos.eqb andb] in S2.
        now apply orb_false_iff in S2.
      * destruct (known I2D.vowelSigns [x1]) eqn:Hs.
        { do 2 eexists. now apply TkCons1Sign. }
        do 2 eexists. apply (TkCons1 x0 (x1 :: t2)); [assumption|].
        repeat split; [now apply Z.eqb_neq|assumption..].
  - destruct (known I2D.vowels [x0]) eqn:Hv.
    + destruct t1 as [|x1 t2].
      { do 2 eexists. apply (TkVowel1 x0 []); [assumption|exact I]. }
      destruct (known I2D.vowels [x0; x1]) eqn:V2.
      * rewrite i2d_vowel2 in V2. apply orb_true_iff in V2.
        destruct V2 as [V2|V2]; apply andb_true_iff in V2; destruct V2 as [E1 E2];
          apply Z.eqb_eq in E1; subst x0.
        -- do 2 eexists. apply TkVowel2. rewrite i2d_sign2.
           now rewrite E2.
        -- apply Z.eqb_eq in E2. subst x1. do 2 eexists. apply TkOm.
      * do 2 eexists. apply (TkVowel1 x0 (x1 :: t2)); assumption.
    + destruct (known I2D.special [x0]) eqn:Hs.
      * do 2 eexists. now apply TkSpecial.
      * do 2 eexists. apply TkOther. now apply i2d_unrecognized.
Qed.

Lemma Token_i2d t out r :
  Token t out r -> iastToDevanagari t = out ++ iastToDevanagari r.
Proof.
  intros H. destruct H.
  - apply i2d_om.
  - now apply i2d_aspirated_a.
  - rewrite <- app_assoc. now apply i2d_cons2_sign.
  - rewrite <- app_assoc. now apply i2d_cons2_bare.
  - rewrite <- app_assoc. now apply i2d_cons1_sign2.
  - rewrite <- app_assoc. now apply i2d_cons1_sign.
  - now apply i2d_cons1_a.
  - rewrite <- app_assoc. now apply i2d_cons1_bare.
  - now apply i2d_vowel2_step.
  - now apply i2d_vowel1_step.
  - now apply i2d_special_step.
  - now apply i2d_copies_unrecognized.
Qed.

Lemma Token_rest t out r :
  Token t out r -> exists p, t = p ++ r /\ p <> [].
Proof.
  intros H. destruct H;
    match goal with
    | |- exists p, ?a :: ?b :: ?c :: ?r = _ /\ _ => exists [a; b; c]
    | |- exists p, ?a :: ?b :: ?r = _ /\ _ => exists [a; b]
    | |- exists p, ?a :: ?r = _ /\ _ => exists [a]
    end; split; (reflexivity || discriminate).
Qed.

(** ** Round trip: what comes back for the first code unit *)

Lemma canon_cases x :
  canon x = x
  \/ (x = Ch.anusvara_below /\ canon x = Ch.anusvara)
  \/ ((0x30 <= x <= 0x39)%Z /\ canon x = (x - 0x30 + 0x966)%Z).
Proof.
  unfold canon.
  destruct (Z.eqb_spec x Ch.anusvara_below); [right; left; auto|].
  destruct (Z.leb_spec 0x30 x); [|now left].
  destruct (Z.leb_spec x 0x39); [|now left].
  right. right. cbn [andb]. split; [lia|reflexivity].
Qed.

Lemma canon_eqb x y :
  y <> Ch.anusvara -> y <> Ch.anusvara_below ->
  ~ (0x30 <= y <= 0x39)%Z -> ~ (0x966 <= y <= 0x96F)%Z ->
  (canon x =? y)%Z = (x =? y)%Z.
Proof.
  intros H1 H2 H3 H4.
  destruct (canon_cases x) as [E|[[E1 E2]|[E1 E2]]]; rewrite E2 || rewrite E;
    try reflexivity.
  - subst x. destruct (Z.eqb_spec Ch.anusvara y); [congruence|].
    destruct (Z.eqb_spec Ch.anusvara_below y); [congruence|reflexivity].
  - destruct (Z.eqb_spec (x - 0x30 + 0x966) y); destruct (Z.eqb_spec x y);
      try reflexivity; exfalso; unfold Ch.anusvara, Ch.anusvara_below in *; lia.
Qed.

Lemma canon_eqb_a x : (canon x =? Ch.a)%Z = (x =? Ch.a)%Z.
Proof. apply canon_eqb; unfold Ch.a; (discriminate || lia). Qed.

Lemma canon_eqb_i x : (canon x =? Ch.i)%Z = (x =? Ch.i)%Z.
Proof. apply canon_eqb; unfold Ch.i; (discriminate || lia). Qed.

Lemma canon_eqb_u x : (canon x =? Ch.u)%Z = (x =? Ch.u)%Z.
Proof. apply canon_eqb; unfold Ch.u; (discriminate || lia). Qed.

Lemma canon_eqb_h x : (canon x =? Ch.h)%Z = (x =? Ch.h)%Z.
Proof. apply canon_eqb; unfold Ch.h; (discriminate || lia). Qed.

Lemma canon_eqb_o x : (canon x =? Ch.o)%Z = (x =? Ch.o)%Z.
Proof. apply canon_eqb; unfold Ch.o; (discriminate || lia). Qed.

Lemma canon_anusvara x :
  canon x = Ch.anusvara -> x = Ch.anusvara \/ x = Ch.anusvara_below.
Proof.
  destruct (canon_cases x) as [E|[[E1 E2]|[E1 E2]]]; rewrite E2 || rewrite E;
    auto.
  unfold Ch.anusvara. lia.
Qed.

Lemma canon_sign x :
  known I2D.vowelSigns [canon x] = true -> canon x = x.
Proof.
  intros H.
  destruct (canon_cases x) as [E|[[E1 E2]|[E1 E2]]]; [assumption|exfalso..];
    rewrite E2 in H.
  - vm_compute in H. discriminate H.
  - destruct (known_In _ _ H) as (v & Hin & _). cbn in Hin.
    repeat (destruct Hin as [Hin|Hin];
      [first [discriminate Hin
             |injection Hin as Hin _;
              cbv [Ch.aa Ch.i Ch.ii Ch.u Ch.uu Ch.rv Ch.rrv Ch.lv Ch.llv
                   Ch.e Ch.o Ch.a] in Hin; lia]|]).
    destruct Hin.
Qed.

Lemma boundary_not_special x :
  I2D.isWordBoundary (Some x) = true -> known I2D.special [x] = false.
Proof.
  intros H. destruct (known I2D.special [x]) eqn:E; [|reflexivity].
  destruct (known_In _ _ E) as (v & Hin & _). cbn in Hin.
  repeat (destruct Hin as [Hin|Hin];
    [injection Hin as <- _; vm_compute in H; discriminate H|]).
  destruct Hin.
Qed.

Lemma needsVirama_sameHead r Y :
  sameHead r Y -> needsVirama r = true -> needsVirama Y = true.
Proof.
  destruct r as [|r0 r'], Y as [|y0 Y']; cbn [sameHead]; try tauto.
  intros -> H. unfold needsVirama, I2D.isConsonantAhead, substring in *.
  cbn [List.length Nat.leb skipn Nat.sub Nat.add nth_error] in *.
  assert (E : known I2D.consonants [r0] = true
              \/ I2D.isWordBoundary (Some r0) = true).
  { apply orb_true_iff in H. destruct H as [H|H]; [left|now right].
    destruct (known I2D.consonants (firstn 2 (r0 :: r'))) eqn:K.
    - destruct r' as [|r1 r'']; [exact K|].
      cbn [firstn] in K. now apply i2d_consonant2 in K.
    - destruct (known I2D.consonants [r0]); [reflexivity|discriminate H]. }
  destruct E as [E|E].
  - destruct (i2d_consonant1 _ E) as (_ & _ & _ & _ & _ & ->).
    rewrite E.
    destruct (known I2D.consonants (firstn 2 (r0 :: Y'))); reflexivity.
  - rewrite (canon_not_special _ (boundary_not_special _ E)), E.
    apply orb_true_r.
Qed.

Lemma Token_head t out r :
  Token t out r -> recognizedD2I (hd 0%Z t) = false ->
  exists U out', out = U :: out'
    /\ known D2I.vowelSigns [U] = false /\ (U =? Ch.virama)%Z = false
    /\ forall Z, exists W, devanagariToIAST (U :: Z) = canon (hd 0%Z t) :: W.
Proof.
  intros H HL.
  assert (Cons : forall key tail,
    known I2D.consonants key = true -> canon (hd 0%Z key) = hd 0%Z key ->
    exists U out', I2D.get I2D.consonants key ++ tail = U :: out'
      /\ known D2I.vowelSigns [U] = false /\ (U =? Ch.virama)%Z = false
      /\ forall Z, exists W, devanagariToIAST (U :: Z) = canon (hd 0%Z key) :: W).
  { intros key tail Hk Hcan.
    destruct (d2i_consonant key Hk) as (C & -> & _ & Hs & Hv & Hhd & _).
    exists C, tail. repeat split; try assumption.
    intros Z. destruct (Hhd Z _ eq_refl) as (W' & E).
    exists W'. now rewrite Hcan. }
  assert (C2 : forall x y, known I2D.consonants [x; y] = true ->
                 canon (hd 0%Z [x; y]) = hd 0%Z [x; y]).
  { intros x y Hk. apply i2d_consonant2 in Hk. destruct Hk as [_ Hk].
    now destruct (i2d_consonant1 _ Hk) as (_ & _ & _ & _ & _ & ?). }
  assert (C1 : forall c, known I2D.consonants [c] = true ->
                 canon (hd 0%Z [c]) = hd 0%Z [c]).
  { intros c Hk. now destruct (i2d_consonant1 _ Hk) as (_ & _ & _ & _ & _ & ?). }
  assert (Vow : forall key,
    known I2D.vowels key = true -> canon (hd 0%Z key) = hd 0%Z key ->
    key <> [] ->
    exists U out', I2D.get I2D.vowels key = U :: out'
      /\ known D2I.vowelSigns [U] = false /\ (U =? Ch.virama)%Z = false
      /\ forall Z, exists W, devanagariToIAST (U :: Z) = canon (hd 0%Z key) :: W).
  { intros key Hk Hcan Hne.
    destruct (d2i_vowel key Hk) as (V & -> & Hs & Hv & Hd).
    exists V, []. repeat split; try assumption.
    intros Z. rewrite Hd, Hcan. destruct key as [|k0 key']; [congruence|].
    cbn [hd app]. eexists. reflexivity. }
  destruct H; cbn [hd] in *.
  - exists Ch.om, []. repeat split; try reflexivity.
    intros Z. rewrite d2i_unfold. eexists. reflexivity.
  - rewrite <- (app_nil_r (I2D.get I2D.consonants [x; y])).
    apply (Cons [x; y] []); [assumption|now apply (C2 x y)].
  - apply (Cons [x; y]); [assumption|now apply (C2 x y)].
  - apply (Cons [x; y]); [assumption|now apply (C2 x y)].
  - apply (Cons [c]); [assumption|now apply C1].
  - apply (Cons [c]); [assumption|now apply C1].
  - rewrite <- (app_nil_r (I2D.get I2D.consonants [c])).
    apply (Cons [c] []); [assumption|now apply C1].
  - apply (Cons [c]); [assumption|now apply C1].
  - apply (Vow [Ch.a; w]); [|reflexivity|discriminate].
    rewrite i2d_vowel2. rewrite i2d_sign2 in H. now rewrite H.
  - apply (Vow [v]); [assumption| |discriminate].
    now destruct (i2d_vowel1 _ H) as (_ & _ & ?).
  - destruct (i2d_special x H) as (S & -> & Hs & Hv & Hd & _).
    exists S, []. repeat split; try assumption.
    intros Z. rewrite Hd. eexists. reflexivity.
  - destruct (recognizedD2I_false _ HL) as (_ & Hs & _ & _ & Hv).
    exists x, []. repeat split.
    + apply (unknown_key _ _ x Hs). now left.
    + now apply Z.eqb_neq.
    + intros Z. rewrite (d2i_copies_unrecognized _ HL).
      rewrite (canon_not_special x) by (apply (unrec_special _ H); now left).
      eexists. reflexivity.
Qed.

(** The conversion of a Latin text never starts with a vowel sign or a
    virama, and [devanagariToIAST] gives back its first code unit up to
    [canon]. *)
Lemma latin_head r :
  latinText r ->
  sameHead r (devanagariToIAST (iastToDevanagari r))
  /\ match r with
     | [] => iastToDevanagari r = []
     | _ :: _ => exists U X, iastToDevanagari r = U :: X
                   /\ known D2I.vowelSigns [U] = false
                   /\ (U =? Ch.virama)%Z = false
     end.
Proof.
  intros HL. destruct r as [|r0 r']; [split; reflexivity|].
  destruct (tokenize r0 r') as (out & r'' & Htk).
  inversion HL as [|? ? H0 _]; subst.
  destruct (Token_head _ _ _ Htk H0) as (U & out' & -> & Hs & Hv & Hd).
  rewrite (Token_i2d _ _ _ Htk). cbn [app hd] in *. split.
  - destruct (Hd (out' ++ iastToDevanagari r'')) as (W & ->). reflexivity.
  - exists U, (out' ++ iastToDevanagari r''). auto.
Qed.

(** ** Round trip: one token there and back *)

Lemma last_app_nonempty (a b : str) d : b <> [] -> last (a ++ b) d = last b d.
Proof.
  intros Hb. induction a as [|x a IH]; [reflexivity|].
  cbn [app]. rewrite <- IH. cbn [last].
  destruct (a ++ b) eqn:E; [|reflexivity].
  destruct a; [cbn in E; congruence|discriminate E].
Qed.

Lemma endsBare_app out X : endsBare (out ++ X) = false -> endsBare X = false.
Proof.
  destruct X as [|x X']; [reflexivity|].
  unfold endsBare. now rewrite last_app_nonempty by discriminate.
Qed.

Lemma occursb_app pat (a b : str) :
  occursb pat (a ++ b) = false -> occursb pat b = false.
Proof.
  induction a as [|x a IH]; [auto|].
  cbn [app occursb]. intros H. apply orb_false_iff in H. now apply IH.
Qed.

Lemma Token_back t out r X :
  Token t out r -> latinText t ->
  match r with
  | [] => X = []
  | r0 :: _ =>
      exists U X', X = U :: X'
        /\ known D2I.vowelSigns [U] = false /\ (U =? Ch.virama)%Z = false
        /\ (r0 = Ch.anusvara_below -> U = 0x902%Z)
  end ->
  endsBare (out ++ X) = false -> hasOAnusvara (out ++ X) = false ->
  exists tok',
    devanagariToIAST (out ++ X) = tok' ++ devanagariToIAST X
    /\ forall Y, sameHead r Y ->
         iastToDevanagari (tok' ++ Y) = out ++ iastToDevanagari Y.
Proof.
  intros H HL HX HB HO.
  (* what [sameHead] carries over from [r] to [Y] *)
  assert (SH : forall Y, sameHead r Y ->
            match r, Y with
            | [], [] => True
            | r0 :: _, y0 :: _ =>
                (y0 =? Ch.a)%Z = (r0 =? Ch.a)%Z
                /\ (y0 =? Ch.i)%Z = (r0 =? Ch.i)%Z
                /\ (y0 =? Ch.u)%Z = (r0 =? Ch.u)%Z
                /\ (y0 =? Ch.h)%Z = (r0 =? Ch.h)%Z
                /\ (known I2D.vowelSigns [r0] = false ->
                    known I2D.vowelSigns [y0] = false)
                /\ (y0 = Ch.anusvara ->
                    r0 = Ch.anusvara \/ r0 = Ch.anusvara_below)
            | _, _ => False
            end).
  { intros Y HY. destruct r as [|r0 r'], Y as [|y0 Y']; cbn [sameHead] in HY;
      try contradiction; [exact I|]. subst y0.
    repeat split; auto using canon_eqb_a, canon_eqb_i, canon_eqb_u, canon_eqb_h,
                    canon_anusvara.
    intros Hs. destruct (known I2D.vowelSigns [canon r0]) eqn:E; [|reflexivity].
    pose proof (canon_sign _ E) as Ec. rewrite Ec in E.
    rewrite E in Hs. discriminate Hs. }
  destruct H.
  - (* om *)
    exists [Ch.o; Ch.anusvara]. split.
    + cbn [app]. rewrite d2i_unfold. reflexivity.
    + intros Y _. apply i2d_om.
  - (* aspirated consonant and a *)
    destruct (d2i_consonant _ H) as (C & EC & HC & _ & _ & _ & _ & _ & _ & Da).
    rewrite EC in *. cbn [app] in *.
    destruct r as [|r0 r'].
    { subst X. unfold endsBare in HB. cbn [last] in HB. congruence. }
    destruct HX as (U & X' & -> & Hs & Hv & _).
    exists [x; y; Ch.a]. split.
    + rewrite Da by assumption. reflexivity.
    + intros Y _. cbn [app]. rewrite i2d_aspirated_a, EC by assumption. reflexivity.
  - (* aspirated consonant and a vowel sign *)
    destruct (d2i_consonant _ H) as (C & EC & _ & _ & _ & _ & _ & Ds & _ & _).
    destruct (d2i_sign _ H0) as (S & ES & HS & GS).
    rewrite EC, ES in *. cbn [app] in *.
    exists [x; y; v]. split.
    + rewrite Ds, GS by assumption. reflexivity.
    + intros Y _. cbn [app]. rewrite i2d_cons2_sign, EC, ES by assumption. reflexivity.
  - (* aspirated consonant, no vowel *)
    destruct (d2i_consonant _ H) as (C & EC & _ & _ & _ & _ & _ & _ & Dv & Da).
    rewrite EC in *. cbn [app] in *.
    destruct (needsVirama r) eqn:NV.
    + exists [x; y]. cbn [app]. split; [apply Dv|].
      intros Y HY. specialize (SH Y HY).
      rewrite i2d_cons2_bare, EC, (needsVirama_sameHead _ _ HY NV); auto.
      destruct r as [|r0 r'], Y as [|y0 Y']; try contradiction; [exact I|].
      destruct SH as (Ea & _ & _ & _ & Es & _). destruct H0 as [Ha Hs].
      split; [congruence|auto].
    + destruct r as [|r0 r']; [discriminate NV|].
      destruct HX as (U & X' & -> & Hs & Hv & _).
      exists [x; y; Ch.a]. cbn [app]. split.
      * rewrite Da by assumption. reflexivity.
      * intros Y _. rewrite i2d_aspirated_a, EC by assumption. reflexivity.
  - (* consonant and ai, au *)
    destruct (d2i_consonant _ H) as (C & EC & _ & _ & _ & _ & _ & Ds & _ & _).
    destruct (d2i_sign _ H0) as (S & ES & HS & GS).
    rewrite EC, ES in *. cbn [app] in *.
    exists [c; Ch.a; w]. split.
    + rewrite Ds, GS by assumption. reflexivity.
    + intros Y _. cbn [app]. rewrite i2d_cons1_sign2, EC, ES by assumption.
      reflexivity.
  - (* consonant and a vowel sign *)
    destruct (d2i_consonant _ H) as (C & EC & _ & _ & _ & _ & _ & Ds & _ & _).
    destruct (d2i_sign _ H0) as (S & ES & HS & GS).
    rewrite EC, ES in *. cbn [app] in *.
    exists [c; v]. split.
    + rewrite Ds, GS by assumption. reflexivity.
    + intros Y _. cbn [app]. rewrite i2d_cons1_sign, EC, ES by assumption.
      reflexivity.
  - (* consonant and the inherent a *)
    destruct (d2i_consonant _ H) as (C & EC & HC & _ & _ & _ & _ & _ & _ & Da).
    rewrite EC in *. cbn [app] in *.
    destruct r as [|r0 r'].
    { subst X. unfold endsBare in HB. cbn [last] in HB. congruence. }
    destruct HX as (U & X' & -> & Hs & Hv & _).
    exists [c; Ch.a]. split.
    + rewrite Da by assumption. reflexivity.
    + intros Y HY. specialize (SH Y HY). cbn [app].
      rewrite i2d_cons1_a, EC; auto.
      destruct Y as [|y0 Y']; [exact I|].
      destruct SH as (_ & Ei & Eu & _). destruct H0 as [Hi Hu].
      split; congruence.
  - (* consonant, no vowel *)
    destruct (d2i_consonant _ H) as (C & EC & _ & _ & _ & _ & _ & _ & Dv & Da).
    rewrite EC in *. cbn [app] in *.
    destruct (needsVirama r) eqn:NV.
    + exists [c]. cbn [app]. split; [apply Dv|].
      intros Y HY. specialize (SH Y HY).
      rewrite i2d_cons1_bare, EC, (needsVirama_sameHead _ _ HY NV); auto.
      destruct r as [|r0 r'], Y as [|y0 Y']; try contradiction; [exact I|].
      destruct SH as (Ea & _ & _ & Eh & Es & _). destruct H0 as (Ha & Hs & K2).
      repeat split; [congruence|auto|].
      destruct (known I2D.consonants [c; y0]) eqn:K; [|reflexivity].
      destruct (i2d_consonant2 _ _ K) as [-> _].
      rewrite Z.eqb_refl in Eh. symmetry in Eh. apply Z.eqb_eq in Eh.
      subst r0. congruence.
    + destruct r as [|r0 r']; [discriminate NV|].
      destruct HX as (U & X' & -> & Hs & Hv & _).
      exists [c; Ch.a]. cbn [app]. split.
      * rewrite Da by assumption. reflexivity.
      * intros Y HY. specialize (SH Y HY).
        rewrite i2d_cons1_a, EC; auto.
        destruct Y as [|y0 Y']; [exact I|].
        destruct SH as (_ & Ei & Eu & _). destruct H0 as (_ & Hs0 & _).
        rewrite Ei, Eu. split.
        -- destruct (Z.eqb_spec r0 Ch.i) as [->|]; [|reflexivity].
           vm_compute in Hs0. discriminate Hs0.
        -- destruct (Z.eqb_spec r0 Ch.u) as [->|]; [|reflexivity].
           vm_compute in Hs0. discriminate Hs0.
  - (* ai, au *)
    assert (Hk : known I2D.vowels [Ch.a; w] = true).
    { rewrite i2d_vowel2. rewrite i2d_sign2 in H. now rewrite H. }
    destruct (d2i_vowel _ Hk) as (V & EV & _ & _ & Dv).
    rewrite EV in *. cbn [app] in *.
    exists [Ch.a; w]. split; [apply Dv|].
    intros Y _. cbn [app]. rewrite i2d_vowel2_step, EV by assumption. reflexivity.
  - (* one-unit vowel *)
    destruct (d2i_vowel _ H) as (V & EV & _ & _ & Dv).
    exists [v]. split.
    + rewrite EV. cbn [app]. apply Dv.
    + intros Y HY. specialize (SH Y HY). cbn [app].
      rewrite i2d_vowel1_step; auto.
      destruct r as [|r0 r'], Y as [|y0 Y']; try contradiction; [exact I|].
      destruct SH as (_ & Ei & Eu & _ & _ & Em).
      rewrite i2d_vowel2 in H0 |- *. rewrite Ei, Eu.
      apply orb_false_iff in H0. destruct H0 as [H1 H2].
      rewrite H1. cbn [orb].
      destruct (Z.eqb_spec v Ch.o) as [->|]; [|reflexivity].
      destruct (Z.eqb_spec y0 Ch.anusvara) as [Ey|]; [|reflexivity].
      exfalso. destruct (Em Ey) as [->| ->].
      * vm_compute in H2. discriminate H2.
      * destruct HX as (U & X' & -> & _ & _ & HU).
        rewrite (HU eq_refl) in HO. vm_compute in HO. discriminate HO.
  - (* special sign *)
    destruct (i2d_special x H) as (S & ES & _ & _ & Dv & Iv).
    rewrite ES in *. cbn [app] in *.
    exists [canon x]. split; [apply Dv|].
    intros Y _. cbn [app]. now apply Iv.
  - (* any other code unit *)
    inversion HL as [|? ? H0 _]; subst.
    exists [x]. cbn [app]. split.
    + now apply d2i_copies_unrecognized.
    + intros Y _. now apply i2d_copies_unrecognized.
Qed.

(** ** Round trip *)

Lemma roundtrip_len n :
  forall t, List.length t <= n -> latinText t ->
  endsBare (iastToDevanagari t) = false ->
  hasOAnusvara (iastToDevanagari t) = false ->
  iastToDevanagari (devanagariToIAST (iastToDevanagari t))
  = iastToDevanagari t.
Proof.
  induction n as [|n IH]; intros t Hn HL HB HO.
  { destruct t; [reflexivity|cbn in Hn; lia]. }
  destruct t as [|x0 t1]; [reflexivity|].
  destruct (tokenize x0 t1) as (out & r & Htk).
  destruct (Token_rest _ _ _ Htk) as (p & Ep & Hp).
  rewrite (Token_i2d _ _ _ Htk) in *.
  assert (HLr : latinText r).
  { unfold latinText in *. rewrite Ep in HL. apply Forall_app in HL. tauto. }
  assert (Hlen : List.length r <= n).
  { rewrite Ep, length_app in Hn. destruct p; [congruence|].
    cbn [List.length] in Hn. lia. }
  set (X := iastToDevanagari r) in *.
  destruct (latin_head r HLr) as [Hsame Hshape]. fold X in Hsame, Hshape.
  assert (HX : match r with
               | [] => X = []
               | r0 :: _ =>
                   exists U X', X = U :: X'
                     /\ known D2I.vowelSigns [U] = false
                     /\ (U =? Ch.virama)%Z = false
                     /\ (r0 = Ch.anusvara_below -> U = 0x902%Z)
               end).
  { destruct r as [|r0 r']; [exact Hshape|].
    destruct Hshape as (U & X' & EX & Hs & Hv).
    exists U, X'. repeat split; try assumption.
    intros ->. subst X.
    rewrite i2d_special_step in EX by reflexivity.
    cbn in EX. now injection EX as <- _. }
  destruct (Token_back _ _ _ X Htk HL HX HB HO) as (tok' & Hd & Hi).
  rewrite Hd, (Hi _ Hsame). f_equal.
  apply IH; try assumption.
  - now apply endsBare_app in HB.
  - now apply occursb_app in HO.
Qed.

(** C1, as stated, fails: "ka" becomes the glyph ka, which comes back as
    "k", which becomes the glyph ka with a virama. *)
Lemma roundtrip_fails_on_ka :
  iastToDevanagari (devanagariToIAST (iastToDevanagari Ex.ka))
  <> iastToDevanagari Ex.ka.
Proof. vm_compute. discriminate. Qed.

(** C1, amended.  For a Latin text, free of the code units that
    [devanagariToIAST] recognizes, whose Devanagari form does not end in a
    consonant glyph carrying its inherent vowel and does not hold the
    independent vowel o directly followed by the anusvara sign, converting
    the Devanagari form to Latin and back gives the Devanagari form again. *)
Theorem roundtrip_stable t :
  latinText t ->
  endsBare (iastToDevanagari t) = false ->
  hasOAnusvara (iastToDevanagari t) = false ->
  iastToDevanagari (devanagariToIAST (iastToDevanagari t))
  = iastToDevanagari t.
Proof. apply (roundtrip_len (List.length t)). reflexivity. Qed.

Lemma roundtrip_stable_witness :
  latinText Ex.rama_iti
  /\ endsBare (iastToDevanagari Ex.rama_iti) = false
  /\ hasOAnusvara (iastToDevanagari Ex.rama_iti) = false
  /\ iastToDevanagari (devanagariToIAST (iastToDevanagari Ex.rama_iti))
     = iastToDevanagari Ex.rama_iti.
Proof.
  assert (HL : latinText Ex.rama_iti) by (repeat constructor).
  split; [exact HL|]. split; [reflexivity|]. split; [reflexivity|].
  apply (roundtrip_stable Ex.rama_iti HL); reflexivity.
Defined.

(** ** The classifier: one reading for each position *)

Lemma consonant_units x :
  has ALL_CONSONANTS [x] = true ->
  has VOWELS [x] = false /\ isSvaraMark x = false /\ is_space x = false
  /\ x <> Ch.pipe /\ x <> Ch.a /\ x <> Ch.i /\ x <> Ch.u.
Proof.
  intros H. apply has_In in H. cbn in H.
  repeat (destruct H as [H|H];
          [first [discriminate H
                 |injection H as <-;
                  repeat split; try reflexivity;
                  intro E; vm_compute in E; discriminate E]|]).
  destruct H.
Qed.

Lemma vowel_units x :
  has VOWELS [x] = true ->
  has ALL_CONSONANTS [x] = false /\ isSvaraMark x = false /\ is_space x = false
  /\ x <> Ch.pipe.
Proof.
  intros H. apply has_In in H. cbn in H.
  repeat (destruct H as [H|H];
          [first [discriminate H
                 |injection H as <-;
                  repeat split; try reflexivity;
                  intro E; vm_compute in E; discriminate E]|]).
  destruct H.
Qed.

Lemma svara_units x :
  isSvaraMark x = true ->
  has ALL_CONSONANTS [x] = false /\ has VOWELS [x] = false
  /\ is_space x = false /\ x <> Ch.pipe.
Proof.
  intros H. apply has_In in H. cbn in H.
  repeat (destruct H as [H|H];
          [first [discriminate H
                 |injection H as <-;
                  repeat split; try reflexivity;
                  intro E; vm_compute in E; discriminate E]|]).
  destruct H.
Qed.

Lemma two_char_first x y :
  has TWO_CHAR_CONSONANTS [x; y] = true -> has ALL_CONSONANTS [x] = true.
Proof.
  intros H. apply has_In in H. cbn in H.
  repeat (destruct H as [H|H];
          [first [discriminate H | injection H as <- <-; reflexivity]|]).
  destruct H.
Qed.

Lemma two_unit_vowel x y :
  has VOWELS [x; y] = true -> x = Ch.a /\ (y = Ch.i \/ y = Ch.u).
Proof.
  intros H. apply has_In in H. cbn in H.
  repeat (destruct H as [H|H];
          [first [discriminate H
                 |injection H as <- <-; split; [reflexivity|tauto]]|]).
  destruct H.
Qed.

(** What [substring] gives inside the text. *)
Lemma substring_two (text : str) pos x y :
  nth_error text pos = Some x -> nth_error text (pos + 1) = Some y ->
  substring text pos (pos + 2) = [x; y].
Proof.
  intros Hx Hy. unfold substring.
  replace (pos + 2 - pos) with 2 by lia.
  rewrite <- (Nat.add_0_r pos) in Hx.
  rewrite <- nth_error_skipn in Hx. rewrite <- nth_error_skipn in Hy.
  destruct (skipn pos text) as [|a [|b r]]; cbn in *; congruence.
Qed.

Lemma substring_one (text : str) pos x :
  nth_error text pos = Some x -> substring text pos (pos + 1) = [x].
Proof.
  intros Hx. unfold substring.
  replace (pos + 1 - pos) with 1 by lia.
  rewrite <- (Nat.add_0_r pos) in Hx. rewrite <- nth_error_skipn in Hx.
  destruct (skipn pos text) as [|a r]; cbn in *; congruence.
Qed.

Lemma isConsonant_cases text pos c :
  isConsonant text pos = Some c ->
  exists x, nth_error text pos = Some x /\ has ALL_CONSONANTS [x] = true
    /\ (c = [x]
        \/ (nth_error text (pos + 1) = Some Ch.h /\ c = [x; Ch.h]
            /\ has TWO_CHAR_CONSONANTS c = true)).
Proof.
  unfold isConsonant. intros H.
  destruct (List.length text <=? pos) eqn:El; [discriminate|].
  apply Nat.leb_gt in El.
  destruct (nth_error text pos) as [x|] eqn:Ex;
    [|apply nth_error_None in Ex; lia].
  exists x. split; [reflexivity|].
  destruct (pos + 1 <? List.length text) eqn:E1; cbn [andb] in H.
  - apply Nat.ltb_lt in E1.
    destruct (nth_error text (pos + 1)) as [y|] eqn:Ey;
      [|apply nth_error_None in Ey; lia].
    rewrite (substring_two _ _ _ _ Ex Ey) in H.
    destruct (has TWO_CHAR_CONSONANTS [x; y]) eqn:E2.
    + injection H as <-. pose proof (two_char_second_h _ _ E2) as ->.
      split; [now apply (two_char_first _ _ E2)|]. right. auto.
    + destruct (has ALL_CONSONANTS [x]) eqn:E3; [|discriminate].
      injection H as <-. split; [reflexivity|now left].
  - destruct (has ALL_CONSONANTS [x]) eqn:E3; [|discriminate].
    injection H as <-. split; [reflexivity|now left].
Qed.

Lemma isVowel_cases text pos v :
  isVowel text pos = Some v ->
  exists x, nth_error text pos = Some x /\ has VOWELS [x] = true
    /\ (v = [x]
        \/ (x = Ch.a /\ exists y, nth_error text (pos + 1) = Some y
                                  /\ (y = Ch.i \/ y = Ch.u) /\ v = [x; y])).
Proof.
  unfold isVowel. intros H.
  destruct (List.length text <=? pos) eqn:El; [discriminate|].
  apply Nat.leb_gt in El.
  destruct (nth_error text pos) as [x|] eqn:Ex;
    [|apply nth_error_None in Ex; lia].
  exists x. split; [reflexivity|].
  destruct (pos + 1 <? List.length text) eqn:E1; cbn [andb] in H.
  - apply Nat.ltb_lt in E1.
    destruct (nth_error text (pos + 1)) as [y|] eqn:Ey;
      [|apply nth_error_None in Ey; lia].
    rewrite (substring_two _ _ _ _ Ex Ey) in H.
    destruct (has VOWELS [x; y]) eqn:E2.
    + injection H as <-. destruct (two_unit_vowel _ _ E2) as [-> Hy].
      split; [reflexivity|]. right. split; [reflexivity|]. exists y. auto.
    + destruct (has VOWELS [x]) eqn:E3; [|discriminate].
      injection H as <-. split; [reflexivity|now left].
  - destruct (has VOWELS [x]) eqn:E3; [|discriminate].
    injection H as <-. split; [reflexivity|now left].
Qed.

Lemma isConsonant_None_unit text pos x :
  nth_error text pos = Some x -> has ALL_CONSONANTS [x] = false ->
  isConsonant text pos = None.
Proof.
  intros Hx Hc. destruct (isConsonant text pos) as [c|] eqn:E; [|reflexivity].
  destruct (isConsonant_cases _ _ _ E) as (x' & Hx' & Hc' & _).
  congruence.
Qed.

Lemma isVowel_None_unit text pos x :
  nth_error text pos = Some x -> has VOWELS [x] = false ->
  isVowel text pos = None.
Proof.
  intros Hx Hc. destruct (isVowel text pos) as [c|] eqn:E; [|reflexivity].
  destruct (isVowel_cases _ _ _ E) as (x' & Hx' & Hc' & _).
  congruence.
Qed.

Lemma classifier_past_end text pos :
  List.length text <= pos -> isConsonant text pos = None /\ isVowel text pos = None.
Proof.
  intros H. apply Nat.leb_le in H. unfold isConsonant, isVowel.
  now rewrite H.
Qed.

(** X1.  The classifier reads a position in at most one way: a position
    where [isConsonant] answers is not one where [isVowel] answers, and the
    code unit there is neither a tone mark, nor whitespace, nor the pause
    glyph; likewise for a vowel and for a tone mark. *)
Theorem classifier_exclusive text pos x :
  nth_error text pos = Some x ->
  (isConsonant text pos <> None ->
   isVowel text pos = None /\ isSvaraMark x = false
   /\ is_space x = false /\ x <> Ch.pipe)
  /\ (isVowel text pos <> None ->
      isConsonant text pos = None /\ isSvaraMark x = false
      /\ is_space x = false /\ x <> Ch.pipe)
  /\ (isSvaraMark x = true ->
      isConsonant text pos = None /\ isVowel text pos = None
      /\ is_space x = false /\ x <> Ch.pipe).
Proof.
  intros Hx. split; [|split].
  - intros Hc. destruct (isConsonant text pos) as [c|] eqn:E; [|contradiction].
    destruct (isConsonant_cases _ _ _ E) as (x' & Hx' & Hu & _).
    assert (x' = x) as -> by congruence.
    destruct (consonant_units _ Hu) as (Hv & Hs & Hw & Hp & _).
    split; [now apply (isVowel_None_unit _ _ x)|auto].
  - intros Hc. destruct (isVowel text pos) as [v|] eqn:E; [|contradiction].
    destruct (isVowel_cases _ _ _ E) as (x' & Hx' & Hu & _).
    assert (x' = x) as -> by congruence.
    destruct (vowel_units _ Hu) as (Hv & Hs & Hw & Hp).
    split; [now apply (isConsonant_None_unit _ _ x)|auto].
  - intros Hm. destruct (svara_units _ Hm) as (Hc & Hv & Hw & Hp).
    split; [now apply (isConsonant_None_unit _ _ x)|].
    split; [now apply (isVowel_None_unit _ _ x)|auto].
Qed.

Lemma classifier_exclusive_witness :
  nth_error Ex.akta 1 = Some Ch.k
  /\ isConsonant Ex.akta 1 <> None
  /\ isVowel Ex.akta 1 = None /\ isSvaraMark Ch.k = false.
Proof.
  assert (Hx : nth_error Ex.akta 1 = Some Ch.k) by reflexivity.
  assert (Hc : isConsonant Ex.akta 1 <> None) by (vm_compute; discriminate).
  split; [exact Hx|]. split; [exact Hc|].
  destruct (proj1 (classifier_exclusive Ex.akta 1 Ch.k Hx) Hc) as (Hv & Hs & _).
  split; assumption.
Defined.

(** X2.  What the classifier returns is the text at the position asked
    about: one or two code units that lie within the text.  At or past the
    end of the text it returns nothing. *)
Theorem classifier_unit_in_text text pos :
  (forall u, isConsonant text pos = Some u \/ isVowel text pos = Some u ->
     substring text pos (pos + List.length u) = u
     /\ 1 <= List.length u <= 2
     /\ pos + List.length u <= List.length text)
  /\ (List.length text <= pos ->
      isConsonant text pos = None /\ isVowel text pos = None).
Proof.
  split; [|apply classifier_past_end].
  assert (Hin : forall i x, nth_error text i = Some x -> i < List.length text).
  { intros i x E. apply nth_error_Some. congruence. }
  intros u [H|H].
  - destruct (isConsonant_cases _ _ _ H) as (x & Hx & _ & [->|(Hy & -> & _)]).
    + cbn [List.length]. rewrite (substring_one _ _ _ Hx).
      pose proof (Hin _ _ Hx). repeat split; lia.
    + cbn [List.length]. rewrite (substring_two _ _ _ _ Hx Hy).
      pose proof (Hin _ _ Hy). repeat split; lia.
  - destruct (isVowel_cases _ _ _ H)
      as (x & Hx & _ & [->|(_ & y & Hy & _ & ->)]).
    + cbn [List.length]. rewrite (substring_one _ _ _ Hx).
      pose proof (Hin _ _ Hx). repeat split; lia.
    + cbn [List.length]. rewrite (substring_two _ _ _ _ Hx Hy).
      pose proof (Hin _ _ Hy). repeat split; lia.
Qed.

Lemma classifier_unit_in_text_witness :
  isConsonant [Ch.a; Ch.k; Ch.h; Ch.a] 1 = Some [Ch.k; Ch.h]
  /\ substring [Ch.a; Ch.k; Ch.h; Ch.a] 1 (1 + 2) = [Ch.k; Ch.h]
  /\ isConsonant [Ch.a; Ch.k; Ch.h; Ch.a] 4 = None.
Proof.
  split; [reflexivity|]. split.
  - apply (proj1 (classifier_unit_in_text [Ch.a; Ch.k; Ch.h; Ch.a] 1)
             [Ch.k; Ch.h]).
    left. reflexivity.
  - apply (proj2 (classifier_unit_in_text [Ch.a; Ch.k; Ch.h; Ch.a] 4)).
    cbn. lia.
Defined.

(** ** The normalizer: what it writes *)

Lemma replaceChars_length text :
  let text1 := replaceChar 0x951 [Ch.svarita] text in
  let text2 := replaceChar 0x952 [Ch.anudatta] text1 in
  let text3 := replaceChar 0x332 [Ch.anudatta] text2 in
  let text4 := replaceChar 0x320 [Ch.anudatta] text3 in
  let text5 := replaceChar 0x321 [Ch.anudatta] text4 in
  let text6 := replaceChar 0x1CDA [Ch.udatta] text5 in
  let text7 := replaceChar 0x341 [Ch.udatta] text6 in
  let text8 := replaceChar Ch.anusvara_below [Ch.anusvara] text7 in
  let text9 := replaceChar Ch.omacron [Ch.o] text8 in
  let text10 := replaceChar Ch.emacron [Ch.e] text9 in
  List.length text10 = List.length text
  /\ (~ In Ch.lparen text -> ~ In Ch.lparen text10).
Proof.
  cbv zeta. split.
  - now rewrite !replaceChar_length.
  - intros Hp H.
    repeat (apply replaceChar_units in H;
            destruct H as [H|[H _]]; [vm_compute in H; discriminate H|]).
    contradiction.
Qed.

Lemma preProcessRawText_length text :
  List.length (preProcessRawText text) <= List.length text.
Proof.
  unfold preProcessRawText.
  repeat (etransitivity; [apply replaceAll_length; cbn; lia|]).
  now rewrite !replaceChar_length.
Qed.

Lemma replaceAll_absent_unit c (u : str) :
  ~ In c u -> forall pat r, In c pat -> replaceAll pat r u = u.
Proof.
  intros Hn pat r Hc. unfold replaceAll. apply replaceAll_go_absent.
  destruct (occursb pat u) eqn:Ho; [|reflexivity].
  exfalso. apply Hn. now apply (occursb_units pat u).
Qed.

Lemma preProcessRawText_length_plain text :
  ~ In Ch.lparen text ->
  List.length (preProcessRawText text) = List.length text.
Proof.
  intros Hp. destruct (replaceChars_length text) as [Hl Hn].
  cbv zeta in Hl, Hn. specialize (Hn Hp).
  cbv beta zeta delta [preProcessRawText].
  rewrite !(replaceAll_absent_unit Ch.lparen _ Hn) by (now left).
  exact Hl.
Qed.

(** X3.  After [preProcessRawText] the text holds none of the ten variant
    code units (the Vedic and variant tone marks, the anusvara with a dot
    below, o and e with a macron). *)
Theorem normalize_removes_variants text :
  Forall (fun v => ~ In v (preProcessRawText text)) variantUnits.
Proof.
  apply Forall_forall. intros v Hv. now apply preProcessRawText_no_variant.
Qed.

(** X4.  [preProcessRawText] never makes a text longer, and keeps the length
    of a text with no opening parenthesis; it writes no code unit that was
    not in the text, the three standard tone marks, the anusvara with a dot
    above, o and e apart. *)
Theorem normalize_never_grows text :
  List.length (preProcessRawText text) <= List.length text
  /\ (~ In Ch.lparen text ->
      List.length (preProcessRawText text) = List.length text)
  /\ (forall x, In x (preProcessRawText text) ->
        In x text
        \/ In x [Ch.svarita; Ch.anudatta; Ch.udatta; Ch.anusvara; Ch.o; Ch.e]).
Proof.
  split; [apply preProcessRawText_length|].
  split; [apply preProcessRawText_length_plain|].
  intros x Hx.
  pose proof (in_dec Z.eq_dec x text) as [Hin|Hout]; [left; exact Hin|right].
  pose proof (in_dec Z.eq_dec x
                [Ch.svarita; Ch.anudatta; Ch.udatta; Ch.anusvara; Ch.o; Ch.e])
    as [H6|H6]; [exact H6|exfalso].
  apply (preProcessRawText_keeps_absent text x Hout); [..|exact Hx];
    intros ->; apply H6; cbn; tauto.
Qed.

Lemma normalize_never_grows_witness :
  ~ In Ch.lparen Ex.rama_iti
  /\ List.length (preProcessRawText Ex.rama_iti) = List.length Ex.rama_iti.
Proof.
  assert (Hp : ~ In Ch.lparen Ex.rama_iti) by (vm_compute; intuition discriminate).
  split; [exact Hp|].
  apply (proj1 (proj2 (normalize_never_grows Ex.rama_iti)) Hp).
Defined.

(** ** [findPreviousVowel]: the nearest vowel before a position *)

Lemma passedOver_extend text b lo i y :
  nth_error text i = Some y ->
  is_space y && b = false ->
  y <> Ch.anusvara -> y <> Ch.anusvara_below -> y <> Ch.visarga ->
  isVowel text i = None ->
  passedOver text b lo i -> passedOver text b lo (S i).
Proof.
  intros Hy H1 H2 H3 H4 H5 Hp j z Hj Hz.
  destruct (Nat.eq_dec j i) as [->|Hne].
  - assert (z = y) as -> by congruence. auto.
  - apply (Hp j z); [lia|assumption].
Qed.

Lemma passedOver_empty text b i : passedOver text b i i.
Proof. intros j y Hj. lia. Qed.

Lemma findPreviousVowel_loop_spec text b n :
  n <= List.length text ->
  (exists i x v, i < n /\ nth_error text i = Some x
     /\ findPreviousVowel_loop text b n = PrevVowel v false (Z.of_nat i)
     /\ ((v = [x] /\ (x = Ch.anusvara \/ x = Ch.anusvara_below \/ x = Ch.visarga))
         \/ isVowel text i = Some v)
     /\ passedOver text b (S i) n)
  \/ (b = true /\ findPreviousVowel_loop text b n = PrevVowel [] true (-1)
      /\ exists i x, i < n /\ nth_error text i = Some x /\ is_space x = true
           /\ passedOver text b (S i) n)
  \/ (findPreviousVowel_loop text b n = PrevVowel [] false (-1)
      /\ passedOver text b 0 n).
Proof.
  induction n as [|i IH]; intros Hn.
  - right. right. split; [reflexivity|apply passedOver_empty].
  - cbn [findPreviousVowel_loop].
    destruct (nth_error text i) as [c|] eqn:Ec;
      [|apply nth_error_None in Ec; lia].
    assert (Hskip :
      is_space c && b = false -> c <> Ch.anusvara -> c <> Ch.anusvara_below ->
      c <> Ch.visarga -> isVowel text i = None ->
      (exists i0 x v, i0 < S i /\ nth_error text i0 = Some x
         /\ findPreviousVowel_loop text b i = PrevVowel v false (Z.of_nat i0)
         /\ ((v = [x] /\ (x = Ch.anusvara \/ x = Ch.anusvara_below
                          \/ x = Ch.visarga))
             \/ isVowel text i0 = Some v)
         /\ passedOver text b (S i0) (S i))
      \/ (b = true /\ findPreviousVowel_loop text b i = PrevVowel [] true (-1)
          /\ exists i0 x, i0 < S i /\ nth_error text i0 = Some x
               /\ is_space x = true /\ passedOver text b (S i0) (S i))
      \/ (findPreviousVowel_loop text b i = PrevVowel [] false (-1)
          /\ passedOver text b 0 (S i))).
    { intros H1 H2 H3 H4 H5.
      destruct (IH ltac:(lia)) as [(i0 & x & v & Hi & Hx & E & Hv & Hp)
                                  |[(Hb & E & i0 & x & Hi & Hx & Hs & Hp)
                                   |(E & Hp)]].
      - left. exists i0, x, v.
        split; [lia|]. split; [assumption|]. split; [assumption|].
        split; [assumption|]. now apply (passedOver_extend _ _ _ _ c).
      - right. left. split; [assumption|]. split; [assumption|].
        exists i0, x.
        split; [lia|]. split; [assumption|]. split; [assumption|].
        now apply (passedOver_extend _ _ _ _ c).
      - right. right. split; [assumption|].
        now apply (passedOver_extend _ _ _ _ c). }
    destruct (c =? Ch.pipe)%Z eqn:Epipe.
    { apply Z.eqb_eq in Epipe. subst c. apply Hskip.
      - reflexivity.
      - intro E; vm_compute in E; discriminate E.
      - intro E; vm_compute in E; discriminate E.
      - intro E; vm_compute in E; discriminate E.
      - now apply (isVowel_None_unit _ _ Ch.pipe). }
    destruct (isSvaraMark c) eqn:Emark.
    { destruct (svara_units _ Emark) as (Hc & Hv & Hw & _).
      apply Hskip.
      - now rewrite Hw.
      - intros ->. vm_compute in Emark. discriminate Emark.
      - intros ->. vm_compute in Emark. discriminate Emark.
      - intros ->. vm_compute in Emark. discriminate Emark.
      - now apply (isVowel_None_unit _ _ c). }
    destruct (is_space c && b) eqn:Esp.
    { right. left. apply andb_prop in Esp. destruct Esp as [Hs ->].
      split; [reflexivity|]. split; [reflexivity|].
      exists i, c.
      split; [lia|]. split; [assumption|]. split; [assumption|].
      apply passedOver_empty. }
    destruct ((c =? Ch.anusvara)%Z || (c =? Ch.anusvara_below)%Z
              || (c =? Ch.visarga)%Z) eqn:En.
    { left. exists i, c, [c].
      split; [lia|]. split; [assumption|]. split; [reflexivity|].
      split; [|apply passedOver_empty].
      left. split; [reflexivity|].
      apply orb_prop in En. destruct En as [En|En];
        [apply orb_prop in En; destruct En as [En|En]|];
        apply Z.eqb_eq in En; tauto. }
    apply orb_false_elim in En. destruct En as [En E3].
    apply orb_false_elim in En. destruct En as [E1 E2].
    apply Z.eqb_neq in E1, E2, E3.
    destruct (isVowel text i) as [v|] eqn:Ev.
    { left. exists i, c, v.
      split; [lia|]. split; [assumption|]. split; [reflexivity|].
      split; [now right|apply passedOver_empty]. }
    now apply Hskip.
Qed.

Lemma isVowel_Some_unit text pos x :
  nth_error text pos = Some x -> has VOWELS [x] = true ->
  isVowel text pos <> None.
Proof.
  intros Hx Hv. unfold isVowel.
  assert (Hl : pos < List.length text) by (apply nth_error_Some; congruence).
  apply Nat.leb_gt in Hl. rewrite Hl, Hx, Hv.
  destruct (_ && _); discriminate.
Qed.

Lemma findPreviousVowel_single text pos b c :
  isConsonant text pos = Some c ->
  List.length (vowel (findPreviousVowel text pos b)) <= 1.
Proof.
  intros Hc. unfold findPreviousVowel.
  destruct (isConsonant_cases _ _ _ Hc) as (x & Hx & Hux & _).
  assert (Hpos : pos <= List.length text).
  { apply Nat.lt_le_incl. apply nth_error_Some. congruence. }
  destruct (findPreviousVowel_loop_spec text b pos Hpos)
    as [(i & y & v & Hi & Hy & E & Hv & Hp)|[(_ & E & _)|(E & _)]];
    rewrite E; cbn [vowel List.length]; try lia.
  destruct Hv as [[-> _]|Hv]; [cbn; lia|].
  destruct (isVowel_cases _ _ _ Hv)
    as (y' & Hy' & _ & [->|(_ & z & Hz & Hiu & ->)]); [cbn; lia|].
  exfalso.
  assert (Hzv : has VOWELS [z] = true) by (destruct Hiu as [->| ->]; reflexivity).
  destruct (Nat.eq_dec (i + 1) pos) as [Heq|Hne].
  - rewrite Heq in Hz. assert (z = x) as -> by congruence.
    destruct (consonant_units _ Hux) as (Hnv & _). congruence.
  - destruct (Hp (i + 1) z ltac:(lia) Hz) as (_ & _ & _ & _ & Hnone).
    now apply (isVowel_Some_unit _ _ _ Hz Hzv).
Qed.

(** X5.  [findPreviousVowel] reports the nearest code unit before [pos] that
    is an anusvara, a visarga or the start of a vowel, with its index; when
    it blocks at whitespace and whitespace comes first, it reports the block
    with no vowel; when nothing of the kind precedes [pos], it reports
    neither.  The pause glyph and the tone marks never stop the scan. *)
Theorem findPreviousVowel_nearest text pos b :
  pos <= List.length text ->
  (exists i x v, i < pos /\ nth_error text i = Some x
     /\ findPreviousVowel text pos b = PrevVowel v false (Z.of_nat i)
     /\ ((v = [x] /\ (x = Ch.anusvara \/ x = Ch.anusvara_below \/ x = Ch.visarga))
         \/ isVowel text i = Some v)
     /\ passedOver text b (S i) pos)
  \/ (b = true /\ findPreviousVowel text pos b = PrevVowel [] true (-1)
      /\ exists i x, i < pos /\ nth_error text i = Some x /\ is_space x = true
           /\ passedOver text b (S i) pos)
  \/ (findPreviousVowel text pos b = PrevVowel [] false (-1)
      /\ passedOver text b 0 pos).
Proof. apply findPreviousVowel_loop_spec. Qed.

Lemma findPreviousVowel_nearest_witness :
  3 <= List.length Ex.an_pipe_ka
  /\ exists i, findPreviousVowel Ex.an_pipe_ka 3 true
               = PrevVowel [Ch.a] false (Z.of_nat i)
               /\ passedOver Ex.an_pipe_ka true (S i) 3.
Proof.
  assert (Hl : 3 <= List.length Ex.an_pipe_ka) by (cbn; lia).
  assert (F : findPreviousVowel Ex.an_pipe_ka 3 true = PrevVowel [Ch.a] false 0)
    by reflexivity.
  split; [exact Hl|].
  destruct (findPreviousVowel_nearest Ex.an_pipe_ka 3 true Hl)
    as [(i & x & v & _ & _ & E & _ & Hp)|[(_ & E & _)|(E & _)]];
    rewrite F in E; [|discriminate E..].
  injection E as <- Hi. exists i. split; [|exact Hp].
  rewrite F. now rewrite Hi.
Defined.

Lemma isVowel_after_diphthong pre y x rest :
  y = Ch.i \/ y = Ch.u -> has ALL_CONSONANTS [x] = true ->
  isVowel (pre ++ Ch.a :: y :: x :: rest) (List.length pre + 1) = Some [y].
Proof.
  intros Hy Hx.
  rewrite isVowel_skipn, skipn_app_length.
  change 1 with (1 + 0). rewrite isVowel_skipn. cbn [skipn].
  rewrite isVowel_two.
  destruct (has VOWELS [y; x]) eqn:E.
  - apply two_unit_vowel in E. destruct E as [-> _].
    destruct Hy as [Hy|Hy]; vm_compute in Hy; discriminate Hy.
  - destruct Hy as [-> | ->]; reflexivity.
Qed.

(** X6.  Before a consonant, [findPreviousVowel] never reports a two-unit
    vowel: it meets the second unit of ai or au first and reports that i or
    u alone, a short vowel, although ai and au are listed as long vowels. *)
Theorem previous_vowel_never_diphthong text pos b c :
  isConsonant text pos = Some c ->
  List.length (vowel (findPreviousVowel text pos b)) <= 1
  /\ (forall pre y rest,
        text = pre ++ Ch.a :: y :: rest -> pos = List.length pre + 2 ->
        y = Ch.i \/ y = Ch.u ->
        findPreviousVowel text pos b
        = PrevVowel [y] false (Z.of_nat (List.length pre + 1))
        /\ has LONG_VOWELS [y] = false).
Proof.
  intros Hc. split; [now apply (findPreviousVowel_single _ _ _ c)|].
  intros pre y rest -> -> Hy.
  split; [|destruct Hy as [-> | ->]; reflexivity].
  destruct (isConsonant_cases _ _ _ Hc) as (x & Hx & Hux & _).
  replace (List.length pre + 2) with (List.length pre + 2 + 0) in Hx by lia.
  rewrite <- Nat.add_assoc, nth_error_app_length in Hx. cbn in Hx.
  destruct rest as [|x' rest]; [discriminate|]. injection Hx as ->.
  unfold findPreviousVowel.
  replace (List.length pre + 2) with (S (List.length pre + 1)) by lia.
  cbn [findPreviousVowel_loop].
  rewrite nth_error_app_length. cbn [nth_error].
  rewrite (isVowel_after_diphthong pre y x rest Hy Hux).
  destruct Hy as [-> | ->]; reflexivity.
Qed.

Lemma previous_vowel_never_diphthong_witness :
  isConsonant [Ch.k; Ch.a; Ch.i; Ch.k; Ch.t; Ch.a] 3 = Some [Ch.k]
  /\ findPreviousVowel [Ch.k; Ch.a; Ch.i; Ch.k; Ch.t; Ch.a] 3 true
     = PrevVowel [Ch.i] false 2.
Proof.
  assert (Hc : isConsonant [Ch.k; Ch.a; Ch.i; Ch.k; Ch.t; Ch.a] 3 = Some [Ch.k])
    by reflexivity.
  split; [exact Hc|].
  apply (proj2 (previous_vowel_never_diphthong _ 3 true [Ch.k] Hc)
           [Ch.k] Ch.i [Ch.k; Ch.t; Ch.a]);
    [reflexivity|reflexivity|now left].
Defined.

(** ** [findSamyuktaLength]: counting with and without the tone marks *)

Lemma findSamyuktaLength_loop_ge fuel text cm :
  forall i acc, acc <= findSamyuktaLength_loop fuel text cm i acc.
Proof.
  induction fuel as [|fuel IH]; intros i acc; cbn [findSamyuktaLength_loop];
    [lia|].
  destruct (nth_error text i) as [c|]; [|lia].
  destruct (is_space c || (c =? Ch.newline)%Z); [apply IH|].
  destruct (c =? Ch.pipe)%Z; [apply IH|].
  destruct (cm && isSvaraMark c); [apply IH|].
  destruct (isConsonant text i) as [u|]; [|lia].
  specialize (IH (i + List.length u) (acc + 1)). lia.
Qed.

Lemma findSamyuktaLength_loop_le fuel text cm :
  forall i acc,
  findSamyuktaLength_loop fuel text cm i acc <= acc + (List.length text - i).
Proof.
  induction fuel as [|fuel IH]; intros i acc; cbn [findSamyuktaLength_loop];
    [lia|].
  destruct (nth_error text i) as [c|] eqn:Ec; [|lia].
  assert (Hi : i < List.length text) by (apply nth_error_Some; congruence).
  destruct (is_space c || (c =? Ch.newline)%Z);
    [specialize (IH (i + 1) acc); lia|].
  destruct (c =? Ch.pipe)%Z; [specialize (IH (i + 1) acc); lia|].
  destruct (cm && isSvaraMark c); [specialize (IH (i + 1) acc); lia|].
  destruct (isConsonant text i) as [u|] eqn:Eu; [|lia].
  destruct (isConsonant_bounds _ _ _ Eu) as [Hu Hb].
  specialize (IH (i + List.length u) (acc + 1)). lia.
Qed.

Lemma findSamyuktaLength_loop_marks fuel text :
  forall i acc acc', acc <= acc' ->
  findSamyuktaLength_loop fuel text false i acc
  <= findSamyuktaLength_loop fuel text true i acc'.
Proof.
  induction fuel as [|fuel IH]; intros i acc acc' Ha;
    cbn [findSamyuktaLength_loop]; [lia|].
  destruct (nth_error text i) as [c|] eqn:Ec; [|lia].
  destruct (is_space c || (c =? Ch.newline)%Z); [now apply IH|].
  destruct (c =? Ch.pipe)%Z; [now apply IH|].
  cbn [andb].
  destruct (isSvaraMark c) eqn:Em.
  - destruct (svara_units _ Em) as (Hc & _).
    rewrite (isConsonant_None_unit _ _ _ Ec Hc).
    pose proof (findSamyuktaLength_loop_ge fuel text true (i + 1) acc'). lia.
  - destruct (isConsonant text i) as [u|]; [|lia].
    apply IH. lia.
Qed.

(** X7.  Counting a cluster with the tone marks skipped never gives less
    than counting it with the tone marks ending it; either count is at most
    the number of code units from [pos] to the end of the text, and at least
    one when a consonant stands at [pos]. *)
Theorem findSamyuktaLength_marks text pos :
  findSamyuktaLength text pos false <= findSamyuktaLength text pos true
  /\ (forall cm, findSamyuktaLength text pos cm <= List.length text - pos)
  /\ (forall cm, isConsonant text pos <> None ->
                 1 <= findSamyuktaLength text pos cm).
Proof.
  unfold findSamyuktaLength. split; [|split].
  - now apply findSamyuktaLength_loop_marks.
  - intros cm.
    pose proof (findSamyuktaLength_loop_le (List.length text - pos) text cm pos 0).
    lia.
  - intros cm Hc. destruct (isConsonant text pos) as [u|] eqn:Eu; [|contradiction].
    destruct (isConsonant_cases _ _ _ Eu) as (x & Hx & Hux & _).
    assert (Hi : pos < List.length text) by (apply nth_error_Some; congruence).
    destruct (List.length text - pos) as [|fuel] eqn:Ef; [lia|].
    cbn [findSamyuktaLength_loop]. rewrite Hx.
    destruct (consonant_units _ Hux) as (_ & Hm & Hs & Hp & _).
    rewrite Hs. cbn [orb].
    assert (Hn : (x =? Ch.newline)%Z = false).
    { destruct (x =? Ch.newline)%Z eqn:E; [|reflexivity].
      apply Z.eqb_eq in E. subst x. vm_compute in Hs. discriminate Hs. }
    rewrite Hn. apply Z.eqb_neq in Hp. rewrite Hp, Hm, Eu.
    rewrite andb_false_r.
    pose proof (findSamyuktaLength_loop_ge fuel text cm (pos + List.length u) (0 + 1)).
    lia.
Qed.

Lemma findSamyuktaLength_marks_witness :
  isConsonant Ex.ak_mark_ta 1 <> None
  /\ 1 <= findSamyuktaLength Ex.ak_mark_ta 1 false
  /\ findSamyuktaLength Ex.ak_mark_ta 1 false = 1
  /\ findSamyuktaLength Ex.ak_mark_ta 1 true = 2.
Proof.
  assert (Hc : isConsonant Ex.ak_mark_ta 1 <> None) by (vm_compute; discriminate).
  split; [exact Hc|]. split; [|split; reflexivity].
  apply (proj2 (proj2 (findSamyuktaLength_marks Ex.ak_mark_ta 1)) false Hc).
Defined.

(** ** The spans of [findAllHoldings] *)

Lemma consonant_not_skipped x :
  has ALL_CONSONANTS [x] = true ->
  is_space x || (x =? Ch.newline)%Z = false /\ (x =? Ch.pipe)%Z = false
  /\ isSvaraMark x = false.
Proof.
  intros Hx. destruct (consonant_units _ Hx) as (_ & Hm & Hs & Hp & _).
  split; [|split; [now apply Z.eqb_neq|assumption]].
  rewrite Hs. cbn [orb].
  destruct (x =? Ch.newline)%Z eqn:E; [|reflexivity].
  apply Z.eqb_eq in E. subst x. vm_compute in Hs. discriminate Hs.
Qed.

Lemma traverse_shape fuel text ty hp :
  forall i passed last h,
  hp <= i ->
  (forall lc lp, last = Some (lc, lp) ->
                 isConsonant text lp = Some lc /\ lp = hp) ->
  (forall c, isConsonant text hp = Some c -> hp + List.length c <= i) ->
  traverse fuel text ty hp i passed last = Some h ->
  exists c e, isConsonant text (position h) = Some c
    /\ length h = List.length c /\ type h = ty /\ hp <= position h
    /\ endPos h = Some e /\ position h + length h <= e.
Proof.
  induction fuel as [|fuel IH]; intros i passed last h Hi Hlast Hfirst;
    cbn [traverse]; [discriminate|].
  destruct (nth_error text i) as [c|]; [|discriminate].
  destruct (is_space c || (c =? Ch.newline)%Z).
  { apply IH; [lia| |intros c0 Hc0; specialize (Hfirst c0 Hc0); lia].
    intros lc lp.
    destruct (negb passed); [|apply Hlast].
    destruct (isConsonant text hp) as [c0|] eqn:E0; [|apply Hlast].
    intros [= <- <-]. auto. }
  destruct (c =? Ch.pipe)%Z.
  { apply IH; [lia|assumption|intros c0 Hc0; specialize (Hfirst c0 Hc0); lia]. }
  destruct (isSvaraMark c).
  { apply IH; [lia|assumption|intros c0 Hc0; specialize (Hfirst c0 Hc0); lia]. }
  destruct (isConsonant text i) as [cns|] eqn:Hc; [|discriminate].
  pose proof (isConsonant_bounds _ _ _ Hc) as [Hlen Hb].
  pose proof (scanToEnd_ge (List.length text) text (i + List.length cns)) as Hs.
  destruct passed.
  - destruct last as [[lc lp]|].
    + destruct (Hlast lc lp eq_refl) as [Hlc ->].
      destruct (str_eqb cns lc) eqn:Eq.
      * apply str_eqb_eq in Eq. subst lc. intros [= <-]. cbn.
        exists cns, (scanToEnd (List.length text) text (i + List.length cns)).
        specialize (Hfirst _ Hlc).
        repeat split; try assumption; try reflexivity; lia.
      * intros [= <-]. cbn.
        exists cns, (scanToEnd (List.length text) text (i + List.length cns)).
        repeat split; try assumption; try reflexivity; lia.
    + intros [= <-]. cbn.
      exists cns, (scanToEnd (List.length text) text (i + List.length cns)).
      repeat split; try assumption; try reflexivity; lia.
  - apply IH; [lia|assumption|intros c0 Hc0; specialize (Hfirst c0 Hc0); lia].
Qed.

Lemma traverse_first fuel text ty pos c :
  isConsonant text pos = Some c ->
  traverse (S fuel) text ty pos pos false None
  = traverse fuel text ty pos (pos + List.length c) false None.
Proof.
  intros Hc. destruct (isConsonant_cases _ _ _ Hc) as (x & Hx & Hux & _).
  destruct (consonant_not_skipped _ Hux) as (H1 & H2 & H3).
  cbn [traverse]. now rewrite Hx, H1, H2, H3, Hc.
Qed.

Lemma findHoldingPosition_shape text pos :
  0 < position (findHoldingPosition text pos) ->
  exists c, isConsonant text (position (findHoldingPosition text pos)) = Some c
    /\ length (findHoldingPosition text pos) = List.length c
    /\ (type (findHoldingPosition text pos) = Short
        \/ type (findHoldingPosition text pos) = Long)
    /\ pos <= position (findHoldingPosition text pos)
    /\ position (findHoldingPosition text pos)
       + length (findHoldingPosition text pos)
       <= resumeAt (findHoldingPosition text pos).
Proof.
  unfold findHoldingPosition.
  destruct (isConsonant text pos) as [c|] eqn:Hc; [|cbn; lia].
  destruct (_ <=? 1); [cbn; lia|].
  destruct (str_eqb _ []).
  { destruct (blocked _); [|cbn; lia]. intros _. exists c. cbn.
    repeat split; try assumption; try lia. now left. }
  set (ty := if has LONG_VOWELS _ then Long else Short).
  assert (Hty : ty = Short \/ ty = Long)
    by (subst ty; destruct (has LONG_VOWELS _); tauto).
  destruct (isConsonant_bounds _ _ _ Hc) as [Hlen Hb].
  destruct (List.length text - pos) as [|fuel] eqn:Ef; [lia|].
  rewrite (traverse_first _ _ _ _ _ Hc).
  destruct (traverse _ _ _ _ _ _ _) as [h|] eqn:Ht.
  - intros _.
    apply traverse_shape in Ht;
      [|lia|discriminate
       |intros c0 Hc0; rewrite Hc in Hc0; injection Hc0 as <-; lia].
    destruct Ht as (c1 & e & H1 & H2 & H3 & H4 & H5 & H6).
    exists c1. unfold resumeAt. rewrite H5, H3. auto.
  - pose proof (skipSkipConsonants_ge (S fuel) text pos) as Hge.
    destruct (isConsonant text (skipSkipConsonants _ _ _)) as [c2|] eqn:Hc2;
      [|cbn; lia].
    intros _. exists c2. cbn. repeat split; try assumption; lia.
Qed.

Lemma findAllHoldings_loop_ordered fuel text :
  forall i,
  Forall (fun h => i <= position h) (findAllHoldings_loop fuel text i)
  /\ StronglySorted (fun h1 h2 => position h1 + length h1 <= position h2)
       (findAllHoldings_loop fuel text i).
Proof.
  induction fuel as [|fuel IH]; intros i; cbn [findAllHoldings_loop];
    [split; constructor|].
  destruct (nth_error text i) as [c|] eqn:Hn; [|split; constructor].
  assert (Hstep : forall k, i <= k ->
    Forall (fun h => i <= position h) (findAllHoldings_loop fuel text k)
    /\ StronglySorted (fun h1 h2 => position h1 + length h1 <= position h2)
         (findAllHoldings_loop fuel text k)).
  { intros k Hk. destruct (IH k) as [HF HS]. split; [|assumption].
    eapply Forall_impl; [|exact HF]. cbn. intros h Hh. lia. }
  destruct (c =? Ch.pipe)%Z; [apply Hstep; lia|].
  destruct (isConsonant text i) as [cns|] eqn:Hc.
  - destruct (Nat.ltb_spec 0 (position (findHoldingPosition text i))) as [Hp|Hp];
      cbn [andb]; [|apply Hstep; lia].
    destruct (Nat.ltb_spec 0 (length (findHoldingPosition text i))) as [Hl|Hl];
      [|apply Hstep; lia].
    destruct (findHoldingPosition_shape _ _ Hp) as (c1 & H1 & H2 & H3 & H4 & H5).
    destruct (IH (resumeAt (findHoldingPosition text i))) as [HF HS].
    split.
    + constructor; [assumption|].
      eapply Forall_impl; [|exact HF]. cbn. intros h Hh. lia.
    + constructor; [assumption|].
      eapply Forall_impl; [|exact HF]. cbn. intros h Hh. lia.
  - destruct (isSvaraMark c); apply Hstep; lia.
Qed.

(** X8.  Every span returned by [findAllHoldings] covers exactly one
    consonant unit of the text (one or two code units, within the text), and
    its kind is short or long. *)
Theorem holdings_cover_a_consonant text h :
  In h (findAllHoldings text) ->
  exists c, isConsonant text (position h) = Some c
    /\ length h = List.length c
    /\ position h + length h <= List.length text
    /\ (type h = Short \/ type h = Long).
Proof.
  intros Hin. unfold findAllHoldings in Hin.
  destruct (findAllHoldings_loop_origin _ _ _ _ Hin) as (j & _ & _ & <- & Hp & _).
  destruct (findHoldingPosition_shape _ _ Hp) as (c & H1 & H2 & H3 & _).
  exists c. destruct (isConsonant_bounds _ _ _ H1) as [_ Hb].
  repeat split; try assumption. lia.
Qed.

Lemma holdings_cover_a_consonant_witness :
  In (Holding 2 1 Short None) (findAllHoldings Ex.anka)
  /\ exists c, isConsonant Ex.anka 2 = Some c /\ 1 = List.length c
       /\ 2 + 1 <= List.length Ex.anka
       /\ (Short = Short \/ Short = Long).
Proof.
  assert (Hin : In (Holding 2 1 Short None) (findAllHoldings Ex.anka))
    by (vm_compute; left; reflexivity).
  split; [exact Hin|].
  apply (holdings_cover_a_consonant Ex.anka (Holding 2 1 Short None) Hin).
Defined.

(** X9.  [findAllHoldings] returns its spans from left to right, and no two
    of them overlap: each span ends at or before the position of every span
    returned after it. *)
Theorem holdings_ordered_disjoint text :
  StronglySorted (fun h1 h2 => position h1 + length h1 <= position h2)
    (findAllHoldings text).
Proof. apply (findAllHoldings_loop_ordered (List.length text) text 0). Qed.




(** ** The pauses of [findAllPauses] *)

Lemma skipSvara_range fuel text :
  forall n,
  n <= skipSvara fuel text n
  /\ forall j, n <= j < skipSvara fuel text n ->
       exists x, nth_error text j = Some x /\ isSvaraMark x = true.
Proof.
  induction fuel as [|fuel IH]; intros n; cbn [skipSvara].
  - split; [lia|intros j Hj; lia].
  - destruct (nth_error text n) as [c|] eqn:Ec; [|split; [lia|intros j Hj; lia]].
    destruct (isSvaraMark c) eqn:Em; [|split; [lia|intros j Hj; lia]].
    destruct (IH (n + 1)) as [Hge Hr]. split; [lia|].
    intros j Hj. destruct (Nat.eq_dec j n) as [->|Hne].
    + exists c. auto.
    + apply Hr. lia.
Qed.

Lemma pauseAfterVowel_spec text i v p :
  In p (pauseAfterVowel text i v) ->
  exists q, i + List.length v <= q < p_position p
    /\ nth_error text q = Some Ch.space
    /\ (forall j, i + List.length v <= j < q ->
          exists x, nth_error text j = Some x /\ isSvaraMark x = true)
    /\ (forall j, q < j < p_position p ->
          exists x, nth_error text j = Some x /\ isSvaraMark x = true)
    /\ isVowel text (p_position p) <> None
    /\ (p_type p = Short \/ p_type p = Long).
Proof.
  unfold pauseAfterVowel.
  destruct (skipSvara_range (List.length text) text (i + List.length v))
    as [Hge1 Hr1].
  set (q := skipSvara (List.length text) text (i + List.length v)) in *.
  destruct (nth_error text q) as [c|] eqn:Ec; [|intros []].
  destruct (c =? Ch.space)%Z eqn:Es; [|intros []].
  apply Z.eqb_eq in Es. subst c.
  destruct (skipSvara_range (List.length text) text (q + 1)) as [Hge2 Hr2].
  set (n := skipSvara (List.length text) text (q + 1)) in *.
  destruct (isVowel text n) as [nv|] eqn:Ev; [|intros []].
  assert (Hp : forall k, In p [Pause n k] -> k = Short \/ k = Long ->
    exists q0, i + List.length v <= q0 < p_position p
      /\ nth_error text q0 = Some Ch.space
      /\ (forall j, i + List.length v <= j < q0 ->
            exists x, nth_error text j = Some x /\ isSvaraMark x = true)
      /\ (forall j, q0 < j < p_position p ->
            exists x, nth_error text j = Some x /\ isSvaraMark x = true)
      /\ isVowel text (p_position p) <> None
      /\ (p_type p = Short \/ p_type p = Long)).
  { intros k [<-|[]] Hk. cbn [p_position p_type]. exists q.
    split; [lia|]. split; [assumption|]. split; [assumption|].
    split; [intros j Hj; apply Hr2; lia|]. split; [congruence|assumption]. }
  destruct (has LONG_VOWELS v && has SHORT_VOWELS nv); intros Hin;
    eapply Hp; eauto.
Qed.

Lemma findAllPauses_loop_origin fuel text :
  forall i p, In p (findAllPauses_loop fuel text i) ->
  exists j x, i <= j < p_position p /\ nth_error text j = Some x
    /\ isSvaraMark x = false /\ x <> Ch.space.
Proof.
  induction fuel as [|fuel IH]; intros i p; cbn [findAllPauses_loop];
    [intros []|].
  destruct (nth_error text i) as [c|] eqn:Ec; [|intros []].
  assert (Hstep : forall k, i <= k -> In p (findAllPauses_loop fuel text k) ->
    exists j x, i <= j < p_position p /\ nth_error text j = Some x
      /\ isSvaraMark x = false /\ x <> Ch.space).
  { intros k Hk Hin. destruct (IH _ _ Hin) as (j & x & Hj & Hx).
    exists j, x. split; [lia|assumption]. }
  destruct (isSvaraMark c) eqn:Em; [apply Hstep; lia|].
  destruct (_ && _) eqn:Eom.
  { apply andb_prop in Eom. destruct Eom as [Eom _].
    apply andb_prop in Eom. destruct Eom as [Eom _].
    apply andb_prop in Eom. destruct Eom as [_ Eo].
    apply Z.eqb_eq in Eo. subst c.
    intros [<-|Hin]; [|apply (Hstep (i + 3)); [lia|assumption]].
    exists i, Ch.o. cbn [p_position].
    split; [lia|]. split; [assumption|]. split; [assumption|].
    intro E; vm_compute in E; discriminate E. }
  destruct (isVowel text i) as [v|] eqn:Ev; [|apply Hstep; lia].
  intros Hin. apply in_app_or in Hin. destruct Hin as [Hin|Hin];
    [|apply (Hstep (i + List.length v)); [lia|assumption]].
  destruct (pauseAfterVowel_spec _ _ _ _ Hin) as (q & Hq & _).
  destruct (isVowel_cases _ _ _ Ev) as (x & Hx & Hux & _).
  assert (x = c) as -> by congruence.
  destruct (vowel_units _ Hux) as (_ & _ & Hs & _).
  exists i, c. split; [lia|]. split; [assumption|]. split; [assumption|].
  intros ->. vm_compute in Hs. discriminate Hs.
Qed.

Lemma findAllPauses_loop_ordered fuel text :
  forall i,
  StronglySorted (fun p1 p2 => p_position p1 < p_position p2)
    (findAllPauses_loop fuel text i).
Proof.
  induction fuel as [|fuel IH]; intros i; cbn [findAllPauses_loop];
    [constructor|].
  destruct (nth_error text i) as [c|] eqn:Ec; [|constructor].
  destruct (isSvaraMark c) eqn:Em; [apply IH|].
  destruct (_ && _) eqn:Eom.
  { constructor; [apply IH|]. apply Forall_forall. intros p Hin.
    destruct (findAllPauses_loop_origin _ _ _ _ Hin) as (j & x & Hj & _).
    cbn [p_position]. lia. }
  destruct (isVowel text i) as [v|] eqn:Ev; [|apply IH].
  destruct (pauseAfterVowel text i v) as [|p0 l] eqn:Ep; [apply IH|].
  assert (Hl : l = []).
  { revert Ep. unfold pauseAfterVowel.
    repeat match goal with
    | |- context [match ?t with _ => _ end] => destruct t
    end; congruence. }
  subst l. cbn [app].
  assert (Hin0 : In p0 (pauseAfterVowel text i v)) by (rewrite Ep; now left).
  destruct (pauseAfterVowel_spec _ _ _ _ Hin0)
    as (q & Hq & Hsp & Hr1 & Hr2 & _).
  constructor; [apply IH|]. apply Forall_forall. intros p Hin.
  destruct (findAllPauses_loop_origin _ _ _ _ Hin) as (j & x & Hj & Hx & Hm & Hs).
  destruct (Nat.lt_ge_cases j (p_position p0)) as [Hlt|Hge]; [exfalso|lia].
  destruct (Nat.lt_trichotomy j q) as [H1|[H1|H1]].
  - destruct (Hr1 j ltac:(lia)) as (y & Hy & Hmy). congruence.
  - subst j. congruence.
  - destruct (Hr2 j ltac:(lia)) as (y & Hy & Hmy). congruence.
Qed.

Lemma findAllPauses_loop_after_space fuel text :
  forall i p, In p (findAllPauses_loop fuel text i) ->
  exists q, q < p_position p /\ nth_error text q = Some Ch.space
    /\ (forall j, q < j < p_position p ->
          exists x, nth_error text j = Some x /\ isSvaraMark x = true)
    /\ p_position p <= List.length text
    /\ (p_type p = Short \/ p_type p = Long)
    /\ (isVowel text (p_position p) <> None
        \/ (p_position p = q + 1 /\ 2 <= q
            /\ nth_error text (q - 2) = Some Ch.o
            /\ nth_error text (q - 1) = Some Ch.anusvara)).
Proof.
  induction fuel as [|fuel IH]; intros i p; cbn [findAllPauses_loop];
    [intros []|].
  destruct (nth_error text i) as [c|] eqn:Ec; [|intros []].
  destruct (isSvaraMark c) eqn:Em; [apply IH|].
  destruct (_ && _) eqn:Eom.
  { intros [<-|Hin]; [|now apply (IH (i + 3))].
    apply andb_prop in Eom. destruct Eom as [Eom E2].
    apply andb_prop in Eom. destruct Eom as [Eom E1].
    apply andb_prop in Eom. destruct Eom as [El Eo].
    apply Nat.ltb_lt in El. apply Z.eqb_eq in Eo. subst c.
    unfold at_is in E1, E2.
    destruct (nth_error text (i + 1)) as [y|] eqn:Ey; [|discriminate].
    destruct (nth_error text (i + 2)) as [z|] eqn:Ez; [|discriminate].
    apply Z.eqb_eq in E1, E2. subst y z.
    exists (i + 2). cbn [p_position p_type].
    split; [lia|]. split; [assumption|]. split; [intros j Hj; lia|].
    split; [lia|]. split; [now left|]. right.
    split; [lia|]. split; [lia|].
    replace (i + 2 - 2) with i by lia. replace (i + 2 - 1) with (i + 1) by lia.
    auto. }
  destruct (isVowel text i) as [v|] eqn:Ev; [|apply IH].
  intros Hin. apply in_app_or in Hin. destruct Hin as [Hin|Hin];
    [|now apply (IH (i + List.length v))].
  destruct (pauseAfterVowel_spec _ _ _ _ Hin)
    as (q & Hq & Hsp & _ & Hr2 & Hv & Hk).
  exists q. split; [lia|]. split; [assumption|]. split; [assumption|].
  split; [|split; [assumption|now left]].
  destruct (isVowel text (p_position p)) as [nv|] eqn:En; [|contradiction].
  destruct (isVowel_cases _ _ _ En) as (x & Hx & _).
  apply Nat.lt_le_incl. apply nth_error_Some. congruence.
Qed.

(** X11.  [findAllPauses] returns its pauses from left to right, at
    positions that strictly increase: no position gets two pauses. *)
Theorem pauses_strictly_ordered text :
  StronglySorted (fun p1 p2 => p_position p1 < p_position p2)
    (findAllPauses text).
Proof. apply findAllPauses_loop_ordered. Qed.

(** X12.  Every pause of [findAllPauses] lies within the text, is short or
    long, and follows a space U+0020 from which only tone marks separate it;
    it stands where a vowel starts, or directly after the space that follows
    o and the anusvara. *)
Theorem pauses_follow_a_space text p :
  In p (findAllPauses text) ->
  exists q, q < p_position p /\ nth_error text q = Some Ch.space
    /\ (forall j, q < j < p_position p ->
          exists x, nth_error text j = Some x /\ isSvaraMark x = true)
    /\ p_position p <= List.length text
    /\ (p_type p = Short \/ p_type p = Long)
    /\ (isVowel text (p_position p) <> None
        \/ (p_position p = q + 1 /\ 2 <= q
            /\ nth_error text (q - 2) = Some Ch.o
            /\ nth_error text (q - 1) = Some Ch.anusvara)).
Proof. apply findAllPauses_loop_after_space. Qed.

Lemma pauses_follow_a_space_witness :
  In (Pause 3 Short) (findAllPauses Ex.a_space_mark_i)
  /\ exists q, q < 3 /\ nth_error Ex.a_space_mark_i q = Some Ch.space.
Proof.
  assert (Hin : In (Pause 3 Short) (findAllPauses Ex.a_space_mark_i))
    by (vm_compute; left; reflexivity).
  split; [exact Hin|].
  destruct (pauses_follow_a_space Ex.a_space_mark_i (Pause 3 Short) Hin)
    as (q & Hq & Hs & _).
  exists q. split; assumption.
Defined.

(** ** [devanagariToIAST]: what it writes, and how it composes *)

Lemma forallb_latin (l : str) :
  forallb (fun c => negb (recognizedD2I c)) l = true -> latinText l.
Proof.
  intros H. apply Forall_forall. intros c Hc.
  rewrite forallb_forall in H. specialize (H c Hc).
  now apply negb_true_iff in H.
Qed.

Lemma d2i_values_latin tbl key :
  In tbl [D2I.vowels; D2I.vowelSigns; D2I.consonants; D2I.special] ->
  known tbl key = true -> latinText (D2I.get tbl key).
Proof.
  intros Ht Hk. destruct (known_In _ _ Hk) as (v & Hin & E).
  unfold D2I.get. rewrite E. apply forallb_latin.
  assert (Hall : forallb (fun kv => forallb (fun c => negb (recognizedD2I c))
                                       (snd kv)) tbl = true).
  { destruct Ht as [<-|[<-|[<-|[<-|[]]]]]; vm_compute; reflexivity. }
  rewrite forallb_forall in Hall. apply (Hall (key, v) Hin).
Qed.

Lemma d2i_unrecognized x :
  (x =? Ch.om)%Z = false -> known D2I.vowels [x] = false ->
  known D2I.consonants [x] = false -> known D2I.vowelSigns [x] = false ->
  negb (x =? Ch.virama)%Z && known D2I.special [x] = false ->
  (x =? Ch.virama)%Z = false ->
  recognizedD2I x = false.
Proof.
  intros Ho Hv Hc Hs Hp Hvir. rewrite Hvir in Hp. cbn [negb andb] in Hp.
  destruct (recognizedD2I x) eqn:E; [|reflexivity].
  apply memZ_In in E. cbn in E.
  repeat (destruct E as [<-|E];
          [first [vm_compute in Ho; discriminate Ho
                 |vm_compute in Hv; discriminate Hv
                 |vm_compute in Hc; discriminate Hc
                 |vm_compute in Hs; discriminate Hs
                 |vm_compute in Hp; discriminate Hp
                 |vm_compute in Hvir; discriminate Hvir]|]).
  destruct E.
Qed.

Lemma latinText_app a b : latinText a -> latinText b -> latinText (a ++ b).
Proof. intros Ha Hb. apply Forall_app. now split. Qed.

Lemma d2i_output_latin_len n :
  forall t, List.length t <= n -> latinText (devanagariToIAST t).
Proof.
  induction n as [|n IH]; intros t Hn.
  - destruct t; [|cbn in Hn; lia]. constructor.
  - destruct t as [|c rest]; [constructor|]. cbn [List.length] in Hn.
    assert (Hrest : latinText (devanagariToIAST rest)) by (apply IH; lia).
    rewrite d2i_unfold.
    destruct (c =? Ch.om)%Z eqn:Eom.
    { apply latinText_app; [|assumption]. apply forallb_latin. reflexivity. }
    destruct (known D2I.vowels [c]) eqn:Ev.
    { apply latinText_app; [|assumption].
      apply d2i_values_latin; [cbn; tauto|assumption]. }
    destruct (known D2I.consonants [c]) eqn:Ec.
    { apply latinText_app; [apply d2i_values_latin; [cbn; tauto|assumption]|].
      destruct rest as [|m rest']; [constructor|]. cbn [List.length] in Hn.
      assert (Hrest' : latinText (devanagariToIAST rest')) by (apply IH; lia).
      destruct (known D2I.vowelSigns [m]) eqn:Es.
      { apply latinText_app; [|assumption].
        apply d2i_values_latin; [cbn; tauto|assumption]. }
      destruct (m =? Ch.virama)%Z; [assumption|].
      apply latinText_app; [|assumption]. apply forallb_latin. reflexivity. }
    destruct (known D2I.vowelSigns [c]) eqn:Es.
    { apply latinText_app; [|assumption].
      apply d2i_values_latin; [cbn; tauto|assumption]. }
    destruct (negb (c =? Ch.virama)%Z && known D2I.special [c]) eqn:Ep.
    { apply latinText_app; [|assumption].
      apply andb_prop in Ep. destruct Ep as [_ Ep].
      apply d2i_values_latin; [cbn; tauto|assumption]. }
    destruct (c =? Ch.virama)%Z eqn:Evir; [assumption|].
    apply latinText_app; [|assumption].
    constructor; [|constructor].
    apply d2i_unrecognized; try assumption. now rewrite Evir.
Qed.

Lemma d2i_latin_fixed t : latinText t -> devanagariToIAST t = t.
Proof.
  induction 1 as [|c rest Hc _ IH]; [reflexivity|].
  rewrite (d2i_copies_unrecognized _ Hc). now rewrite IH.
Qed.

(** X13.  The output of [devanagariToIAST] holds no code unit that the
    function recognizes: no Devanagari letter, vowel sign or special sign of
    its tables is left, and never a virama. *)
Theorem d2i_output_is_latin t : latinText (devanagariToIAST t).
Proof. apply (d2i_output_latin_len (List.length t)). reflexivity. Qed.

(** X14.  [devanagariToIAST] returns unchanged a text that holds none of
    the code units it recognizes, and so converting twice gives the same as
    converting once. *)
Theorem d2i_idempotent t :
  (latinText t -> devanagariToIAST t = t)
  /\ devanagariToIAST (devanagariToIAST t) = devanagariToIAST t.
Proof.
  split; [apply d2i_latin_fixed|].
  apply d2i_latin_fixed. apply (d2i_output_latin_len (List.length t)).
  reflexivity.
Qed.

Lemma d2i_idempotent_witness :
  latinText Ex.rama_iti /\ devanagariToIAST Ex.rama_iti = Ex.rama_iti.
Proof.
  assert (HL : latinText Ex.rama_iti) by (repeat constructor).
  split; [exact HL|]. apply (proj1 (d2i_idempotent Ex.rama_iti) HL).
Defined.

Lemma d2i_consonant_key n :
  known D2I.consonants [n] = true ->
  (n =? Ch.om)%Z = false /\ known D2I.vowels [n] = false
  /\ known D2I.vowelSigns [n] = false /\ (n =? Ch.virama)%Z = false.
Proof.
  intros H. destruct (known_In _ _ H) as (v & Hin & _). cbn in Hin.
  repeat (destruct Hin as [Hin|Hin];
          [first [discriminate Hin
                 |injection Hin as <- _; repeat split; reflexivity]|]).
  destruct Hin.
Qed.

Lemma d2i_sign_key n :
  known D2I.vowelSigns [n] = true ->
  (n =? Ch.om)%Z = false /\ known D2I.vowels [n] = false
  /\ known D2I.consonants [n] = false.
Proof.
  intros H. destruct (known_In _ _ H) as (v & Hin & _). cbn in Hin.
  repeat (destruct Hin as [Hin|Hin];
          [first [discriminate Hin
                 |injection Hin as <- _; repeat split; reflexivity]|]).
  destruct Hin.
Qed.

Lemma d2i_vowel_key n :
  known D2I.vowels [n] = true -> known D2I.consonants [n] = false.
Proof.
  intros H. destruct (known_In _ _ H) as (v & Hin & _). cbn in Hin.
  repeat (destruct Hin as [Hin|Hin];
          [first [discriminate Hin
                 |injection Hin as <- _; reflexivity]|]).
  destruct Hin.
Qed.

Lemma inherentBetween_cons2 c n r t :
  inherentBetween (c :: n :: r) t = inherentBetween (n :: r) t.
Proof. reflexivity. Qed.

Lemma inherentBetween_cons c rest t :
  known D2I.consonants [c] = false ->
  inherentBetween (c :: rest) t = inherentBetween rest t.
Proof.
  intros Hc. destruct rest as [|n r]; [|reflexivity].
  unfold inherentBetween, endsBare. cbn [last]. rewrite Hc. reflexivity.
Qed.

Lemma d2i_sign_first n t :
  known D2I.vowelSigns [n] = true ->
  devanagariToIAST (n :: t) = D2I.get D2I.vowelSigns [n] ++ devanagariToIAST t.
Proof.
  intros Hs. destruct (d2i_sign_key _ Hs) as (Ho & Hv & Hc).
  rewrite d2i_unfold, Ho, Hv, Hc, Hs. reflexivity.
Qed.

Lemma d2i_virama_first t :
  devanagariToIAST (Ch.virama :: t) = devanagariToIAST t.
Proof. rewrite d2i_unfold. reflexivity. Qed.

Lemma d2i_concat_len k :
  forall s t, List.length s <= k ->
  devanagariToIAST (s ++ t)
  = devanagariToIAST s ++ inherentBetween s t ++ devanagariToIAST t.
Proof.
  induction k as [|k IH]; intros s t Hk.
  - destruct s; [reflexivity|cbn in Hk; lia].
  - destruct s as [|c rest]; [reflexivity|]. cbn [List.length] in Hk.
    cbn [app]. rewrite (d2i_unfold c (rest ++ t)), (d2i_unfold c rest).
    assert (Hplain : forall piece,
      known D2I.consonants [c] = false ->
      piece ++ devanagariToIAST (rest ++ t)
      = (piece ++ devanagariToIAST rest)
        ++ inherentBetween (c :: rest) t ++ devanagariToIAST t).
    { intros piece Hc. rewrite (inherentBetween_cons _ _ _ Hc).
      rewrite (IH rest t) by lia. now rewrite <- !app_assoc. }
    destruct (c =? Ch.om)%Z eqn:Eom.
    { apply Hplain. apply Z.eqb_eq in Eom. subst c. reflexivity. }
    destruct (known D2I.vowels [c]) eqn:Ev.
    { apply Hplain. now apply d2i_vowel_key. }
    destruct (known D2I.consonants [c]) eqn:Ec.
    2:{ destruct (known D2I.vowelSigns [c]); [now apply Hplain|].
        destruct (negb (c =? Ch.virama)%Z && known D2I.special [c]);
          [now apply Hplain|].
        destruct (c =? Ch.virama)%Z; [now apply (Hplain [])|now apply Hplain]. }
    rewrite <- !app_assoc. f_equal.
    destruct rest as [|n rest'].
    + cbn [app]. unfold inherentBetween, endsBare. cbn [last]. rewrite Ec.
      destruct t as [|n t']; [reflexivity|].
      destruct (known D2I.vowelSigns [n]) eqn:Es.
      { cbn [orb app]. now rewrite (d2i_sign_first _ _ Es). }
      destruct (n =? Ch.virama)%Z eqn:Evir.
      { cbn [orb app]. apply Z.eqb_eq in Evir. subst n.
        now rewrite d2i_virama_first. }
      reflexivity.
    + cbn [app List.length] in *.
      destruct (known D2I.vowelSigns [n]) eqn:Es.
      { destruct (d2i_sign_key _ Es) as (_ & _ & Hnc).
        rewrite inherentBetween_cons2, (inherentBetween_cons _ _ _ Hnc).
        rewrite (IH rest' t) by lia. now rewrite <- ?app_assoc. }
      destruct (n =? Ch.virama)%Z eqn:Evir.
      { apply Z.eqb_eq in Evir. subst n.
        assert (Hnc : known D2I.consonants [Ch.virama] = false) by reflexivity.
        rewrite inherentBetween_cons2, (inherentBetween_cons _ _ _ Hnc).
        now rewrite (IH rest' t) by lia. }
      rewrite inherentBetween_cons2.
      change (n :: rest' ++ t) with ((n :: rest') ++ t).
      rewrite (IH (n :: rest') t) by (cbn; lia).
      now rewrite <- ?app_assoc.
Qed.

(** X15.  [devanagariToIAST] converts a text piece by piece: the conversion
    of [s ++ t] is the conversion of [s], then the conversion of [t], with
    between them the inherent a exactly when [s] ends in a consonant glyph
    and [t] starts with neither a vowel sign nor the virama.  So converting
    two runs of a text apart, as the editor does with runs of different
    formatting, loses that a and nothing else. *)
Theorem d2i_concat s t :
  devanagariToIAST (s ++ t)
  = devanagariToIAST s ++ inherentBetween s t ++ devanagariToIAST t.
Proof. apply (d2i_concat_len (List.length s)). reflexivity. Qed.

(** ** [iastToDevanagari]: what it writes *)

Lemma forallb_converted (l : str) :
  forallb (fun c => negb (recognizedI2D c)) l = true -> convertedText l.
Proof.
  intros H. apply Forall_forall. intros c Hc.
  rewrite forallb_forall in H. specialize (H c Hc).
  now apply negb_true_iff in H.
Qed.

Lemma i2d_values_converted tbl key :
  In tbl [I2D.vowels; I2D.vowelSigns; I2D.consonants; I2D.special] ->
  known tbl key = true -> convertedText (I2D.get tbl key).
Proof.
  intros Ht Hk. destruct (known_In _ _ Hk) as (v & Hin & E).
  unfold I2D.get. rewrite E. apply forallb_converted.
  assert (Hall : forallb (fun kv => forallb (fun c => negb (recognizedI2D c))
                                       (snd kv)) tbl = true).
  { destruct Ht as [<-|[<-|[<-|[<-|[]]]]]; vm_compute; reflexivity. }
  rewrite forallb_forall in Hall. apply (Hall (key, v) Hin).
Qed.

Lemma convertedText_app a b :
  convertedText a -> convertedText b -> convertedText (a ++ b).
Proof. intros Ha Hb. apply Forall_app. now split. Qed.

Lemma i2d_vowel2_known w :
  known I2D.vowelSigns [Ch.a; w] = true -> known I2D.vowels [Ch.a; w] = true.
Proof.
  intros H. rewrite i2d_sign2 in H. rewrite i2d_vowel2, H. reflexivity.
Qed.

Lemma Token_out_converted t out r : Token t out r -> convertedText out.
Proof.
  assert (Hvir : forall b : bool,
            convertedText (if b then [Ch.virama] else [])).
  { intros []; [apply forallb_converted; reflexivity|constructor]. }
  destruct 1.
  - apply forallb_converted. reflexivity.
  - apply i2d_values_converted; [cbn; tauto|assumption].
  - apply convertedText_app; apply i2d_values_converted;
      solve [cbn; tauto|assumption].
  - apply convertedText_app; [|apply Hvir].
    apply i2d_values_converted; [cbn; tauto|assumption].
  - apply convertedText_app; apply i2d_values_converted;
      solve [cbn; tauto|assumption].
  - apply convertedText_app; apply i2d_values_converted;
      solve [cbn; tauto|assumption].
  - apply i2d_values_converted; [cbn; tauto|assumption].
  - apply convertedText_app; [|apply Hvir].
    apply i2d_values_converted; [cbn; tauto|assumption].
  - apply i2d_values_converted; [cbn; tauto|now apply i2d_vowel2_known].
  - apply i2d_values_converted; [cbn; tauto|assumption].
  - apply i2d_values_converted; [cbn; tauto|assumption].
  - constructor; [assumption|constructor].
Qed.

Lemma i2d_output_converted_len n :
  forall t, List.length t <= n -> convertedText (iastToDevanagari t).
Proof.
  induction n as [|n IH]; intros t Hn.
  - destruct t; [constructor|cbn in Hn; lia].
  - destruct t as [|x t1]; [constructor|].
    destruct (tokenize x t1) as (out & r & Htk).
    rewrite (Token_i2d _ _ _ Htk).
    apply convertedText_app; [now apply (Token_out_converted _ _ _ Htk)|].
    apply IH. destruct (Token_rest _ _ _ Htk) as (p & E & Hp).
    apply (f_equal (@List.length Z)) in E. rewrite length_app in E.
    destruct p; [contradiction|]. cbn [List.length] in *. lia.
Qed.

Lemma i2d_converted_fixed t : convertedText t -> iastToDevanagari t = t.
Proof.
  induction 1 as [|c rest Hc _ IH]; [reflexivity|].
  rewrite (i2d_copies_unrecognized _ Hc). now rewrite IH.
Qed.

(** X16.  The output of [iastToDevanagari] holds no code unit that the
    function recognizes: no Latin letter, digit or sign of its tables is
    left unconverted. *)
Theorem i2d_output_is_converted t : convertedText (iastToDevanagari t).
Proof. apply (i2d_output_converted_len (List.length t)). reflexivity. Qed.

(** X17.  [iastToDevanagari] returns unchanged a text that holds none of
    the code units it recognizes, and so converting twice gives the same as
    converting once. *)
Theorem i2d_idempotent t :
  (convertedText t -> iastToDevanagari t = t)
  /\ iastToDevanagari (iastToDevanagari t) = iastToDevanagari t.
Proof.
  split; [apply i2d_converted_fixed|].
  apply i2d_converted_fixed.
  apply (i2d_output_converted_len (List.length t)). reflexivity.
Qed.

Lemma i2d_idempotent_witness :
  convertedText Ex.kta_conjunct
  /\ iastToDevanagari Ex.kta_conjunct = Ex.kta_conjunct.
Proof.
  assert (HC : convertedText Ex.kta_conjunct) by (repeat constructor).
  split; [exact HC|]. apply (proj1 (i2d_idempotent Ex.kta_conjunct) HC).
Defined.

(** X18.  A cluster with nothing before it is never given a span: when no
    code unit before [pos] is whitespace, an anusvara, a visarga or the
    start of a vowel (the text starts there, or only consonants, pause
    glyphs and tone marks precede), [findHoldingPosition] returns no span. *)
Theorem no_span_without_a_start text pos :
  pos <= List.length text ->
  passedOver text true 0 pos ->
  findPreviousVowel text pos true = PrevVowel [] false (-1)
  /\ findHoldingPosition text pos = noHolding.
Proof.
  intros Hpos Hp.
  assert (E : findPreviousVowel text pos true = PrevVowel [] false (-1)).
  { destruct (findPreviousVowel_loop_spec text true pos Hpos)
      as [(i & x & v & Hi & Hx & _ & Hv & _)
         |[(_ & _ & i & x & Hi & Hx & Hs & _)|(E & _)]]; [exfalso..|exact E].
    - destruct (Hp i x ltac:(lia) Hx) as (_ & H1 & H2 & H3 & H4).
      destruct Hv as [[_ [Hv|[Hv|Hv]]]|Hv]; congruence.
    - destruct (Hp i x ltac:(lia) Hx) as (H0 & _).
      rewrite Hs in H0. discriminate H0. }
  split; [exact E|].
  unfold findHoldingPosition.
  destruct (isConsonant text pos); [|reflexivity].
  destruct (_ <=? 1); [reflexivity|].
  rewrite E. reflexivity.
Qed.

Lemma no_span_without_a_start_witness :
  3 <= List.length [Ch.k; Ch.pipe; Ch.anudatta; Ch.t; Ch.r; Ch.a]
  /\ passedOver [Ch.k; Ch.pipe; Ch.anudatta; Ch.t; Ch.r; Ch.a] true 0 3
  /\ findHoldingPosition [Ch.k; Ch.pipe; Ch.anudatta; Ch.t; Ch.r; Ch.a] 3
     = noHolding.
Proof.
  assert (Hl : 3 <= List.length [Ch.k; Ch.pipe; Ch.anudatta; Ch.t; Ch.r; Ch.a])
    by (cbn; lia).
  assert (Hp : passedOver [Ch.k; Ch.pipe; Ch.anudatta; Ch.t; Ch.r; Ch.a] true 0 3).
  { intros j y Hj Hy.
    destruct j as [|[|[|j]]]; [| | |lia]; injection Hy as <-;
      (split; [reflexivity|]);
      (split; [intro E; vm_compute in E; discriminate E|]);
      (split; [intro E; vm_compute in E; discriminate E|]);
      (split; [intro E; vm_compute in E; discriminate E|reflexivity]). }
  split; [exact Hl|]. split; [exact Hp|].
  apply (proj2 (no_span_without_a_start _ 3 Hl Hp)).
Defined.

(** ** [iastToDevanagari]: consonants without a vowel sign *)

Lemma i2d_consonant_key_length key :
  known I2D.consonants key = true ->
  (exists c, key = [c]) \/ (exists x y, key = [x; y]).
Proof.
  intros H. destruct (known_In _ _ H) as (v & Hin & _). cbn in Hin.
  repeat (destruct Hin as [Hin|Hin];
          [injection Hin as <- _; first [left; eexists; reflexivity
                                        |right; do 2 eexists; reflexivity]|]).
  destruct Hin.
Qed.

(** X19.  The virama rule of [iastToDevanagari]: a consonant that is
    followed neither by a vowel nor by an h that makes it an aspirate is
    written as its glyph, with a virama exactly when the text ends there, a
    consonant follows or a word boundary (whitespace or punctuation)
    follows; before any other code unit the glyph is left with its inherent
    vowel. *)
Theorem virama_rule key Y :
  known I2D.consonants key = true ->
  match Y with
  | [] => True
  | y0 :: _ => (y0 =? Ch.a)%Z = false /\ known I2D.vowelSigns [y0] = false
               /\ known I2D.consonants (key ++ [y0]) = false
  end ->
  iastToDevanagari (key ++ Y)
  = I2D.get I2D.consonants key
    ++ (if needsVirama Y then [Ch.virama] else [])
    ++ iastToDevanagari Y.
Proof.
  intros Hk HY.
  destruct (i2d_consonant_key_length _ Hk) as [(c & ->)|(x & y & ->)].
  - cbn [app] in *. now apply i2d_cons1_bare.
  - cbn [app] in *. apply i2d_cons2_bare; [assumption|].
    destruct Y as [|y0 Y']; [exact I|]. tauto.
Qed.

Lemma virama_rule_witness :
  known I2D.consonants [Ch.k] = true
  /\ iastToDevanagari [Ch.k; Ch.space; Ch.k; 0x78%Z]
     = [0x915; Ch.virama; Ch.space; 0x915; 0x78]%Z.
Proof.
  assert (Hk : known I2D.consonants [Ch.k] = true) by reflexivity.
  split; [exact Hk|].
  exact (virama_rule [Ch.k] [Ch.space; Ch.k; 0x78%Z] Hk
           (conj eq_refl (conj eq_refl eq_refl))).
Defined.

Lemma i2d_short_vowel_alone w Y :
  w = Ch.i \/ w = Ch.u ->
  iastToDevanagari (w :: Y) = I2D.get I2D.vowels [w] ++ iastToDevanagari Y.
Proof.
  intros Hw. apply i2d_vowel1_step.
  - destruct Hw as [-> | ->]; reflexivity.
  - destruct Y as [|y0 Y']; [exact I|]. rewrite i2d_vowel2.
    destruct Hw as [-> | ->]; reflexivity.
Qed.

(** X20.  After an aspirated consonant [iastToDevanagari] takes a following
    a as the inherent vowel before it looks for a diphthong: "khai" becomes
    the glyph kha followed by the independent vowel i, not kha with the sign
    of ai, whereas after an unaspirated consonant ("kai") the sign of ai or
    au is written. *)
Theorem aspirate_takes_a_first x y w Y :
  known I2D.consonants [x; y] = true ->
  w = Ch.i \/ w = Ch.u ->
  iastToDevanagari (x :: y :: Ch.a :: w :: Y)
  = I2D.get I2D.consonants [x; y] ++ I2D.get I2D.vowels [w]
    ++ iastToDevanagari Y
  /\ iastToDevanagari (x :: Ch.a :: w :: Y)
     = I2D.get I2D.consonants [x] ++ I2D.get I2D.vowelSigns [Ch.a; w]
       ++ iastToDevanagari Y.
Proof.
  intros Hk Hw. split.
  - rewrite (i2d_aspirated_a _ _ _ Hk). now rewrite (i2d_short_vowel_alone _ _ Hw).
  - destruct (i2d_consonant2 _ _ Hk) as [_ Hx].
    apply i2d_cons1_sign2; [assumption|].
    rewrite i2d_sign2. destruct Hw as [-> | ->]; reflexivity.
Qed.

Lemma aspirate_takes_a_first_witness :
  known I2D.consonants [Ch.k; Ch.h] = true
  /\ iastToDevanagari [Ch.k; Ch.h; Ch.a; Ch.i] = [0x916; 0x907]%Z
  /\ iastToDevanagari [Ch.k; Ch.a; Ch.i] = [0x915; 0x948]%Z.
Proof.
  assert (Hk : known I2D.consonants [Ch.k; Ch.h] = true) by reflexivity.
  split; [exact Hk|].
  destruct (aspirate_takes_a_first Ch.k Ch.h Ch.i [] Hk (or_introl eq_refl))
    as [E1 E2].
  split; [rewrite E1|rewrite E2]; reflexivity.
Defined.

(** ** The automatic commands *)

Import Editor.

Lemma insertDesc_last {A} (key : A -> nat) x l :
  Forall (fun y => key x < key y) l -> insertDesc key x l = l ++ [x].
Proof.
  induction 1 as [|y l Hy _ IH]; [reflexivity|].
  cbn [insertDesc app]. apply Nat.ltb_lt in Hy. now rewrite Hy, IH.
Qed.

Lemma sortDesc_ascending {A} (key : A -> nat) l :
  StronglySorted (fun a b => key a < key b) l -> sortDesc key l = rev l.
Proof.
  induction 1 as [|x l _ IH Hx]; [reflexivity|].
  cbn [sortDesc fold_right rev]. fold (sortDesc key l). rewrite IH.
  apply insertDesc_last. apply Forall_forall. intros y Hy.
  apply in_rev in Hy. rewrite Forall_forall in Hx. now apply Hx.
Qed.

Lemma firstn_add (text : str) lo k :
  firstn lo text ++ firstn k (skipn lo text) = firstn (lo + k) text.
Proof.
  revert text. induction lo as [|lo IH]; intros text; [reflexivity|].
  destruct text as [|c text]; [now rewrite !firstn_nil|].
  cbn [firstn skipn Nat.add app]. now rewrite IH.
Qed.

Lemma firstn_cut (text : str) lo p :
  lo <= p -> firstn lo text ++ substring text lo p = firstn p text.
Proof.
  intros Hle. unfold substring. rewrite firstn_add. f_equal. lia.
Qed.

Lemma insertText_at (a b s : str) :
  insertText (a ++ b) (List.length a) s = a ++ s ++ b.
Proof.
  unfold insertText.
  rewrite firstn_app, firstn_all, Nat.sub_diag, skipn_app_length.
  cbn [firstn]. now rewrite app_nil_r.
Qed.

Lemma standardize_selection pre sel post :
  standardize (pre ++ sel ++ post) (List.length pre) (List.length sel)
  = (pre ++ preProcessRawText sel ++ post, preProcessRawText sel).
Proof.
  unfold standardize, getText, deleteText.
  rewrite skipn_app_length.
  rewrite firstn_app, firstn_all, Nat.sub_diag. cbn [firstn].
  rewrite app_nil_r.
  destruct (str_eqb sel (preProcessRawText sel)) eqn:E; cbn [negb].
  - apply str_eqb_eq in E. now rewrite <- E.
  - rewrite app_assoc, <- length_app, skipn_app_length.
    rewrite <- app_assoc, firstn_app, firstn_all, Nat.sub_diag.
    cbn [firstn]. rewrite app_nil_r.
    now rewrite insertText_at.
Qed.

(** Inserting at indices that increase, last index first, leaves each
    earlier index where it was. *)
Lemma insert_marks_backwards pre text post (ps : list pause) :
  forall lo,
  StronglySorted (fun p1 p2 => p_position p1 < p_position p2) ps ->
  Forall (fun p => lo <= p_position p <= List.length text) ps ->
  fold_right
    (fun pause doc =>
       insertText doc (List.length pre + p_position pause) [Ch.pipe; Ch.space])
    (pre ++ text ++ post) ps
  = pre ++ firstn lo text ++ withMarks text lo (map p_position ps) ++ post.
Proof.
  induction ps as [|p ps IH]; intros lo Hs Hb.
  - cbn [fold_right map withMarks].
    now rewrite (app_assoc (firstn lo text)), firstn_skipn.
  - cbn [fold_right map withMarks].
    inversion Hs as [|? ? Hs' Hlt]; subst.
    inversion Hb as [|? ? Hp Hb']; subst.
    rewrite (IH (p_position p)); [|assumption|].
    2:{ rewrite Forall_forall in *. intros q Hq.
        specialize (Hlt q Hq). specialize (Hb' q Hq). lia. }
    assert (Hl : List.length pre + p_position p
                 = List.length (pre ++ firstn (p_position p) text)).
    { rewrite length_app, firstn_length_le; lia. }
    rewrite Hl, (app_assoc pre (firstn _ _)), insertText_at.
    rewrite <- (firstn_cut text lo (p_position p)) by lia.
    now rewrite <- !app_assoc.
Qed.

Lemma StronglySorted_weaken {A} (R R' : A -> A -> Prop) (P : A -> Prop) l :
  (forall a b, P a -> R a b -> R' a b) ->
  Forall P l -> StronglySorted R l -> StronglySorted R' l.
Proof.
  intros HR HP HS. induction HS as [|x l _ IH Hx]; [constructor|].
  inversion HP as [|? ? Px HP']; subst.
  constructor; [now apply IH|].
  eapply Forall_impl; [|exact Hx]. intros b. now apply HR.
Qed.

Lemma StronglySorted_snoc {A} (R : A -> A -> Prop) l x :
  StronglySorted R l -> Forall (fun y => R y x) l ->
  StronglySorted R (l ++ [x]).
Proof.
  induction 1 as [|y l _ IH Hy]; intros Hx; cbn [app].
  - constructor; constructor.
  - inversion Hx as [|? ? Hyx Hx']; subst.
    constructor; [now apply IH|].
    apply Forall_app. split; [assumption|]. constructor; [assumption|constructor].
Qed.

Lemma StronglySorted_rev {A} (R : A -> A -> Prop) l :
  StronglySorted R l -> StronglySorted (fun a b => R b a) (rev l).
Proof.
  induction 1 as [|x l _ IH Hx]; cbn [rev]; [constructor|].
  apply StronglySorted_snoc; [assumption|].
  apply Forall_forall. intros y Hy. apply in_rev in Hy.
  rewrite Forall_forall in Hx. now apply Hx.
Qed.

Lemma StronglySorted_map {A B} (F : A -> B) (R : B -> B -> Prop) l :
  StronglySorted (fun a b => R (F a) (F b)) l -> StronglySorted R (map F l).
Proof.
  induction 1 as [|x l _ IH Hx]; cbn [map]; [constructor|].
  constructor; [assumption|]. apply Forall_map. exact Hx.
Qed.

(** X21.  [applyAutomaticPauses] on a selection: the selected text is
    replaced by its normalized form, cut at the positions that
    [findAllPauses] gives for it, with the pause glyph and a space put in at
    each cut; what precedes and follows the selection is untouched.
    Inserting from the last position to the first is what keeps every mark
    at the position computed for it. *)
Theorem automatic_pauses_placed pre sel post :
  sel <> [] ->
  applyAutomaticPauses (pre ++ sel ++ post)
    (Some (List.length pre, List.length sel))
  = pre
    ++ withMarks (preProcessRawText sel) 0
         (map p_position (findAllPauses (preProcessRawText sel)))
    ++ post.
Proof.
  intros Hsel. unfold applyAutomaticPauses.
  destruct (List.length sel =? 0) eqn:El.
  { apply Nat.eqb_eq in El. destruct sel; [contradiction|discriminate El]. }
  rewrite standardize_selection.
  set (text := preProcessRawText sel).
  rewrite (sortDesc_ascending p_position (findAllPauses text))
    by apply findAllPauses_loop_ordered.
  etransitivity.
  { symmetry.
    apply (fold_left_rev_right
             (fun pause doc =>
                insertText doc (List.length pre + p_position pause)
                  [Ch.pipe; Ch.space])). }
  rewrite rev_involutive.
  rewrite (insert_marks_backwards pre text post (findAllPauses text) 0).
  - reflexivity.
  - apply findAllPauses_loop_ordered.
  - apply Forall_forall. intros p Hp.
    destruct (findAllPauses_loop_after_space _ _ _ _ Hp) as (q & _ & _ & _ & Hl & _).
    lia.
Qed.

Lemma automatic_pauses_placed_witness :
  Ex.rama_iti <> []
  /\ applyAutomaticPauses ([Ch.a; Ch.space] ++ Ex.rama_iti ++ [Ch.newline])
       (Some (2, 8))
     = [Ch.a; Ch.space]
       ++ [Ch.r; Ch.aa; Ch.m; Ch.a; Ch.space; Ch.pipe; Ch.space; Ch.i; Ch.t; Ch.i]
       ++ [Ch.newline].
Proof.
  assert (Hne : Ex.rama_iti <> []) by discriminate.
  split; [exact Hne|].
  exact (automatic_pauses_placed [Ch.a; Ch.space] Ex.rama_iti [Ch.newline] Hne).
Defined.

(** X22.  [applyAutomaticHoldings] on a selection: the selected text is
    replaced by its normalized form and nothing else of the text changes;
    every [formatText] call covers at least one code unit, starts after the
    first code unit of the selection and ends within the selection, with the
    value short or long; the calls are made from right to left and no two of
    them overlap. *)
Theorem automatic_holdings_in_selection pre sel post :
  sel <> [] ->
  fst (applyAutomaticHoldings (pre ++ sel ++ post)
         (Some (List.length pre, List.length sel)))
  = pre ++ preProcessRawText sel ++ post
  /\ Forall (fun c => List.length pre < f_index c /\ 1 <= f_length c
               /\ f_index c + f_length c <= List.length pre + List.length sel
               /\ (f_value c = Short \/ f_value c = Long))
       (snd (applyAutomaticHoldings (pre ++ sel ++ post)
               (Some (List.length pre, List.length sel))))
  /\ StronglySorted (fun c1 c2 => f_index c2 + f_length c2 <= f_index c1)
       (snd (applyAutomaticHoldings (pre ++ sel ++ post)
               (Some (List.length pre, List.length sel)))).
Proof.
  intros Hsel. unfold applyAutomaticHoldings.
  destruct (List.length sel =? 0) eqn:El.
  { apply Nat.eqb_eq in El. destruct sel; [contradiction|discriminate El]. }
  rewrite standardize_selection. cbn [fst snd].
  set (text := preProcessRawText sel).
  assert (Hlen : List.length text <= List.length sel)
    by apply preProcessRawText_length.
  assert (Hall : Forall (fun h => 1 <= position h /\ 1 <= length h
                          /\ position h + length h <= List.length text
                          /\ (type h = Short \/ type h = Long))
                   (findAllHoldings text)).
  { apply Forall_forall. intros h Hin. unfold findAllHoldings in Hin.
    destruct (findAllHoldings_loop_origin _ _ _ _ Hin)
      as (j & _ & _ & <- & Hp & Hl).
    destruct (findHoldingPosition_shape _ _ Hp) as (c & H1 & H2 & H3 & _).
    destruct (isConsonant_bounds _ _ _ H1) as [_ Hb].
    repeat split; try assumption; lia. }
  assert (Hord : StronglySorted
                   (fun h1 h2 => position h1 + length h1 <= position h2)
                   (findAllHoldings text))
    by apply (findAllHoldings_loop_ordered (List.length text) text 0).
  rewrite (sortDesc_ascending position (findAllHoldings text)).
  2:{ refine (StronglySorted_weaken _ _ _ _ _ Hall Hord).
      cbn. intros a b (_ & Ha & _) Hab. lia. }
  split; [reflexivity|]. split.
  - apply Forall_map. apply Forall_rev.
    eapply Forall_impl; [|exact Hall]. cbn. intros h (H1 & H2 & H3 & H4).
    repeat split; try assumption; lia.
  - apply StronglySorted_map. cbn [f_index f_length].
    apply (StronglySorted_rev _ _) in Hord.
    refine (StronglySorted_weaken _ _ (fun _ => True) _ _ _ Hord).
    + cbn. intros a b _ H. lia.
    + apply Forall_forall. intros x _. exact I.
Qed.

Lemma automatic_holdings_in_selection_witness :
  Ex.akta <> []
  /\ applyAutomaticHoldings ([Ch.space] ++ Ex.akta ++ [Ch.newline])
       (Some (1, 4))
     = ([Ch.space] ++ Ex.akta ++ [Ch.newline], [FormatCall 2 1 Short])
  /\ Forall (fun c => 1 < f_index c /\ 1 <= f_length c
               /\ f_index c + f_length c <= 1 + 4
               /\ (f_value c = Short \/ f_value c = Long))
       [FormatCall 2 1 Short].
Proof.
  assert (Hne : Ex.akta <> []) by discriminate.
  split; [exact Hne|]. split; [reflexivity|].
  exact (proj1 (proj2 (automatic_holdings_in_selection
                         [Ch.space] Ex.akta [Ch.newline] Hne))).
Defined.

(** ** The transliteration commands *)

Lemma inherentBetween_not_bare s t :
  endsBare s = false -> inherentBetween s t = [].
Proof. intros H. unfold inherentBetween. now rewrite H. Qed.

(** X23.  [transliterateDevanagariToIAST] converts the selection op by op.
    When no string of the ops ends in a consonant glyph that carries its
    inherent vowel, the text of the converted ops is the conversion of the
    whole text of the selection: cutting the text into runs of different
    formatting then changes nothing. *)
Theorem transliterate_runs {attributes embed : Type}
  (ops : list (@Delta.op attributes embed)) :
  Delta.noRunEndsBare ops ->
  Delta.textOf (Delta.transliterateOps devanagariToIAST ops)
  = devanagariToIAST (Delta.textOf ops).
Proof.
  induction 1 as [|o ops Ho _ IH]; [reflexivity|].
  cbn [Delta.transliterateOps map Delta.textOf flat_map].
  fold (Delta.transliterateOps devanagariToIAST ops).
  fold (Delta.textOf (Delta.transliterateOps devanagariToIAST ops)).
  fold (Delta.textOf ops).
  rewrite IH. destruct o as [s a|e a]; [|reflexivity].
  rewrite (d2i_concat_len (List.length s) s _ (le_n _)).
  now rewrite (inherentBetween_not_bare _ _ Ho).
Qed.

Lemma transliterate_runs_witness :
  Delta.noRunEndsBare
    [Delta.InsertString [0x915; 0x93F]%Z true; Delta.InsertEmbed tt false;
     Delta.InsertString [0x924; Ch.virama]%Z false]
  /\ Delta.textOf
       (Delta.transliterateOps devanagariToIAST
          [Delta.InsertString [0x915; 0x93F]%Z true; Delta.InsertEmbed tt false;
           Delta.InsertString [0x924; Ch.virama]%Z false])
     = devanagariToIAST [0x915; 0x93F; 0x924; Ch.virama]%Z.
Proof.
  assert (H : Delta.noRunEndsBare
                [Delta.InsertString [0x915; 0x93F]%Z true;
                 Delta.InsertEmbed tt false;
                 Delta.InsertString [0x924; Ch.virama]%Z false]).
  { constructor; [reflexivity|]. constructor; [exact I|].
    constructor; [reflexivity|constructor]. }
  split; [exact H|].
  exact (transliterate_runs _ H).
Defined.

(** ** [iastToDevanagari]: word by word *)

Lemma boundary_unrecognized sp :
  I2D.isWordBoundary (Some sp) = true -> recognizedI2D sp = false.
Proof.
  intros Hb. destruct (recognizedI2D sp) eqn:E; [|reflexivity].
  apply memZ_In in E. cbn in E.
  repeat (destruct E as [<-|E]; [vm_compute in Hb; discriminate Hb|]).
  destruct E.
Qed.

Section Boundary.

Variable sp : Z.
Hypothesis Hb : I2D.isWordBoundary (Some sp) = true.

Let Hsp : recognizedI2D sp = false := boundary_unrecognized sp Hb.

Lemma boundary_not_letter :
  (sp =? Ch.a)%Z = false /\ (sp =? Ch.i)%Z = false /\ (sp =? Ch.u)%Z = false.
Proof.
  repeat split; apply Z.eqb_neq; intros E; pose proof Hb as Hb';
    rewrite E in Hb'; vm_compute in Hb'; discriminate Hb'.
Qed.

Lemma isConsonantAhead_extend r0 r' Y :
  I2D.isConsonantAhead (r0 :: r' ++ sp :: Y) 0
  = I2D.isConsonantAhead (r0 :: r') 0.
Proof.
  unfold I2D.isConsonantAhead, substring.
  destruct r' as [|r1 r'']; cbn [app List.length Nat.leb skipn firstn Nat.sub
                                 Nat.add nth_error]; [|reflexivity].
  rewrite (unrec_consonants sp Hsp [r0; sp]) by (right; left; reflexivity).
  destruct (known I2D.consonants [r0]); reflexivity.
Qed.

Lemma needsVirama_extend r Y : needsVirama (r ++ sp :: Y) = needsVirama r.
Proof.
  destruct r as [|r0 r']; cbn [app needsVirama].
  - destruct (I2D.isConsonantAhead (sp :: Y) 0); [reflexivity|exact Hb].
  - rewrite isConsonantAhead_extend. reflexivity.
Qed.

Lemma Token_extend t out r Y :
  Token t out r -> Token (t ++ sp :: Y) out (r ++ sp :: Y).
Proof.
  destruct boundary_not_letter as (Ha & Hi & Hu).
  assert (Hs1 : known I2D.vowelSigns [sp] = false)
    by (apply (unrec_vowelSigns sp Hsp); left; reflexivity).
  destruct 1; cbn [app].
  - apply TkOm.
  - apply TkAspA; assumption.
  - apply TkCons2Sign; assumption.
  - rewrite <- (needsVirama_extend r Y).
    apply (TkCons2 x y (r ++ sp :: Y)); [assumption|].
    destruct r; cbn [app]; [split; assumption|assumption].
  - apply TkCons1Sign2; assumption.
  - apply TkCons1Sign; assumption.
  - apply (TkCons1A c (r ++ sp :: Y)); [assumption|].
    destruct r; cbn [app]; [split; assumption|assumption].
  - rewrite <- (needsVirama_extend r Y).
    apply (TkCons1 c (r ++ sp :: Y)); [assumption|].
    destruct r; cbn [app]; [|assumption].
    split; [assumption|]. split; [assumption|].
    apply (unrec_consonants sp Hsp). right. left. reflexivity.
  - apply TkVowel2; assumption.
  - apply (TkVowel1 v (r ++ sp :: Y)); [assumption|].
    destruct r; cbn [app]; [|assumption].
    apply (unrec_vowels sp Hsp). right. left. reflexivity.
  - apply TkSpecial; assumption.
  - apply TkOther; assumption.
Qed.

Lemma i2d_word_len n :
  forall s Y, List.length s <= n ->
  iastToDevanagari (s ++ sp :: Y)
  = iastToDevanagari s ++ sp :: iastToDevanagari Y.
Proof.
  induction n as [|n IH]; intros s Y Hn.
  - destruct s; [|cbn in Hn; lia]. cbn [app].
    rewrite (i2d_copies_unrecognized _ Hsp). reflexivity.
  - destruct s as [|x s1].
    { cbn [app]. rewrite (i2d_copies_unrecognized _ Hsp). reflexivity. }
    destruct (tokenize x s1) as (out & r & Htk).
    rewrite (Token_i2d _ _ _ (Token_extend _ _ _ Y Htk)).
    rewrite (Token_i2d _ _ _ Htk).
    rewrite IH; [rewrite <- app_assoc; reflexivity|].
    destruct (Token_rest _ _ _ Htk) as (p & E & Hp).
    apply (f_equal (@List.length Z)) in E. rewrite length_app in E.
    destruct p; [contradiction|]. cbn [List.length] in *. lia.
Qed.

End Boundary.

(** X24.  [iastToDevanagari] converts a text word by word: at a code unit
    that it takes for a word boundary (whitespace or punctuation) the
    conversion of the whole is the conversion of what precedes, the boundary
    unit itself, and the conversion of what follows. *)
Theorem i2d_word_by_word s sp t :
  I2D.isWordBoundary (Some sp) = true ->
  iastToDevanagari (s ++ sp :: t)
  = iastToDevanagari s ++ sp :: iastToDevanagari t.
Proof.
  intros Hb. apply (i2d_word_len sp Hb (List.length s)). reflexivity.
Qed.

Lemma i2d_word_by_word_witness :
  I2D.isWordBoundary (Some Ch.space) = true
  /\ iastToDevanagari Ex.rama_iti
     = iastToDevanagari [Ch.r; Ch.aa; Ch.m; Ch.a]
       ++ Ch.space :: iastToDevanagari [Ch.i; Ch.t; Ch.i].
Proof.
  assert (Hb : I2D.isWordBoundary (Some Ch.space) = true) by reflexivity.
  split; [exact Hb|].
  exact (i2d_word_by_word [Ch.r; Ch.aa; Ch.m; Ch.a] Ch.space [Ch.i; Ch.t; Ch.i] Hb).
Defined.

Lemma i2d_concat_at_boundary s t :
  endsAtBoundary s ->
  iastToDevanagari (s ++ t) = iastToDevanagari s ++ iastToDevanagari t.
Proof.
  intros Hs. destruct s as [|x s'] using rev_ind; [reflexivity|].
  clear IHs'. unfold endsAtBoundary in Hs.
  assert (Hb : I2D.isWordBoundary (Some x) = true).
  { destruct (s' ++ [x]) eqn:E; [now destruct s'|].
    rewrite <- E, last_last in Hs. exact Hs. }
  rewrite <- app_assoc. cbn [app].
  rewrite (i2d_word_len x Hb (List.length s') s' t (le_n _)).
  rewrite (i2d_word_len x Hb (List.length s') s' [] (le_n _)).
  now rewrite <- app_assoc.
Qed.

(** X25.  [transliterateIASTToDevanagari] converts the selection op by op.
    When every string of the ops is empty or ends in a word boundary, the
    text of the converted ops is the conversion of the whole text of the
    selection. *)
Theorem transliterate_words {attributes embed : Type}
  (ops : list (@Delta.op attributes embed)) :
  Delta.runsEndAtBoundary ops ->
  Delta.textOf (Delta.transliterateOps iastToDevanagari ops)
  = iastToDevanagari (Delta.textOf ops).
Proof.
  induction 1 as [|o ops Ho _ IH]; [reflexivity|].
  cbn [Delta.transliterateOps map Delta.textOf flat_map].
  fold (Delta.transliterateOps iastToDevanagari ops).
  fold (Delta.textOf (Delta.transliterateOps iastToDevanagari ops)).
  fold (Delta.textOf ops).
  rewrite IH. destruct o as [s a|e a]; [|reflexivity].
  now rewrite (i2d_concat_at_boundary s _ Ho).
Qed.

Lemma transliterate_words_witness :
  Delta.runsEndAtBoundary
    [Delta.InsertString [Ch.k; Ch.a; Ch.space] true; Delta.InsertEmbed tt false;
     Delta.InsertString [Ch.t; Ch.i; 0x2E%Z] false]
  /\ Delta.textOf
       (Delta.transliterateOps iastToDevanagari
          [Delta.InsertString [Ch.k; Ch.a; Ch.space] true;
           Delta.InsertEmbed tt false;
           Delta.InsertString [Ch.t; Ch.i; 0x2E%Z] false])
     = iastToDevanagari [Ch.k; Ch.a; Ch.space; Ch.t; Ch.i; 0x2E%Z].
Proof.
  assert (H : Delta.runsEndAtBoundary
                [Delta.InsertString [Ch.k; Ch.a; Ch.space] true;
                 Delta.InsertEmbed tt false;
                 Delta.InsertString [Ch.t; Ch.i; 0x2E%Z] false]).
  { constructor; [reflexivity|]. constructor; [exact I|].
    constructor; [reflexivity|constructor]. }
  split; [exact H|].
  exact (transliterate_words _ H).
Defined.
